(** * avif-converter: the bounded-concurrency conversion pipeline

    A shallow embedding of [src/index.js] (option handling and the sliding
    window of [main]), [src/converter.js] ([convertImage]), [src/utils.js]
    ([findImages], [ensureDirectory], [cleanDirectory]) and [src/cli.js]
    ([printSummary]), together with the properties the design document states
    about them.

    Conventions.
    - Node's [path] module, [fs/promises], [sharp], [glob], [inquirer] and
      [os] are libraries outside the repository.  [path] is pure and is
      modelled below on POSIX strings; the others are effectful and are taken
      as an abstract [Platform] acting on a world.
    - A JavaScript exception is an [Error] value; a function that may throw
      returns an [outcome] and the world it left behind.  An [async]
      function is a computation in this monad, each [await] a bind.
    - The jobs of the loop interleave at their [await]s.  The loop is a
      step relation on the variables of [main]; a job resolves, in a step of
      its own, to any result [convertImage] can return.  [step] lets a job
      complete at any moment; [turn] is the same relation in JavaScript's
      order, a callback running only while [main] is suspended.
    - File sizes are non-negative integers ([N]), so the sums of the summary
      are exact, as they are in JavaScript below [2^53] bytes.  The
      percentages of the summary are computed in double precision: a finite
      double is the rational it stands for, and a division, a subtraction
      or a multiplication returns the double nearest to the exact result.
    - The text of console messages is not modelled, only which message is
      printed and with which values. *)

From Stdlib Require Import ZArith QArith Qround Qpower SpecFloat Ascii String Lia Lqa.
From stdpp Require Import base list strings gmap sets.

Local Open Scope Z_scope.

(** ** Characters and strings *)

Definition chars (s : string) : list ascii := list_ascii_of_string s.
Definition str (l : list ascii) : string := string_of_list_ascii l.

Definition is_slash (c : ascii) : bool := Ascii.eqb c "/"%char.
Definition is_dot (c : ascii) : bool := Ascii.eqb c "."%char.

Fixpoint drop_while {A} (p : A → bool) (l : list A) : list A :=
  match l with
  | [] => []
  | x :: l' => if p x then drop_while p l' else l
  end.

Fixpoint take_while {A} (p : A → bool) (l : list A) : list A :=
  match l with
  | [] => []
  | x :: l' => if p x then x :: take_while p l' else []
  end.

(** [s.split('/')] *)
Fixpoint split_slash (s : string) : list string :=
  match s with
  | EmptyString => [EmptyString]
  | String c s' =>
      if is_slash c then EmptyString :: split_slash s'
      else match split_slash s' with
           | [] => [String c EmptyString]
           | h :: t => String c h :: t
           end
  end.

(** [l.join('/')] *)
Definition join_slash (l : list string) : string := String.concat "/" l.

(** ** Node's [path] module, POSIX flavour *)

Module NodePath.

Definition isAbsolute (p : string) : bool :=
  match p with
  | String c _ => is_slash c
  | EmptyString => false
  end.

Definition ends_with_slash (p : string) : bool :=
  match rev (chars p) with
  | c :: _ => is_slash c
  | [] => false
  end.

(** One segment of [normalizeString]: [stack] holds the segments kept so
    far, innermost last. *)
Definition normalize_step (allowAboveRoot : bool) (stack : list string)
    (seg : string) : list string :=
  if decide (seg = EmptyString) then stack
  else if decide (seg = ".") then stack
  else if decide (seg = "..") then
    match last stack with
    | Some top =>
        if decide (top = "..")
        then (if allowAboveRoot then stack ++ [".."] else stack)
        else removelast stack
    | None => if allowAboveRoot then [".."] else []
    end
  else stack ++ [seg].

Definition normalizeString (p : string) (allowAboveRoot : bool) : string :=
  join_slash (fold_left (normalize_step allowAboveRoot) (split_slash p) []).

Definition normalize (p : string) : string :=
  if decide (p = EmptyString) then "."
  else
    let abs := isAbsolute p in
    let trailing := ends_with_slash p in
    let body := normalizeString p (negb abs) in
    if decide (body = EmptyString) then
      (if abs then "/" else if trailing then "./" else ".")
    else
      let body := if trailing then body +:+ "/" else body in
      if abs then "/" +:+ body else body.

(** [path.join(a, b)]: the non-empty arguments joined by a slash, then
    normalised. *)
Definition join (a b : string) : string :=
  match decide (a = EmptyString), decide (b = EmptyString) with
  | left _, left _ => "."
  | left _, right _ => normalize b
  | right _, left _ => normalize a
  | right _, right _ => normalize (a +:+ "/" +:+ b)
  end.

Definition join3 (a b c : string) : string :=
  normalize (join_slash (filter (λ s, s ≠ EmptyString) [a; b; c])).

(** [path.resolve(cwd, p)] where [cwd] is [process.cwd()], an absolute
    path. *)
Definition resolve (cwd p : string) : string :=
  let joined :=
    if isAbsolute p then p +:+ "/"
    else if decide (p = EmptyString) then cwd +:+ "/"
    else cwd +:+ "/" +:+ p +:+ "/" in
  "/" +:+ normalizeString joined false.

Fixpoint strip_common (from to : list string) : list string * list string :=
  match from, to with
  | f :: from', t :: to' =>
      if decide (f = t) then strip_common from' to' else (from, to)
  | _, _ => (from, to)
  end.

(** Segments of a resolved path: the text after the leading slash. *)
Definition resolved_segments (p : string) : list string :=
  match p with
  | String _ EmptyString => []
  | String _ rest => split_slash rest
  | EmptyString => []
  end.

(** [path.relative(from, to)] once both arguments are resolved: one [..]
    for each segment of [from] below the common ancestor, then the rest of
    [to]. *)
Definition relative_resolved (from to : string) : string :=
  if decide (from = to) then EmptyString
  else
    let '(up, down) :=
      strip_common (resolved_segments from) (resolved_segments to) in
    join_slash (replicate (length up) ".." ++ down).

(** [path.dirname(p)]: index 0 is never inspected by the backwards scan. *)
Definition dirname (p : string) : string :=
  match p with
  | EmptyString => "."
  | String c0 rest =>
      let r := drop_while is_slash (rev (chars rest)) in
      match drop_while (λ c, negb (is_slash c)) r with
      | [] => if is_slash c0 then "/" else "."
      | _ :: before =>
          if is_slash c0 && bool_decide (before = []) then "//"
          else String c0 (str (rev before))
      end
  end.

(** The last path component, trailing slashes ignored. *)
Definition last_component (p : string) : string :=
  let r := drop_while is_slash (rev (chars p)) in
  str (rev (take_while (λ c, negb (is_slash c)) r)).

(** [Some pre] when [s = pre ++ suffix]. *)
Fixpoint strip_suffix (suffix s : string) : option string :=
  if decide (s = suffix) then Some EmptyString
  else match s with
       | EmptyString => None
       | String c s' => String c <$> strip_suffix suffix s'
       end.

(** [path.basename(p)] and [path.basename(p, suffix)]. *)
Definition basename (p : string) (suffix : option string) : string :=
  match suffix with
  | Some suf =>
      if decide (suf = EmptyString) then last_component p
      else if decide (String.length p < String.length suf)%nat
      then last_component p
      else if decide (suf = p) then EmptyString
      else
        let comp := last_component p in
        match strip_suffix suf comp with
        | Some EmptyString => comp
        | Some stem => stem
        | None => comp
        end
  | None => last_component p
  end.

(** Split a component at its last dot: [(before, from the dot on)]. *)
Fixpoint split_last_dot (s : string) : option (string * string) :=
  match s with
  | EmptyString => None
  | String c s' =>
      match split_last_dot s' with
      | Some (pre, ext) => Some (String c pre, ext)
      | None => if is_dot c then Some (EmptyString, s) else None
      end
  end.

(** [path.extname(p)] *)
Definition extname (p : string) : string :=
  let comp := last_component p in
  match split_last_dot comp with
  | None => EmptyString
  | Some (pre, ext) =>
      if decide (pre = EmptyString) then EmptyString
      else if decide (comp = "..") then EmptyString
      else ext
  end.

End NodePath.

(** ** Exceptions and effects *)

(** A JavaScript [Error]: its [message], and the [code] Node sets on system
    errors (absent on errors built with [new Error(text)]). *)
Record Error := mkError { message : string; code : option string }.

Definition new_Error (text : string) : Error :=
  {| message := text; code := None |}.

Inductive outcome (A : Type) : Type :=
| Returned (a : A)
| Thrown (e : Error).
Arguments Returned {A} a.
Arguments Thrown {A} e.

(** An effectful computation over a world [W].  The world a throwing
    computation leaves behind is kept: nothing is rolled back. *)
Definition io (W A : Type) : Type := W → outcome A * W.

Definition io_ret {W A} (a : A) : io W A := λ w, (Returned a, w).

Definition io_bind {W A B} (m : io W A) (k : A → io W B) : io W B :=
  λ w, match m w with
       | (Returned a, w') => k a w'
       | (Thrown e, w') => (Thrown e, w')
       end.

Definition throw {W A} (e : Error) : io W A := λ w, (Thrown e, w).

(** [try { m } catch (error) { handler error }] *)
Definition try_catch {W A} (m : io W A) (handler : Error → io W A) : io W A :=
  λ w, match m w with
       | (Returned a, w') => (Returned a, w')
       | (Thrown e, w') => handler e w'
       end.

Notation "x <- m ;; k" := (io_bind m (λ x, k))
  (at level 100, m at next level, k at level 200, right associativity).
Notation "m ;; k" := (io_bind m (λ _, k))
  (at level 100, k at level 200, right associativity).

(** ** Data model *)

(** The options object handed to an encoder of [sharp]. *)
Inductive Encoder : Type :=
| EncAvif (quality effort : Z) (chromaSubsampling : string)
| EncJpeg (quality : Z) (mozjpeg : bool)
| EncPng (quality : Z) (palette : bool) (compressionLevel : Z)
| EncWebp (quality : Z)
| EncSame.  (* no output format chosen on the pipeline *)

(** What the interactive prompt of [askQuestions] returns. *)
Record Answers := {
  ans_input : string;
  ans_output : string;
  ans_quality : Z
}.

(** The effectful libraries [main] and [convertImage] call. *)
Class Platform (W : Type) := {
  (** [fs.access(p)] *)
  fs_access : string → io W unit;
  (** [fs.mkdir(p, { recursive: true })] *)
  fs_mkdir : string → io W unit;
  (** [fs.rm(p, { recursive: true, force: true })] *)
  fs_rm : string → io W unit;
  (** [(await fs.stat(p)).size] *)
  fs_stat : string → io W N;
  (** [glob(pattern, { ignore: '**/node_modules/**', nodir: true, absolute: true })] *)
  glob : string → io W (list string);
  (** [(await sharp(p).metadata()).format] *)
  sharp_metadata : string → io W string;
  (** [sharp(src).clone().<encoder>(opts).toFile(dest)] *)
  sharp_toFile : string → Encoder → string → io W unit;
  (** [Date.now()] *)
  Date_now : io W Z;
  (** [os.cpus().length] *)
  os_cpus : io W nat;
  (** [process.cwd()] *)
  process_cwd : io W string;
  (** [inquirer.prompt(questions)] of [askQuestions] *)
  inquirer_ask : io W Answers;
  (** [inquirer.prompt] of [confirmProcessing] *)
  inquirer_confirm : nat → io W bool
}.

(** The merged configuration object of [main]. *)
Record Config := {
  cfg_input : string;
  cfg_output : string;
  cfg_quality : Z;
  cfg_effort : Z;
  cfg_pattern : string;
  cfg_yes : bool;
  cfg_silent : bool;
  cfg_resize : option string
}.

(** The result object of one job.  A field the object does not carry is
    [None]. *)
Record ConversionResult := {
  success : bool;
  inputPath : string;
  avif_path : option string;
  avif_size : option N;
  fallback_path : option string;
  fallback_size : option N;
  fallback_format : option string;
  originalSize : option N;
  duration : option Z;
  error : option string
}.

Definition success_result (filePath outputFilePath : string) (avifSize : N)
    (fallbackFilePath : string) (fallbackSize : N) (format : string)
    (original : N) (elapsed : Z) : ConversionResult :=
  {| success := true; inputPath := filePath;
     avif_path := Some outputFilePath; avif_size := Some avifSize;
     fallback_path := Some fallbackFilePath;
     fallback_size := Some fallbackSize; fallback_format := Some format;
     originalSize := Some original; duration := Some elapsed;
     error := None |}.

Definition failure_result (filePath text : string) : ConversionResult :=
  {| success := false; inputPath := filePath;
     avif_path := None; avif_size := None;
     fallback_path := None; fallback_size := None; fallback_format := None;
     originalSize := None; duration := None;
     error := Some text |}.

(** ** [utils.js] and [converter.js] *)

Section Converter.
Context {W : Type} `{!Platform W}.

(** [path.resolve(p)] consults [process.cwd()] only for a relative [p]. *)
Definition path_resolve1 (p : string) : io W string :=
  if NodePath.isAbsolute p then io_ret (NodePath.resolve "/" p)
  else cwd <- process_cwd;; io_ret (NodePath.resolve cwd p).

Definition path_relative (from to : string) : io W string :=
  if decide (from = to) then io_ret EmptyString
  else
    from <- path_resolve1 from;;
    to <- path_resolve1 to;;
    io_ret (NodePath.relative_resolved from to).

Definition findImages (directory pattern : string) : io W (list string) :=
  let searchPattern :=
    NodePath.join3 (join_slash (split_slash directory)) "**" pattern in
  glob searchPattern.

Definition ensureDirectory (dirPath : string) (createIfMissing : bool)
    : io W unit :=
  try_catch (fs_access dirPath)
    (λ _, if createIfMissing then fs_mkdir dirPath
          else throw (new_Error ("Directory not found: " +:+ dirPath))).

Definition cleanDirectory (dirPath : string) : io W unit :=
  try_catch (fs_rm dirPath;; fs_mkdir dirPath)
    (λ error, throw (new_Error ("Failed to clean directory: " +:+ dirPath
                                +:+ ". " +:+ message error))).

(** The fallback pipeline chosen from the detected source format. *)
Definition fallback_encoder (format : string) (quality : Z) : Encoder :=
  if decide (format = "jpeg" ∨ format = "jpg") then EncJpeg quality true
  else if decide (format = "png") then EncPng quality true 9
  else if decide (format = "webp") then EncWebp quality
  else EncSame.

Definition outputDir_of (outputRoot relativePath : string) : string :=
  NodePath.dirname (NodePath.join outputRoot relativePath).

Definition fileName_of (filePath : string) : string :=
  NodePath.basename filePath (Some (NodePath.extname filePath)).

(** The [try] block of [convertImage]. *)
Definition convertImage_try (filePath inputRoot outputRoot : string)
    (options : Config) : io W ConversionResult :=
  relativePath <- path_relative inputRoot filePath;;
  let outputDir := outputDir_of outputRoot relativePath in
  let fileName := fileName_of filePath in
  let outputFilePath := NodePath.join outputDir (fileName +:+ ".avif") in
  ensureDirectory outputDir true;;
  original <- fs_stat filePath;;
  start <- Date_now;;
  format <- sharp_metadata filePath;;
  sharp_toFile filePath
          (EncAvif (cfg_quality options) (cfg_effort options) "4:4:4")
          outputFilePath;;
  avifSize <- fs_stat outputFilePath;;
  let fallbackFileName := NodePath.basename filePath None in
  let fallbackFilePath := NodePath.join outputDir fallbackFileName in
  sharp_toFile filePath
          (fallback_encoder format (cfg_quality options)) fallbackFilePath;;
  fallbackSize <- fs_stat fallbackFilePath;;
  finish <- Date_now;;
  io_ret (success_result filePath outputFilePath avifSize fallbackFilePath
            fallbackSize format original (finish - start)).

Definition convertImage (filePath inputRoot outputRoot : string)
    (options : Config) : io W ConversionResult :=
  try_catch (convertImage_try filePath inputRoot outputRoot options)
    (λ error, io_ret (failure_result filePath (message error))).

End Converter.

(** ** [cli.js]: the summary *)

(** The values [printSummary] computes and prints. *)
Record Summary := {
  successCount : nat;
  failCount : nat;
  totalOriginalSize : N;
  totalAvifSize : N;
  totalFallbackSize : N;
  avifReduction : Z;
  fallbackReduction : Z;
  elapsed : Z;
  errorList : list (string * option string)
}.

(** ** [cli.js]: the arithmetic of the percentages

    JavaScript computes with IEEE 754 doubles.  A finite double is
    modelled by the rational it stands for; [/], [-] and [*] return the
    exact result rounded to the nearest double, a tie going to the even
    significand (roundTiesToEven, 53 significant bits).  The range of the
    exponent is not modelled: for totals below [2^1000] bytes no quotient,
    difference or product below overflows or underflows. *)

Definition pow2 (e : Z) : Q := ((2 # 1) ^ e)%Q.

(** Linear arithmetic over [Q], with the powers of two and the injected
    integers taken as unknowns. *)
Ltac hide_atoms :=
  repeat match goal with
  | |- context [pow2 ?e] =>
      let p := fresh "p" in set (p := pow2 e) in *; clearbody p
  | H : context [pow2 ?e] |- _ =>
      let p := fresh "p" in set (p := pow2 e) in *; clearbody p
  | |- context [inject_Z ?z] =>
      lazymatch z with Z0 => fail | Zpos _ => fail | Zneg _ => fail | _ => idtac end;
      let p := fresh "z" in set (p := inject_Z z) in *; clearbody p
  | H : context [inject_Z ?z] |- _ =>
      lazymatch z with Z0 => fail | Zpos _ => fail | Zneg _ => fail | _ => idtac end;
      let p := fresh "z" in set (p := inject_Z z) in *; clearbody p
  end.
Ltac qlra := hide_atoms; unfold inject_Z in *; lra.
Ltac qnra := hide_atoms; unfold inject_Z in *; nra.

(** The binary exponent of a positive rational: the [e] with
    [2^e <= x < 2^(e+1)]. *)
Definition ilog2 (x : Q) : Z :=
  let e := Z.log2 (Qnum x) - Z.log2 (Zpos (Qden x)) in
  if Qle_bool (pow2 e) x then e else e - 1.

(** The nearest integer, a half going to the even neighbour. *)
Definition round_even (x : Q) : Z :=
  let f := Qfloor x in
  match (x - inject_Z f ?= 1 # 2)%Q with
  | Lt => f
  | Eq => if Z.even f then f else f + 1
  | Gt => f + 1
  end.

(** The double nearest to a positive rational: its significand, between
    [2^52] and [2^53], is rounded to an integer. *)
Definition nearest (x : Q) : Q :=
  let ulp := pow2 (ilog2 x - 52) in
  (inject_Z (round_even (x / ulp)) * ulp)%Q.

(** The double nearest to a rational. *)
Definition to_double (x : Q) : Q :=
  match Qnum x with
  | Z0 => 0%Q
  | Zpos _ => nearest x
  | Zneg _ => (- nearest (- x))%Q
  end.

Definition Q_of_N (n : N) : Q := inject_Z (Z.of_N n).

(** A size as a double: exact below [2^53]. *)
Definition Number_of_N (n : N) : Q := to_double (Q_of_N n).

(** [x / y] for a [y] other than 0, [x - y] and [x * y]. *)
Definition Number_div (x y : Q) : Q := to_double (x / y).
Definition Number_sub (x y : Q) : Q := to_double (x - y).
Definition Number_mul (x y : Q) : Q := to_double (x * y).

(** [Math.round]: the nearest integer, a half rounded up. *)
Definition Math_round (x : Q) : Z := Qfloor (x + (1 # 2)).

(** [(1 - part / total) * 100] *)
Definition saved_percent (part total : N) : Q :=
  Number_mul
    (Number_sub 1 (Number_div (Number_of_N part) (Number_of_N total)))
    100.

(** [total > 0 ? Math.round((1 - part / total) * 100) : 0] *)
Definition reduction (part total : N) : Z :=
  if (0 <? total)%N then Math_round (saved_percent part total) else 0.

(** The formula of the design document before it is rounded,
    [100 × (1 − artifactTotal / totalOriginal)], on exact rationals. *)
Definition exact_percent (artifactTotal totalOriginal : N) : Q :=
  (100 * (1 - Q_of_N artifactTotal / Q_of_N totalOriginal))%Q.

(** [z] is an integer nearest to [x]: [round x], whichever way a half is
    rounded. *)
Definition nearest_integer (z : Z) (x : Q) : Prop :=
  (x - (1 # 2) <= inject_Z z <= x + (1 # 2))%Q.

(** The same product by the Standard Library's specification of IEEE 754
    binary64 arithmetic (53 bits, exponents below 1024, with its
    subnormal numbers, infinities and NaN), for comparison at sample
    sizes. *)
Definition binary64_of_N (n : N) : spec_float :=
  binary_normalize 53 1024 (Z.of_N n) 0 false.

Definition binary64_percent (part total : N) : spec_float :=
  SFmul 53 1024
    (SFsub 53 1024 (binary64_of_N 1)
       (SFdiv 53 1024 (binary64_of_N part) (binary64_of_N total)))
    (binary64_of_N 100).

Definition Q_of_binary64 (f : spec_float) : Q :=
  match f with
  | S754_finite s m e =>
      ((if s then -1 else 1) * inject_Z (Zpos m) * pow2 e)%Q
  | _ => 0%Q
  end.

Definition same_as_binary64 (sizes : N * N) : bool :=
  Qeq_bool (Q_of_binary64 (binary64_percent sizes.1 sizes.2))
    (saved_percent sizes.1 sizes.2).

(** [results.reduce((acc, r) => acc + (field(r) || 0), 0)] *)
Definition sum_field (field : ConversionResult → option N)
    (results : list ConversionResult) : N :=
  fold_left (λ acc r, acc + default 0 (field r))%N results 0%N.

Definition printSummary (results : list ConversionResult) (duration : Z)
    : Summary :=
  let successCount := length (filter (λ r, success r = true) results) in
  let failCount := length (filter (λ r, success r = false) results) in
  let totalOriginalSize := sum_field originalSize results in
  let totalAvifSize := sum_field avif_size results in
  let totalFallbackSize := sum_field fallback_size results in
  let avifReduction := reduction totalAvifSize totalOriginalSize in
  let fallbackReduction := reduction totalFallbackSize totalOriginalSize in
  {| successCount := successCount;
     failCount := failCount;
     totalOriginalSize := totalOriginalSize;
     totalAvifSize := totalAvifSize;
     totalFallbackSize := totalFallbackSize;
     avifReduction := avifReduction;
     fallbackReduction := fallbackReduction;
     elapsed := duration;
     errorList :=
       (λ r, (inputPath r, error r)) <$> filter (λ r, success r = false) results
  |}.

(** ** [index.js]: the options and the configuration *)

(** A JavaScript number as [parseInt] returns it. *)
Inductive Number : Type :=
| NaN
| Num (z : Z).

(** [program.opts()]; an option that was not given is [None]. *)
Record Options := {
  opt_input : option string;
  opt_output : option string;
  opt_quality : option Number;
  opt_effort : option Number;
  opt_resize : option string;
  opt_pattern : option string;
  opt_yes : bool;
  opt_silent : bool
}.

(** [s || fallback] on an optional string. *)
Definition or_string (s : option string) (fallback : string) : string :=
  match s with
  | Some text => if decide (text = EmptyString) then fallback else text
  | None => fallback
  end.

(** [n || fallback] on an optional number: [undefined], [NaN] and [0] are
    falsy. *)
Definition or_number (n : option Number) (fallback : Z) : Z :=
  match n with
  | Some (Num z) => if decide (z = 0) then fallback else z
  | Some NaN => fallback
  | None => fallback
  end.

Definition truthy_string (s : option string) : bool :=
  match s with
  | Some text => bool_decide (text ≠ EmptyString)
  | None => false
  end.

Definition isInteractive (options : Options) : bool :=
  negb (truthy_string (opt_input options))
  && negb (truthy_string (opt_output options)).

(** The object literal assigned to [config]. *)
Definition config_of_options (options : Options) : Config :=
  {| cfg_input := or_string (opt_input options) "./input";
     cfg_output := or_string (opt_output options) "./output";
     cfg_quality := or_number (opt_quality options) 80;
     cfg_effort := or_number (opt_effort options) 4;
     cfg_pattern := or_string (opt_pattern options) "*.{png,jpg,jpeg,webp}";
     cfg_yes := opt_yes options || false;
     cfg_silent := opt_silent options || false;
     cfg_resize := opt_resize options |}.

(** [{ ...config, ...answers }] *)
Definition merge_answers (config : Config) (answers : Answers) : Config :=
  {| cfg_input := ans_input answers;
     cfg_output := ans_output answers;
     cfg_quality := ans_quality answers;
     cfg_effort := cfg_effort config;
     cfg_pattern := cfg_pattern config;
     cfg_yes := cfg_yes config;
     cfg_silent := cfg_silent config;
     cfg_resize := cfg_resize config |}.

(** ** [index.js]: the sliding window of [main] *)

(** What a job may resolve to: a result [convertImage] returns on some
    platform in some world.  Jobs interleave at every [await], so the world
    one job meets is whatever the others and the environment left. *)
Definition job_outcome (filePath inputRoot outputRoot : string)
    (config : Config) (r : ConversionResult) : Prop :=
  ∃ (W : Type) (P : Platform W) (w w' : W),
    convertImage filePath inputRoot outputRoot config w = (Returned r, w').

(** [l.indexOf(p)] *)
Fixpoint indexOf (p : nat) (l : list nat) : Z :=
  match l with
  | [] => -1
  | x :: l' =>
      if decide (x = p) then 0
      else let i := indexOf p l' in if i <? 0 then -1 else 1 + i
  end.

(** [l.splice(start, 1)]: a negative [start] counts from the end. *)
Definition splice1 (start : Z) (l : list nat) : list nat :=
  let len := Z.of_nat (length l) in
  let actual := if start <? 0 then Z.max (len + start) 0 else Z.min start len in
  delete (Z.to_nat actual) l.

(** Where [main] stands. *)
Inductive Control : Type :=
| AtLoop                          (* at the head of [for (const file of files)] *)
| AwaitRace (raced : list nat)    (* suspended in [await Promise.race(executing)] *)
| AwaitAll (awaited : list nat)   (* suspended in [await Promise.all(executing)] *)
| AfterAll.                       (* past the loop, about to print the summary *)

(** The variables of the loop.  A promise [p] is named by the number of
    promises created before it. *)
Record Sched := {
  remaining : list string;        (* files the loop has not reached *)
  executing : list nat;           (* the array [executing] *)
  results : list ConversionResult;(* the array [results] *)
  tasks : gmap nat string;        (* started jobs whose callback has not run *)
  fulfilled : gset nat;           (* promises [p] already fulfilled *)
  created : nat;                  (* promises created so far *)
  bar : option nat;               (* value of the progress bar, if any *)
  control : Control
}.

Definition sched_init (files : list string) (silent : bool) : Sched :=
  {| remaining := files; executing := []; results := [];
     tasks := ∅; fulfilled := ∅; created := 0;
     bar := if silent then None else Some 0%nat;
     control := AtLoop |}.

Section Scheduler.
Variables (inputRoot outputRoot : string) (config : Config).
Variable concurrency : nat.

(** One iteration of the loop body up to its [await]: the job for [file]
    is started, its promise pushed. *)
Definition start_job (s : Sched) (file : string) (rest : list string)
    : Sched :=
  let p := created s in
  let executing' := executing s ++ [p] in
  {| remaining := rest;
     executing := executing';
     results := results s;
     tasks := <[p := file]> (tasks s);
     fulfilled := fulfilled s;
     created := S p;
     bar := bar s;
     control :=
       if decide (concurrency ≤ length executing')%nat
       then AwaitRace executing' else AtLoop |}.

(** The job behind promise [p] resolved with [r]: the bar advances and the
    [then] callback pushes the result and splices [p] out. *)
Definition settle_job (s : Sched) (p : nat) (r : ConversionResult) : Sched :=
  {| remaining := remaining s;
     executing := splice1 (indexOf p (executing s)) (executing s);
     results := results s ++ [r];
     tasks := delete p (tasks s);
     fulfilled := {[p]} ∪ fulfilled s;
     created := created s;
     bar := S <$> bar s;
     control := control s |}.

Definition set_control (s : Sched) (c : Control) : Sched :=
  {| remaining := remaining s; executing := executing s;
     results := results s; tasks := tasks s; fulfilled := fulfilled s;
     created := created s; bar := bar s; control := c |}.

Inductive step : Sched → Sched → Prop :=
| step_start s file rest :
    control s = AtLoop →
    remaining s = file :: rest →
    step s (start_job s file rest)
| step_settle s p file r :
    tasks s !! p = Some file →
    job_outcome file inputRoot outputRoot config r →
    step s (settle_job s p r)
| step_race s raced p :
    control s = AwaitRace raced →
    p ∈ raced →
    p ∈ fulfilled s →
    step s (set_control s AtLoop)
| step_loop_end s :
    control s = AtLoop →
    remaining s = [] →
    step s (set_control s (AwaitAll (executing s)))
| step_all s awaited :
    control s = AwaitAll awaited →
    (∀ p, p ∈ awaited → p ∈ fulfilled s) →
    step s (set_control s AfterAll).

Definition reachable (files : list string) (silent : bool) (s : Sched)
    : Prop :=
  rtc step (sched_init files silent) s.

(** Jobs in flight: started, callback not yet run. *)
Definition in_flight (s : Sched) : nat := size (tasks s).

End Scheduler.

(** *** The invariant of the sliding window *)

(** The window: a limit of 0 behaves as a limit of 1, since the test
    [executing.length >= concurrency] runs after the push. *)
Definition window (concurrency : nat) : nat := Nat.max concurrency 1.

Definition control_inv (concurrency : nat) (s : Sched) : Prop :=
  match control s with
  | AtLoop => (length (executing s) < window concurrency)%nat
  | AwaitRace raced =>
      raced ≠ [] ∧ NoDup raced ∧ length raced = window concurrency
      ∧ (∀ p, p ∈ executing s → p ∈ raced)
      ∧ (∀ p, p ∈ raced → p ∈ fulfilled s ∨ p ∈ executing s)
  | AwaitAll awaited =>
      remaining s = []
      ∧ (∀ p, p ∈ executing s → p ∈ awaited)
      ∧ (∀ p, p ∈ awaited → p ∈ fulfilled s ∨ p ∈ executing s)
  | AfterAll => remaining s = [] ∧ executing s = []
  end.

Record sched_inv (concurrency : nat) (files : list string) (silent : bool)
    (s : Sched) : Prop := {
  inv_nodup : NoDup (executing s);
  inv_dom : ∀ p, p ∈ executing s ↔ is_Some (tasks s !! p);
  inv_fresh : ∀ p, p ∈ executing s → (p < created s)%nat;
  inv_fulfilled :
    ∀ p, p ∈ fulfilled s → (p ∉ executing s) ∧ (p < created s)%nat;
  inv_window : (length (executing s) ≤ window concurrency)%nat;
  inv_order : remaining s = drop (created s) files;
  inv_task_file : ∀ p f, tasks s !! p = Some f → files !! p = Some f;
  inv_jobs :
    (inputPath <$> results s) ++ (map_to_list (tasks s)).*2 ++ remaining s
    ≡ₚ files;
  inv_bar : bar s = if silent then None else Some (length (results s));
  inv_control : control_inv concurrency s
}.

(** A measure every step of the loop decreases. *)
Definition rank (c : Control) : nat :=
  match c with
  | AwaitRace _ => 3
  | AtLoop => 2
  | AwaitAll _ => 1
  | AfterAll => 0
  end.

Definition measure (s : Sched) : nat :=
  4 * length (remaining s) + 2 * size (tasks s) + rank (control s).

(** ** [index.js]: [main] around the loop *)

(** What [main] writes to the console, message by message. *)
Inductive Line : Type :=
| InteractiveBanner                       (* the banner of interactive mode *)
| InputFolderMissing (inputPath : string) (* the input folder was not found *)
| Searching (inputPath : string)          (* searching for images *)
| NoImagesFound                           (* no image file was found *)
| Detected (count : nat)                  (* [count] images detected *)
| Cancelled                               (* the user declined *)
| Resetting (outputPath : string)         (* resetting the output folder *)
| ResetFailed (text : string)             (* warning: the reset failed *)
| Converting                              (* converting *)
| SummaryLines (summary : Summary)        (* the lines of [printSummary] *)
| UnexpectedError (text : string).        (* printed by [main().catch] *)

(** The world of [main]: the platform's world and the console. *)
Definition World (W : Type) : Type := W * list Line.

Definition lift {W A} (m : io W A) : io (World W) A :=
  λ '(w, console), let '(o, w') := m w in (o, (w', console)).

Definition console_log {W} (line : Line) : io (World W) unit :=
  λ '(w, console), (Returned tt, (w, console ++ [line])).

Definition unless_silent {W} (config : Config) (line : Line)
    : io (World W) unit :=
  if cfg_silent config then io_ret tt else console_log line.

(** How a stretch of [main] ends: [process.exit(code)], or on to the next
    stretch with what it computed. *)
Inductive Flow (A : Type) : Type :=
| Exit (code : Z)
| Continue (a : A).
Arguments Exit {A} code.
Arguments Continue {A} a.

Section Main.
Context {W : Type} `{!Platform W}.

(** The configuration in force: from the options, then overridden by the
    answers of the prompt in interactive mode. *)
Definition main_config (options : Options) : io (World W) Config :=
  let config := config_of_options options in
  if isInteractive options then
    console_log InteractiveBanner;;
    answers <- lift inquirer_ask;;
    io_ret (merge_answers config answers)
  else io_ret config.

(** Resolving the roots, checking the input folder, finding the files. *)
Definition main_discover (config : Config)
    : io (World W) (Flow (string * string * list string)) :=
  cwd <- lift process_cwd;;
  let inputPath := NodePath.resolve cwd (cfg_input config) in
  cwd <- lift process_cwd;;
  let outputPath := NodePath.resolve cwd (cfg_output config) in
  found <- try_catch (lift (ensureDirectory inputPath false);; io_ret true)
             (λ _, console_log (InputFolderMissing inputPath);;
                   io_ret false);;
  if negb found then io_ret (Exit 1)
  else
    unless_silent config (Searching inputPath);;
    files <- lift (findImages inputPath (cfg_pattern config));;
    io_ret (Continue (inputPath, outputPath, files)).

(** The output folder is reset; a failure to clean it is a warning. *)
Definition main_reset_output (config : Config) (outputPath : string)
    : io (World W) unit :=
  unless_silent config (Resetting outputPath);;
  try_catch (lift (cleanDirectory outputPath))
    (λ e, if decide (code e ≠ Some "ENOENT")
          then console_log (ResetFailed (message e))
          else io_ret tt);;
  lift (ensureDirectory outputPath true).

(** From the file list to the start of the loop. *)
Definition main_prepare (interactive : bool) (config : Config)
    (outputPath : string) (files : list string)
    : io (World W) (Flow unit) :=
  if decide (length files = 0%nat) then
    console_log NoImagesFound;;
    io_ret (Exit 0)
  else
    unless_silent config (Detected (length files));;
    confirmed <- (if negb (cfg_yes config) && interactive
                  then lift (inquirer_confirm (length files))
                  else io_ret true);;
    if negb confirmed then
      console_log Cancelled;;
      io_ret (Exit 0)
    else
      main_reset_output config outputPath;;
      unless_silent config Converting;;
      io_ret (Continue tt).

(** Everything before the loop. *)
Definition main_before_loop (options : Options)
    : io (World W) (Flow (Config * string * string * list string * Z * nat)) :=
  config <- main_config options;;
  discovered <- main_discover config;;
  match discovered with
  | Exit c => io_ret (Exit c)
  | Continue (inputPath, outputPath, files) =>
      ready <- main_prepare (isInteractive options) config outputPath files;;
      match ready with
      | Exit c => io_ret (Exit c)
      | Continue _ =>
          startTime <- lift Date_now;;
          concurrency <- lift os_cpus;;
          io_ret (Continue (config, inputPath, outputPath, files,
                            startTime, concurrency))
      end
  end.

(** How the process ends: its exit status and what it printed. *)
Record Ending := { exit_status : Z; printed : list Line }.

(** A run of [main] from the world [w].  A rejection of [main] is caught
    by [main().catch], which prints it and exits with status 1.  The world
    the loop runs in is the jobs' business; the clock read after the loop
    is any later time. *)
Inductive main_run (options : Options) (w : W) : Ending → Prop :=
| run_exit c w' console :
    main_before_loop options (w, []) = (Returned (Exit c), (w', console)) →
    main_run options w {| exit_status := c; printed := console |}
| run_rejected e w' console :
    main_before_loop options (w, []) = (Thrown e, (w', console)) →
    main_run options w
      {| exit_status := 1;
         printed := console ++ [UnexpectedError (message e)] |}
| run_completed config inputPath outputPath files startTime concurrency
      w' console s endTime :
    main_before_loop options (w, []) =
      (Returned (Continue (config, inputPath, outputPath, files,
                           startTime, concurrency)), (w', console)) →
    reachable inputPath outputPath config concurrency files
      (cfg_silent config) s →
    control s = AfterAll →
    main_run options w
      {| exit_status := 0;
         printed := console ++
           [SummaryLines (printSummary (results s) (endTime - startTime))] |}.

End Main.

(** ** A small concrete platform

    An in-memory file system with just enough behaviour to run the program
    on: regular files with a size and an image format, directories, paths
    protected against removal, a clock and canned prompt answers.  It serves
    as the concrete instance on which the general statements are exercised. *)

Module Sim.

Record File := { size_of : N; format_of : string }.

Record world := {
  files : gmap string File;
  dirs : gset string;
  protected : gset string;    (* removing or creating these is refused *)
  codec : Encoder → N → N;    (* encoded size from encoder and source size *)
  clock : Z;
  cwd : string;
  cpus : nat;
  answers : Answers;
  confirm : bool
}.

Definition with_fs (w : world) (fs : gmap string File) (ds : gset string)
    : world :=
  {| files := fs; dirs := ds; protected := protected w; codec := codec w;
     clock := clock w; cwd := cwd w; cpus := cpus w; answers := answers w;
     confirm := confirm w |}.

Definition system_error (text c : string) : Error :=
  {| message := text; code := Some c |}.

(** [p] is [d] or lies below it. *)
Definition within (d p : string) : bool :=
  bool_decide (p = d) || String.prefix (d +:+ "/") p.

Definition access (p : string) : io world unit :=
  λ w, if bool_decide (p ∈ dirs w) || bool_decide (is_Some (files w !! p))
       then (Returned tt, w)
       else (Thrown (system_error ("ENOENT: no such file or directory, access "
                                   +:+ p) "ENOENT"), w).

Definition mkdir (p : string) : io world unit :=
  λ w, if bool_decide (p ∈ protected w)
       then (Thrown (system_error ("EACCES: permission denied, mkdir " +:+ p)
                       "EACCES"), w)
       else (Returned tt, with_fs w (files w) ({[p]} ∪ dirs w)).

Definition rm (p : string) : io world unit :=
  λ w, if bool_decide (Exists (λ q, within p q = true)
                         (elements (protected w)))
       then (Thrown (system_error ("EACCES: permission denied, rmdir " +:+ p)
                       "EACCES"), w)
       else (Returned tt,
             with_fs w (filter (λ kv, within p kv.1 = false) (files w))
                       (filter (λ q, within p q = false) (dirs w))).

Definition stat (p : string) : io world N :=
  λ w, match files w !! p with
       | Some f => (Returned (size_of f), w)
       | None => (Thrown (system_error ("ENOENT: no such file or directory, stat "
                                        +:+ p) "ENOENT"), w)
       end.

Definition image_extensions : list string :=
  [".png"; ".jpg"; ".jpeg"; ".webp"].

(** Discovery for the default pattern only: the image files below the
    directory the pattern starts with. *)
Definition find (pattern : string) : io world (list string) :=
  λ w, match NodePath.strip_suffix "/**/*.{png,jpg,jpeg,webp}" pattern with
       | Some d =>
           (Returned (filter (λ p, within d p = true
                                   ∧ NodePath.extname p ∈ image_extensions)
                        (map_to_list (files w)).*1), w)
       | None => (Returned [], w)
       end.

Definition metadata (p : string) : io world string :=
  λ w, match files w !! p with
       | Some f =>
           if decide (format_of f = EmptyString)
           then (Thrown (new_Error
                   "Input file contains unsupported image format"), w)
           else (Returned (format_of f), w)
       | None => (Thrown (new_Error ("Input file is missing: " +:+ p)), w)
       end.

Definition valid_encoder (enc : Encoder) : bool :=
  match enc with
  | EncAvif q e _ =>
      bool_decide (1 ≤ q ≤ 100) && bool_decide (0 ≤ e ≤ 9)
  | EncJpeg q _ | EncWebp q => bool_decide (1 ≤ q ≤ 100)
  | EncPng q _ _ => bool_decide (0 ≤ q ≤ 100)
  | EncSame => true
  end.

Definition output_format (enc : Encoder) (source : string) : string :=
  match enc with
  | EncAvif _ _ _ => "heif"
  | EncJpeg _ _ => "jpeg"
  | EncPng _ _ _ => "png"
  | EncWebp _ => "webp"
  | EncSame => source
  end.

Definition toFile (src : string) (enc : Encoder) (dest : string)
    : io world unit :=
  λ w, if negb (valid_encoder enc)
       then (Thrown (new_Error "Expected integer for quality"), w)
       else match files w !! src with
            | None => (Thrown (new_Error ("Input file is missing: " +:+ src)), w)
            | Some f =>
                if decide (format_of f = EmptyString)
                then (Thrown (new_Error
                        "Input file contains unsupported image format"), w)
                else if bool_decide (dest ∈ protected w)
                then (Thrown (system_error
                        ("EACCES: permission denied, open " +:+ dest)
                        "EACCES"), w)
                else if bool_decide (NodePath.dirname dest ∈ dirs w)
                then (Returned tt,
                      with_fs w
                        (<[dest := {| size_of := codec w enc (size_of f);
                                      format_of := output_format enc (format_of f) |}]>
                           (files w))
                        (dirs w))
                else (Thrown (new_Error ("unable to open for write: " +:+ dest)), w)
            end.

Definition now : io world Z :=
  λ w, (Returned (clock w),
        {| files := files w; dirs := dirs w; protected := protected w;
           codec := codec w; clock := clock w + 1; cwd := cwd w;
           cpus := cpus w; answers := answers w; confirm := confirm w |}).

(** A regular file exists at [p]. *)
Definition file_at (w : world) (p : string) : Prop := is_Some (files w !! p).

(** A world with nothing in it. *)
Definition blank : world :=
  {| files := ∅; dirs := ∅; protected := ∅; codec := λ _ n, n;
     clock := 0; cwd := "/"; cpus := 1;
     answers := {| ans_input := "./input"; ans_output := "./output";
                   ans_quality := 80 |};
     confirm := true |}.

#[global] Instance platform : Platform world := {|
  fs_access := access;
  fs_mkdir := mkdir;
  fs_rm := rm;
  fs_stat := stat;
  glob := find;
  sharp_metadata := metadata;
  sharp_toFile := toFile;
  Date_now := now;
  os_cpus := λ w, (Returned (cpus w), w);
  process_cwd := λ w, (Returned (cwd w), w);
  inquirer_ask := λ w, (Returned (answers w), w);
  inquirer_confirm := λ _ w, (Returned (confirm w), w)
|}.

End Sim.

(** ** Well-formed paths *)

Definition no_slash (s : string) : Prop :=
  ∀ c, c ∈ chars s → is_slash c = false.

(** A path segment as [path.resolve] and [glob] leave them. *)
Definition proper_segment (s : string) : Prop :=
  s ≠ EmptyString ∧ s ≠ "." ∧ s ≠ ".." ∧ no_slash s.

(** The absolute path with the given segments. *)
Definition absolute (segs : list string) : string := "/" +:+ join_slash segs.

(** ** Recording what is written

    Any platform can be run with a log beside its world, to which every
    [toFile] call appends where it was asked to write. *)

Record WriteCall := { write_source : string; write_encoder : Encoder;
                  write_dest : string }.

Definition keep_log {W A} (m : io W A) : io (W * list WriteCall) A :=
  λ '(w, log), let '(o, w') := m w in (o, (w', log)).

Definition log_write {W} (m : io W unit) (entry : WriteCall)
    : io (W * list WriteCall) unit :=
  λ '(w, log), let '(o, w') := m w in (o, (w', log ++ [entry])).

Definition recording {W} (P : Platform W) : Platform (W * list WriteCall) := {|
  fs_access p := keep_log (fs_access p);
  fs_mkdir p := keep_log (fs_mkdir p);
  fs_rm p := keep_log (fs_rm p);
  fs_stat p := keep_log (fs_stat p);
  glob pattern := keep_log (glob pattern);
  sharp_metadata p := keep_log (sharp_metadata p);
  sharp_toFile src enc dest :=
    log_write (sharp_toFile src enc dest)
      {| write_source := src; write_encoder := enc; write_dest := dest |};
  Date_now := keep_log Date_now;
  os_cpus := keep_log os_cpus;
  process_cwd := keep_log process_cwd;
  inquirer_ask := keep_log inquirer_ask;
  inquirer_confirm n := keep_log (inquirer_confirm n)
|}.

(** The same as checks. *)
Definition no_slashb (s : string) : bool :=
  forallb (λ c, negb (is_slash c)) (chars s).

Definition proper_segmentb (s : string) : bool :=
  negb (String.eqb s EmptyString) && negb (String.eqb s ".")
  && negb (String.eqb s "..") && no_slashb s.

Definition proper_path (segs : list string) : bool :=
  forallb proper_segmentb segs.

(** The paths of one job: the input file and its two artifacts. *)
Definition job_path (root dirs : list string) (name : string) : string :=
  absolute (root ++ dirs ++ [name]).

Definition primary_path (out dirs : list string) (stem : string) : string :=
  absolute (out ++ dirs ++ [stem +:+ ".avif"]).

Definition secondary_path (out dirs : list string) (name : string) : string :=
  absolute (out ++ dirs ++ [name]).

(** ** What a file system promises

    [file_at w p] says a regular file exists at [p] in world [w].  The
    three calls [main] makes to reset the output folder are assumed to
    behave as documented: a successful recursive [rm] leaves nothing below
    the directory, and [mkdir] and [access] neither create nor remove
    regular files. *)

(** [p] lies below the directory [d]. *)
Definition below (d p : string) : Prop := String.prefix (d +:+ "/") p = true.

Record fs_contract {W : Type} (P : Platform W) (file_at : W → string → Prop)
    : Prop := {
  rm_removes : ∀ d w w',
    fs_rm d w = (Returned tt, w') → ∀ p, below d p → ¬ file_at w' p;
  mkdir_keeps : ∀ d w o w',
    fs_mkdir d w = (o, w') → ∀ p, file_at w' p ↔ file_at w p;
  access_keeps : ∀ d w o w',
    fs_access d w = (o, w') → ∀ p, file_at w' p ↔ file_at w p
}.

(** The lines printed when the output folder is reset. *)
Definition resetting_lines (config : Config) (outputPath : string)
    : list Line :=
  if cfg_silent config then [] else [Resetting outputPath].

Definition is_summary (line : Line) : bool :=
  match line with
  | SummaryLines _ => true
  | _ => false
  end.

(** [m] only appends to the console, and never a summary. *)
Definition appends {W A} (m : io (World W) A) : Prop :=
  ∀ w c o w' c', m (w, c) = (o, (w', c')) →
    ∃ extra, c' = c ++ extra ∧ Forall (λ l, is_summary l = false) extra.

Create HintDb appends.

(** Inverts a chain of binds that returned, with the lemma for one bind. *)
Ltac invert_binds lemma H :=
  repeat (apply lemma in H as (? & ? & ? & H)).

(** Two configurations that differ at most in the [resize] field. *)
Definition same_but_resize (c1 c2 : Config) : Prop :=
  cfg_input c1 = cfg_input c2 ∧ cfg_output c1 = cfg_output c2
  ∧ cfg_quality c1 = cfg_quality c2 ∧ cfg_effort c1 = cfg_effort c2
  ∧ cfg_pattern c1 = cfg_pattern c2 ∧ cfg_yes c1 = cfg_yes c2
  ∧ cfg_silent c1 = cfg_silent c2.

(** ** Sample runs on the concrete platform *)

Module Demo.

Definition png (n : N) : Sim.File := {| Sim.size_of := n; Sim.format_of := "png" |}.
Definition jpeg (n : N) : Sim.File := {| Sim.size_of := n; Sim.format_of := "jpeg" |}.
Definition other (n : N) : Sim.File :=
  {| Sim.size_of := n; Sim.format_of := EmptyString |}.

Definition quarter_and_half (enc : Encoder) (n : N) : N :=
  match enc with
  | EncAvif _ _ _ => (n / 4)%N
  | _ => (n / 2)%N
  end.

Definition prompt : Answers :=
  {| ans_input := "./input"; ans_output := "./output"; ans_quality := 50 |}.

(** A home directory with one picture to convert and a file left in the
    output folder by an earlier run. *)
Definition home : Sim.world :=
  {| Sim.files := {[ "/home/u/input/a/b/c.png" := png 100000;
                     "/home/u/output/old.txt" := other 5 ]};
     Sim.dirs := {[ "/home/u/input"; "/home/u/input/a"; "/home/u/input/a/b";
                    "/home/u/output" ]};
     Sim.protected := ∅;
     Sim.codec := quarter_and_half;
     Sim.clock := 1000; Sim.cwd := "/home/u"; Sim.cpus := 2;
     Sim.answers := prompt; Sim.confirm := true |}.

(** The same, with the output folder protected against removal. *)
Definition home_locked : Sim.world :=
  {| Sim.files := Sim.files home; Sim.dirs := Sim.dirs home;
     Sim.protected := {[ "/home/u/output" ]};
     Sim.codec := quarter_and_half;
     Sim.clock := 1000; Sim.cwd := "/home/u"; Sim.cpus := 2;
     Sim.answers := prompt; Sim.confirm := true |}.

(** The same home with an empty input folder. *)
Definition home_empty : Sim.world :=
  {| Sim.files := {[ "/home/u/output/old.txt" := other 5 ]};
     Sim.dirs := {[ "/home/u/input"; "/home/u/output" ]};
     Sim.protected := ∅;
     Sim.codec := quarter_and_half;
     Sim.clock := 1000; Sim.cwd := "/home/u"; Sim.cpus := 2;
     Sim.answers := prompt; Sim.confirm := true |}.

(** [avif-converter -i ./input -o ./output -y] *)
Definition flags : Options :=
  {| opt_input := Some "./input"; opt_output := Some "./output";
     opt_quality := None; opt_effort := None; opt_resize := None;
     opt_pattern := Some "*.{png,jpg,jpeg,webp}";
     opt_yes := true; opt_silent := false |}.

(** [avif-converter -q 0 -e 0 -i ./input] *)
Definition zero_flags : Options :=
  {| opt_input := Some "./input"; opt_output := None;
     opt_quality := Some (Num 0); opt_effort := Some (Num 0);
     opt_resize := None;
     opt_pattern := Some "*.{png,jpg,jpeg,webp}";
     opt_yes := false; opt_silent := false |}.

Definition config : Config := config_of_options flags.

Definition config_resized : Config :=
  {| cfg_input := cfg_input config; cfg_output := cfg_output config;
     cfg_quality := cfg_quality config; cfg_effort := cfg_effort config;
     cfg_pattern := cfg_pattern config; cfg_yes := cfg_yes config;
     cfg_silent := cfg_silent config; cfg_resize := Some "50%" |}.

Definition picture : string := "/home/u/input/a/b/c.png".

(** A picture whose primary artifact came out larger than the original. *)
Definition grown : ConversionResult :=
  success_result "/in/x.png" "/out/x.avif" 1001 "/out/x.png" 500 "png" 1000 12.

Definition shrunk : ConversionResult :=
  success_result "/in/y.jpg" "/out/y.avif" 12500 "/out/y.jpg" 25000 "jpeg"
    50000 7.

Definition failed : ConversionResult :=
  failure_result "/in/z.gif" "Input file contains unsupported image format".

(** The scenario of the design document: [x.png] of 100000 bytes, [y.jpg]
    of 50000 bytes and an unreadable [z.gif]. *)
Definition inbox : Sim.world :=
  {| Sim.files := {[ "/in/x.png" := png 100000; "/in/y.jpg" := jpeg 50000;
                     "/in/z.gif" := other 4096 ]};
     Sim.dirs := {[ "/in"; "/out" ]};
     Sim.protected := ∅;
     Sim.codec := quarter_and_half;
     Sim.clock := 1000; Sim.cwd := "/"; Sim.cpus := 2;
     Sim.answers := prompt; Sim.confirm := true |}.

Definition result_x : ConversionResult :=
  success_result "/in/x.png" "/out/x.avif" 25000 "/out/x.png" 50000 "png"
    100000 1.

Definition result_y : ConversionResult :=
  success_result "/in/y.jpg" "/out/y.avif" 12500 "/out/y.jpg" 25000 "jpeg"
    50000 1.

Definition result_z : ConversionResult :=
  failure_result "/in/z.gif" "Input file contains unsupported image format".

(** The picture's fallback destination cannot be written. *)
Definition home_half : Sim.world :=
  {| Sim.files := Sim.files home; Sim.dirs := Sim.dirs home;
     Sim.protected := {[ "/home/u/output/a/b/c.png" ]};
     Sim.codec := quarter_and_half;
     Sim.clock := 1000; Sim.cwd := "/home/u"; Sim.cpus := 2;
     Sim.answers := prompt; Sim.confirm := true |}.

End Demo.

Module Samples.

Definition three : list string := ["/in/x.png"; "/in/y.jpg"; "/in/z.gif"].

(** The loop after its first two iterations with a limit of 2. *)
Definition two_started : Sched :=
  start_job 2
    (start_job 2 (sched_init three false) "/in/x.png"
       ["/in/y.jpg"; "/in/z.gif"])
    "/in/y.jpg" ["/in/z.gif"].

(** A whole run on the scenario with a limit of 2: [x] and [y] are
    started, [x] completes, [z] is started into the freed slot and completes
    before [y]. *)
Definition scenario_end : Sched :=
  let s2 := two_started in
  let s3 := settle_job s2 0 Demo.result_x in
  let s4 := set_control s3 AtLoop in
  let s5 := start_job 2 s4 "/in/z.gif" [] in
  let s6 := settle_job s5 2 Demo.result_z in
  let s7 := settle_job s6 1 Demo.result_y in
  let s8 := set_control s7 AtLoop in
  let s9 := set_control s8 (AwaitAll (executing s8)) in
  set_control s9 AfterAll.

Definition mixed : list ConversionResult :=
  [Demo.grown; Demo.shrunk; Demo.failed].

Definition mixed_reordered : list ConversionResult :=
  [Demo.failed; Demo.grown; Demo.shrunk].

Definition grown_summary : Summary := printSummary [Demo.grown] 12.

Definition nothing_summary (duration : Z) : Summary :=
  {| successCount := 0; failCount := 0;
     totalOriginalSize := 0; totalAvifSize := 0; totalFallbackSize := 0;
     avifReduction := 0; fallbackReduction := 0;
     elapsed := duration; errorList := [] |}.

(** How the run on the empty input folder ends. *)
Definition empty_ending : Ending :=
  {| exit_status := 0;
     printed := [Searching "/home/u/input"; NoImagesFound] |}.

Definition old_file : string := "/home/u/output/old.txt".

(** The sample home directory after the reset of its output folder, and
    what the reset printed. *)
Definition home_reset : Sim.world :=
  (main_reset_output Demo.config "/home/u/output" (Demo.home, [])).2.1.

Definition home_reset_console : list Line :=
  (main_reset_output Demo.config "/home/u/output" (Demo.home, [])).2.2.

End Samples.

(** ** Variations of a platform, of the options and of the loop's state *)


(** The options with another [--quality]. *)
Definition set_quality (quality : option Number) (options : Options) : Options :=
  {| opt_input := opt_input options; opt_output := opt_output options;
     opt_quality := quality; opt_effort := opt_effort options;
     opt_resize := opt_resize options; opt_pattern := opt_pattern options;
     opt_yes := opt_yes options; opt_silent := opt_silent options |}.

(** The options with another [--silent]. *)
Definition set_silent (silent : bool) (options : Options) : Options :=
  {| opt_input := opt_input options; opt_output := opt_output options;
     opt_quality := opt_quality options; opt_effort := opt_effort options;
     opt_resize := opt_resize options; opt_pattern := opt_pattern options;
     opt_yes := opt_yes options; opt_silent := silent |}.

(** The configuration with [silent] set. *)
Definition mute (config : Config) : Config :=
  {| cfg_input := cfg_input config; cfg_output := cfg_output config;
     cfg_quality := cfg_quality config; cfg_effort := cfg_effort config;
     cfg_pattern := cfg_pattern config; cfg_yes := cfg_yes config;
     cfg_silent := true; cfg_resize := cfg_resize config |}.

(** What [main] has in hand at the start of the loop. *)
Definition Ready : Type := Config * string * string * list string * Z * nat.

Definition mute_ready (o : outcome (Flow Ready)) : outcome (Flow Ready) :=
  match o with
  | Returned (Continue (config, inputPath, outputPath, files, startTime, N)) =>
      Returned (Continue (mute config, inputPath, outputPath, files,
                          startTime, N))
  | other => other
  end.

(** The loop's variables without a progress bar. *)
Definition hide_bar (s : Sched) : Sched :=
  {| remaining := remaining s; executing := executing s;
     results := results s; tasks := tasks s; fulfilled := fulfilled s;
     created := created s; bar := None; control := control s |}.

(** The loop's variables with a progress bar that counted the results. *)
Definition show_bar (s : Sched) : Sched :=
  {| remaining := remaining s; executing := executing s;
     results := results s; tasks := tasks s; fulfilled := fulfilled s;
     created := created s; bar := Some (length (results s));
     control := control s |}.

(** ** Kinds of console messages *)

(** The messages that report an error. *)
Definition is_error_line (line : Line) : bool :=
  match line with
  | InputFolderMissing _ | UnexpectedError _ => true
  | _ => false
  end.

Definition is_unexpected (line : Line) : bool :=
  match line with
  | UnexpectedError _ => true
  | _ => false
  end.

(** The messages guarded by [if (!config.silent)]. *)
Definition is_progress (line : Line) : bool :=
  match line with
  | Searching _ | Detected _ | Resetting _ | Converting => true
  | _ => false
  end.

(** What is left of a console without the progress messages. *)
Definition kept (console : list Line) : list Line :=
  filter (λ line, is_progress line = false) console.

(** ** Relations between computations of [main] *)

(** [m] never throws. *)
Definition always_returns {W A} (m : io W A) : Prop :=
  ∀ w, ∃ a w', m w = (Returned a, w').

(** The calls of [main] that no [try] block guards. *)
Record unguarded_calls_return {W} (P : Platform W) : Prop := {
  ask_returns : always_returns inquirer_ask;
  cwd_returns : always_returns process_cwd;
  glob_returns : ∀ pattern, always_returns (glob pattern);
  confirm_returns : ∀ count, always_returns (inquirer_confirm count);
  mkdir_returns : ∀ dirPath, always_returns (fs_mkdir dirPath);
  now_returns : always_returns Date_now;
  cpus_returns : always_returns os_cpus
}.

(** [m] only appends to the console, and only messages [kind] rejects. *)
Definition prints {W A} (kind : Line → bool) (m : io (World W) A) : Prop :=
  ∀ w c o w' c', m (w, c) = (o, (w', c')) →
    ∃ extra, c' = c ++ extra ∧ Forall (λ line, kind line = false) extra.

(** [quiet] does what [loud] does, short of the progress messages: from
    the same world and consoles that agree on the other messages, both
    return related values or throw the same error, and leave the same world
    and again such consoles. *)
Definition muted {W A B} (R : A → B → Prop)
    (loud : io (World W) A) (quiet : io (World W) B) : Prop :=
  ∀ w c1 c2, c2 = kept c1 →
    match loud (w, c1), quiet (w, c2) with
    | (Returned a, (w1, c1')), (Returned b, (w2, c2')) =>
        R a b ∧ w2 = w1 ∧ c2' = kept c1'
    | (Thrown e1, (w1, c1')), (Thrown e2, (w2, c2')) =>
        e2 = e1 ∧ w2 = w1 ∧ c2' = kept c1'
    | _, _ => False
    end.

(** A loud configuration and its silent twin. *)
Definition twin (loud quiet : Config) : Prop :=
  cfg_silent loud = false ∧ quiet = mute loud.

Definition twin_flow {A} (R : A → A → Prop) (loud quiet : Flow A) : Prop :=
  match loud, quiet with
  | Exit c1, Exit c2 => c1 = c2
  | Continue a1, Continue a2 => R a1 a2
  | _, _ => False
  end.

(** ** The calls and the results of the jobs *)



(** A result some job returned. *)
Definition job_result (r : ConversionResult) : Prop :=
  ∃ filePath inputRoot outputRoot config,
    job_outcome filePath inputRoot outputRoot config r.

(** ** More sample runs *)

Module Runs.

(** The scenario run with a limit of 1: each job completes before the next
    is started. *)
Definition one_by_one : Sched :=
  let s1 := start_job 1 (sched_init Samples.three true) "/in/x.png"
              ["/in/y.jpg"; "/in/z.gif"] in
  let s2 := set_control (settle_job s1 0 Demo.result_x) AtLoop in
  let s3 := start_job 1 s2 "/in/y.jpg" ["/in/z.gif"] in
  let s4 := set_control (settle_job s3 1 Demo.result_y) AtLoop in
  let s5 := start_job 1 s4 "/in/z.gif" [] in
  let s6 := set_control (settle_job s5 2 Demo.result_z) AtLoop in
  set_control (set_control s6 (AwaitAll (executing s6))) AfterAll.

(** The loop with a limit of 0 after its first iteration. *)
Definition one_started : Sched :=
  start_job 0 (sched_init Samples.three false) "/in/x.png"
    ["/in/y.jpg"; "/in/z.gif"].

(** [avif-converter] with no argument at all. *)
Definition no_flags : Options :=
  {| opt_input := None; opt_output := None;
     opt_quality := None; opt_effort := None; opt_resize := None;
     opt_pattern := Some "*.{png,jpg,jpeg,webp}";
     opt_yes := false; opt_silent := false |}.

(** The sample home directory with a user who declines. *)
Definition home_declining : Sim.world :=
  {| Sim.files := Sim.files Demo.home; Sim.dirs := Sim.dirs Demo.home;
     Sim.protected := ∅;
     Sim.codec := Demo.quarter_and_half;
     Sim.clock := 1000; Sim.cwd := "/home/u"; Sim.cpus := 2;
     Sim.answers := Demo.prompt; Sim.confirm := false |}.

(** A home directory without an input folder. *)
Definition home_bare : Sim.world :=
  {| Sim.files := ∅; Sim.dirs := {[ "/home/u" ]};
     Sim.protected := ∅;
     Sim.codec := Demo.quarter_and_half;
     Sim.clock := 1000; Sim.cwd := "/home/u"; Sim.cpus := 2;
     Sim.answers := Demo.prompt; Sim.confirm := true |}.

(** The sample home directory whose output folder is missing and may not
    be created. *)
Definition home_sealed : Sim.world :=
  {| Sim.files := {[ "/home/u/input/a/b/c.png" := Demo.png 100000 ]};
     Sim.dirs := {[ "/home/u/input"; "/home/u/input/a"; "/home/u/input/a/b" ]};
     Sim.protected := {[ "/home/u/output" ]};
     Sim.codec := Demo.quarter_and_half;
     Sim.clock := 1000; Sim.cwd := "/home/u"; Sim.cpus := 2;
     Sim.answers := Demo.prompt; Sim.confirm := true |}.

(** What the job for the one picture of the sample home directory returns. *)
Definition picture_result : ConversionResult :=
  success_result Demo.picture "/home/u/output/a/b/c.avif" 25000
    "/home/u/output/a/b/c.png" 50000 "png" 100000 1.

(** The loop on that picture. *)
Definition one_picture : Sched :=
  let s1 := start_job 2 (sched_init [Demo.picture] false) Demo.picture [] in
  let s2 := settle_job s1 0 picture_result in
  let s3 := set_control s2 (AwaitAll (executing s2)) in
  set_control s3 AfterAll.

(** How the run on the sample home directory ends, the clock read at 5000
    after the loop. *)
Definition home_ending : Ending :=
  {| exit_status := 0;
     printed := [Searching "/home/u/input"; Detected 1;
                 Resetting "/home/u/output"; Converting]
                ++ [SummaryLines (printSummary [picture_result] (5000 - 1000))] |}.

(** Two pictures of one folder that differ in the extension only. *)
Definition album : Sim.world :=
  {| Sim.files := {[ "/in/photo.png" := Demo.png 100000;
                     "/in/photo.jpg" := Demo.jpeg 50000 ]};
     Sim.dirs := {[ "/in"; "/out" ]};
     Sim.protected := ∅;
     Sim.codec := Demo.quarter_and_half;
     Sim.clock := 1000; Sim.cwd := "/"; Sim.cpus := 2;
     Sim.answers := Demo.prompt; Sim.confirm := true |}.

(** What their jobs return. *)
Definition photo_from_png : ConversionResult :=
  success_result "/in/photo.png" "/out/photo.avif" 25000 "/out/photo.png"
    50000 "png" 100000 1.

Definition photo_from_jpg : ConversionResult :=
  success_result "/in/photo.jpg" "/out/photo.avif" 12500 "/out/photo.jpg"
    25000 "jpeg" 50000 1.

(** The concrete platform with a [mkdir] that is never refused. *)
Definition lenient : Platform Sim.world := {|
  fs_access := Sim.access;
  fs_mkdir := λ p w,
    (Returned tt, Sim.with_fs w (Sim.files w) ({[p]} ∪ Sim.dirs w));
  fs_rm := Sim.rm;
  fs_stat := Sim.stat;
  glob := Sim.find;
  sharp_metadata := Sim.metadata;
  sharp_toFile := Sim.toFile;
  Date_now := Sim.now;
  os_cpus := λ w, (Returned (Sim.cpus w), w);
  process_cwd := λ w, (Returned (Sim.cwd w), w);
  inquirer_ask := λ w, (Returned (Sim.answers w), w);
  inquirer_confirm := λ _ w, (Returned (Sim.confirm w), w)
|}.

End Runs.

(** ** The order of [main] and the callbacks

    JavaScript runs [main] from one [await] to the next without
    interruption: the [then] callback of a job runs only while [main] is
    suspended in [Promise.race] or in [Promise.all].  [turn] is [step] with
    that order of events. *)

Definition suspended (s : Sched) : Prop :=
  match control s with
  | AwaitRace _ | AwaitAll _ => True
  | AtLoop | AfterAll => False
  end.

Section Turns.
Variables (inputRoot outputRoot : string) (config : Config).
Variable concurrency : nat.

Inductive turn : Sched → Sched → Prop :=
| turn_start s file rest :
    control s = AtLoop →
    remaining s = file :: rest →
    turn s (start_job concurrency s file rest)
| turn_settle s p file r :
    suspended s →
    tasks s !! p = Some file →
    job_outcome file inputRoot outputRoot config r →
    turn s (settle_job s p r)
| turn_race s raced p :
    control s = AwaitRace raced →
    p ∈ raced →
    p ∈ fulfilled s →
    turn s (set_control s AtLoop)
| turn_loop_end s :
    control s = AtLoop →
    remaining s = [] →
    turn s (set_control s (AwaitAll (executing s)))
| turn_all s awaited :
    control s = AwaitAll awaited →
    (∀ p, p ∈ awaited → p ∈ fulfilled s) →
    turn s (set_control s AfterAll).

Definition run (files : list string) (silent : bool) (s : Sched) : Prop :=
  rtc turn (sched_init files silent) s.

End Turns.

(** * Properties *)

(** ** Node paths at sample inputs *)

Example ex_join : NodePath.join "/out" "a/b/c.png" = "/out/a/b/c.png".
Proof. reflexivity. Qed.
Example ex_join_up : NodePath.join "/out" "../x/c.png" = "/x/c.png".
Proof. reflexivity. Qed.
Example ex_resolve : NodePath.resolve "/home/u" "./input" = "/home/u/input".
Proof. reflexivity. Qed.
Example ex_relative :
  NodePath.relative_resolved "/in" "/in/a/b/c.png" = "a/b/c.png".
Proof. reflexivity. Qed.
Example ex_relative_up :
  NodePath.relative_resolved "/in" "/input/x" = "../input/x".
Proof. reflexivity. Qed.
Example ex_relative_root :
  NodePath.relative_resolved "/" "/a/b" = "a/b".
Proof. reflexivity. Qed.
Example ex_dirname : NodePath.dirname "/out/a/b/c.png" = "/out/a/b".
Proof. reflexivity. Qed.
Example ex_dirname_root : NodePath.dirname "/c.png" = "/".
Proof. reflexivity. Qed.
Example ex_extname : NodePath.extname "/in/a/c.tar.png" = ".png".
Proof. reflexivity. Qed.
Example ex_extname_dotfile : NodePath.extname "/in/.png" = EmptyString.
Proof. reflexivity. Qed.
Example ex_basename :
  NodePath.basename "/in/a/c.tar.png" (Some ".png") = "c.tar".
Proof. reflexivity. Qed.


(** ** Strings *)

Lemma elem_of_rev {A} (x : A) l : x ∈ rev l ↔ x ∈ l.
Proof. rewrite !list_elem_of_In. symmetry. apply in_rev. Qed.

Lemma app_String c a b : String c a +:+ b = String c (a +:+ b).
Proof. reflexivity. Qed.

Lemma app_empty_l a : EmptyString +:+ a = a.
Proof. reflexivity. Qed.

Lemma app_empty_r a : a +:+ EmptyString = a.
Proof. induction a as [|c a IH]; [done|]. by rewrite app_String, IH. Qed.

Lemma app_assoc_string a b c : (a +:+ b) +:+ c = a +:+ (b +:+ c).
Proof. induction a as [|x a IH]; [done|]. by rewrite !app_String, IH. Qed.

Lemma chars_app a b : chars (a +:+ b) = chars a ++ chars b.
Proof.
  induction a as [|c a IH]; [done|].
  rewrite app_String. unfold chars in *. simpl. by rewrite IH.
Qed.

Lemma str_chars s : str (chars s) = s.
Proof. apply string_of_list_ascii_of_string. Qed.

Lemma chars_str l : chars (str l) = l.
Proof. apply list_ascii_of_string_of_list_ascii. Qed.

Lemma chars_nil s : chars s = [] → s = EmptyString.
Proof. by destruct s. Qed.

Lemma length_app_string a b :
  String.length (a +:+ b) = (String.length a + String.length b)%nat.
Proof. induction a as [|c a IH]; [done|]. rewrite app_String. simpl. lia. Qed.

Lemma app_empty_inv a b : a +:+ b = EmptyString → a = EmptyString ∧ b = EmptyString.
Proof. destruct a; [rewrite app_empty_l; by intros ->|done]. Qed.

Lemma app_inv_tail_string a b c : a +:+ c = b +:+ c → a = b.
Proof.
  intros H. apply (f_equal chars) in H. rewrite !chars_app in H.
  apply app_inv_tail in H. by rewrite <- (str_chars a), H, str_chars.
Qed.

Lemma is_slash_true c : is_slash c = true ↔ c = "/"%char.
Proof. unfold is_slash. apply Ascii.eqb_eq. Qed.

Lemma is_slash_false c : is_slash c = false ↔ c ≠ "/"%char.
Proof. unfold is_slash. apply Ascii.eqb_neq. Qed.

Lemma no_slash_empty : no_slash EmptyString.
Proof. intros c Hc. by apply elem_of_nil in Hc. Qed.

Lemma no_slash_String c s :
  no_slash (String c s) ↔ is_slash c = false ∧ no_slash s.
Proof.
  unfold no_slash, chars. simpl. split.
  - intros H. split; [apply H; left|]. intros x Hx. apply H. by right.
  - intros [Hc Hs] x [->|Hx]%elem_of_cons; auto.
Qed.

Lemma no_slash_app a b : no_slash (a +:+ b) ↔ no_slash a ∧ no_slash b.
Proof.
  unfold no_slash. rewrite chars_app. split.
  - intros H. split; intros c Hc; apply H, elem_of_app; auto.
  - intros [Ha Hb] c [?|?]%elem_of_app; auto.
Qed.

(** ** [split] and [join] *)

Lemma split_slash_nonempty s : split_slash s ≠ [].
Proof.
  induction s as [|c s IH]; simpl; [done|].
  destruct (is_slash c); [done|]. by destruct (split_slash s).
Qed.

Lemma split_slash_app a b :
  split_slash (a +:+ String "/" b) = split_slash a ++ split_slash b.
Proof.
  induction a as [|c a IH]; [done|].
  rewrite app_String. simpl. rewrite IH.
  destruct (is_slash c); [done|].
  pose proof (split_slash_nonempty a). by destruct (split_slash a).
Qed.

Lemma split_slash_no_slash s : no_slash s → split_slash s = [s].
Proof.
  induction s as [|c s IH]; [done|].
  intros [Hc Hs]%no_slash_String. simpl. by rewrite Hc, (IH Hs).
Qed.

Lemma join_slash_cons x y l :
  join_slash (x :: y :: l) = x +:+ String "/" (join_slash (y :: l)).
Proof. reflexivity. Qed.

Lemma join_slash_snoc l x :
  l ≠ [] → join_slash (l ++ [x]) = join_slash l +:+ String "/" x.
Proof.
  induction l as [|y l IH]; [done|]. intros _.
  destruct l as [|z l]; [done|].
  change ((y :: z :: l) ++ [x]) with (y :: (z :: l) ++ [x]).
  simpl app. rewrite !join_slash_cons. simpl app in IH. rewrite IH by done.
  by rewrite app_assoc_string.
Qed.

Lemma split_join segs :
  segs ≠ [] → Forall no_slash segs → split_slash (join_slash segs) = segs.
Proof.
  induction segs as [|x segs IH]; [done|]. intros _ [Hx Hs]%Forall_cons.
  destruct segs as [|y segs]; [by apply split_slash_no_slash|].
  rewrite join_slash_cons, split_slash_app, split_slash_no_slash by done.
  by rewrite IH.
Qed.

Lemma join_slash_nonempty segs :
  segs ≠ [] → Forall (λ s, s ≠ EmptyString) segs →
  join_slash segs ≠ EmptyString.
Proof.
  destruct segs as [|x segs]; [done|]. intros _ [Hx _]%Forall_cons.
  destruct segs; [done|]. rewrite join_slash_cons. by destruct x.
Qed.

(** ** Normalisation of well-formed paths *)

Lemma normalize_step_proper b stack seg :
  proper_segment seg → NodePath.normalize_step b stack seg = stack ++ [seg].
Proof.
  intros (H1 & H2 & H3 & _). unfold NodePath.normalize_step.
  by rewrite !decide_False.
Qed.

Lemma normalize_step_empty b stack :
  NodePath.normalize_step b stack EmptyString = stack.
Proof. reflexivity. Qed.

Lemma normalize_fold_proper b segs stack :
  Forall proper_segment segs →
  fold_left (NodePath.normalize_step b) segs stack = stack ++ segs.
Proof.
  revert stack. induction segs as [|x segs IH]; intros stack Hs; simpl.
  - by rewrite app_nil_r.
  - apply Forall_cons in Hs as [Hx Hs].
    rewrite normalize_step_proper, IH by done. by rewrite <- app_assoc.
Qed.

Lemma proper_no_slash segs : Forall proper_segment segs → Forall no_slash segs.
Proof. intros H. eapply Forall_impl; [done|]. by intros s (_ & _ & _ & ?). Qed.

Lemma proper_nonempty segs :
  Forall proper_segment segs → Forall (λ s, s ≠ EmptyString) segs.
Proof. intros H. eapply Forall_impl; [done|]. by intros s (? & _). Qed.

(** The segments of [absolute a +:+ "/" +:+ join_slash b], empty ones
    included, normalise to [a ++ b]. *)
Lemma split_absolute segs :
  Forall proper_segment segs →
  ∃ l, split_slash (absolute segs) = l
       ∧ ∀ b stack, fold_left (NodePath.normalize_step b) l stack = stack ++ segs.
Proof.
  intros Hs. unfold absolute. eexists. split; [done|]. intros b stack.
  change ("/" +:+ join_slash segs) with (String "/" (join_slash segs)).
  simpl split_slash. simpl fold_left.
  destruct segs as [|x segs]; [simpl; by rewrite app_nil_r|].
  rewrite split_join by (done || by apply proper_no_slash).
  by apply normalize_fold_proper.
Qed.

Lemma normalizeString_join a b allow :
  Forall proper_segment a → Forall proper_segment b →
  NodePath.normalizeString (absolute a +:+ String "/" (join_slash b)) allow
  = join_slash (a ++ b).
Proof.
  intros Ha Hb. unfold NodePath.normalizeString. f_equal.
  rewrite split_slash_app, fold_left_app.
  destruct (split_absolute a Ha) as (l & -> & ->). simpl.
  destruct b as [|x b]; [simpl; by rewrite app_nil_r|].
  rewrite split_join by (done || by apply proper_no_slash).
  by apply normalize_fold_proper.
Qed.

Lemma isAbsolute_absolute segs : NodePath.isAbsolute (absolute segs) = true.
Proof. reflexivity. Qed.

Lemma ends_with_slash_app x name :
  name ≠ EmptyString → no_slash name →
  NodePath.ends_with_slash (x +:+ name) = false.
Proof.
  intros Hne Hns. unfold NodePath.ends_with_slash.
  rewrite chars_app, rev_app_distr.
  destruct (rev (chars name)) as [|c l] eqn:Hrev.
  - apply (f_equal (@rev _)) in Hrev. rewrite rev_involutive in Hrev.
    by apply chars_nil in Hrev.
  - simpl. apply Hns. rewrite <- (rev_involutive (chars name)), Hrev.
    apply elem_of_rev. left.
Qed.

Lemma join_slash_last l x :
  join_slash (l ++ [x]) = (if decide (l = []) then EmptyString
                           else join_slash l +:+ "/") +:+ x.
Proof.
  case_decide as Hl; [by subst|].
  rewrite join_slash_snoc by done. by rewrite app_assoc_string.
Qed.

Lemma resolve_absolute cwd segs :
  Forall proper_segment segs →
  NodePath.resolve cwd (absolute segs) = absolute segs.
Proof.
  intros Hs. unfold NodePath.resolve. rewrite isAbsolute_absolute.
  change (absolute segs +:+ "/") with (absolute segs +:+ String "/" (join_slash [])).
  rewrite normalizeString_join by done. by rewrite app_nil_r.
Qed.

Lemma join_absolute a b :
  Forall proper_segment a → Forall proper_segment b → b ≠ [] →
  NodePath.join (absolute a) (join_slash b) = absolute (a ++ b).
Proof.
  intros Ha Hb Hne. unfold NodePath.join.
  pose proof (join_slash_nonempty b Hne (proper_nonempty b Hb)) as Hjb.
  destruct (decide (absolute a = EmptyString)) as [?|_]; [done|].
  destruct (decide (join_slash b = EmptyString)) as [?|_]; [done|].
  unfold NodePath.normalize.
  change (absolute a +:+ "/" +:+ join_slash b)
    with (absolute a +:+ String "/" (join_slash b)).
  destruct (decide (_ = EmptyString)) as [[? _]%app_empty_inv|_]; [done|].
  assert (Habs : NodePath.isAbsolute (absolute a +:+ String "/" (join_slash b))
                 = true) by done.
  rewrite Habs. simpl negb.
  rewrite normalizeString_join by done.
  assert (Htrail : NodePath.ends_with_slash
                     (absolute a +:+ String "/" (join_slash b)) = false).
  { destruct (exists_last Hne) as (b0 & name & ->).
    apply Forall_app in Hb as [_ [(Hn & _ & _ & Hns) _]%Forall_cons].
    rewrite join_slash_last.
    change (String "/" ?s) with ("/" +:+ s). rewrite <- !app_assoc_string.
    by apply ends_with_slash_app. }
  rewrite Htrail.
  destruct (decide (join_slash (a ++ b) = EmptyString)) as [Hj|_]; [|done].
  exfalso. revert Hj. apply join_slash_nonempty.
  - by destruct a, b.
  - apply proper_nonempty, Forall_app. by split.
Qed.

(** ** The scans of [dirname], [basename] and [extname] *)

Lemma drop_while_all {A} (p : A → bool) l k :
  (∀ x, x ∈ l → p x = true) → drop_while p (l ++ k) = drop_while p k.
Proof.
  induction l as [|x l IH]; intros H; simpl; [done|].
  rewrite (H x) by left. apply IH. intros y Hy. apply H. by right.
Qed.

Lemma take_while_all {A} (p : A → bool) l y k :
  (∀ x, x ∈ l → p x = true) → p y = false → take_while p (l ++ y :: k) = l.
Proof.
  induction l as [|x l IH]; intros H Hy; simpl; [by rewrite Hy|].
  rewrite (H x) by left. f_equal. apply IH; [|done].
  intros z Hz. apply H. by right.
Qed.

Lemma take_while_all_nil {A} (p : A → bool) l :
  (∀ x, x ∈ l → p x = true) → take_while p l = l.
Proof.
  induction l as [|x l IH]; intros H; simpl; [done|].
  rewrite (H x) by left. f_equal. apply IH. intros z Hz. apply H. by right.
Qed.

Lemma drop_while_head {A} (p : A → bool) x l :
  p x = false → drop_while p (x :: l) = x :: l.
Proof. simpl. by intros ->. Qed.

(** The reversed characters of a non-empty name without a slash: nothing
    for the trailing-slash scan to skip, everything for the component scan
    to take. *)
Lemma rev_name_scan name k :
  name ≠ EmptyString → no_slash name →
  drop_while is_slash (rev (chars name) ++ k) = rev (chars name) ++ k
  ∧ (∀ x, x ∈ rev (chars name) → negb (is_slash x) = true).
Proof.
  intros Hne Hns. split.
  - destruct (rev (chars name)) as [|c l] eqn:Hrev.
    + apply (f_equal (@rev _)) in Hrev. rewrite rev_involutive in Hrev.
      by apply chars_nil in Hrev.
    + simpl. rewrite (Hns c); [done|].
      rewrite <- (rev_involutive (chars name)), Hrev. apply elem_of_rev. left.
  - intros x Hx. rewrite elem_of_rev in Hx. by rewrite (Hns x Hx).
Qed.

Lemma last_component_app x name :
  name ≠ EmptyString → no_slash name →
  NodePath.last_component (x +:+ String "/" name) = name.
Proof.
  intros Hne Hns. unfold NodePath.last_component.
  change (String "/" name) with ("/" +:+ name).
  rewrite !chars_app, !rev_app_distr, <- app_assoc.
  destruct (rev_name_scan name (rev (chars "/") ++ rev (chars x)) Hne Hns)
    as [-> Hall].
  change (rev (chars "/")) with ["/"%char]. simpl app.
  rewrite take_while_all by done. by rewrite rev_involutive, str_chars.
Qed.

Lemma last_component_name name :
  name ≠ EmptyString → no_slash name → NodePath.last_component name = name.
Proof.
  intros Hne Hns. unfold NodePath.last_component.
  destruct (rev_name_scan name [] Hne Hns) as [Hd Hall].
  rewrite app_nil_r in Hd. rewrite Hd, take_while_all_nil by done.
  by rewrite rev_involutive, str_chars.
Qed.

Lemma absolute_snoc segs name :
  absolute (segs ++ [name])
  = (if decide (segs = []) then EmptyString else absolute segs)
    +:+ String "/" name.
Proof.
  unfold absolute. case_decide as Hs; [by subst|].
  rewrite join_slash_snoc by done.
  change ("/" +:+ ?s) with (String "/" s). by rewrite app_String.
Qed.

Lemma last_component_absolute segs name :
  name ≠ EmptyString → no_slash name →
  NodePath.last_component (absolute (segs ++ [name])) = name.
Proof. intros. rewrite absolute_snoc. by apply last_component_app. Qed.

Lemma dirname_absolute segs name :
  Forall proper_segment segs → name ≠ EmptyString → no_slash name →
  NodePath.dirname (absolute (segs ++ [name])) = absolute segs.
Proof.
  intros Hs Hne Hns. unfold absolute at 1.
  change ("/" +:+ ?s) with (String "/" s). unfold NodePath.dirname.
  rewrite join_slash_last.
  destruct (decide (segs = [])) as [->|Hsegs].
  - rewrite app_empty_l.
    destruct (rev_name_scan name [] Hne Hns) as [Hd Hall].
    rewrite app_nil_r in *. rewrite Hd.
    rewrite <- (app_nil_r (rev (chars name))), drop_while_all by done.
    done.
  - rewrite !chars_app, !rev_app_distr.
    change (rev (chars "/")) with ["/"%char].
    destruct (rev_name_scan name (["/"%char] ++ rev (chars (join_slash segs)))
                Hne Hns) as [-> Hall].
    rewrite drop_while_all by done. simpl.
    destruct (rev (chars (join_slash segs))) as [|c l] eqn:Hrev.
    + apply (f_equal (@rev _)) in Hrev. rewrite rev_involutive in Hrev.
      apply chars_nil in Hrev.
      by apply join_slash_nonempty in Hrev; [|done|apply proper_nonempty].
    + rewrite bool_decide_eq_false_2 by done. simpl andb. cbv iota.
      by rewrite <- Hrev, rev_involutive, str_chars.
Qed.

(** ** Extension and stem *)

Lemma split_last_dot_app s pre ext :
  NodePath.split_last_dot s = Some (pre, ext) →
  s = pre +:+ ext ∧ ∃ rest, ext = String "." rest.
Proof.
  revert pre ext. induction s as [|c s IH]; intros pre ext; simpl; [done|].
  destruct (NodePath.split_last_dot s) as [[pre' ext']|].
  - intros [= <- <-]. destruct (IH pre' ext' eq_refl) as [-> Hrest].
    by rewrite app_String.
  - destruct (is_dot c) eqn:Hc; [|done]. intros [= <- <-].
    split; [done|]. exists s. f_equal.
    unfold is_dot in Hc. by apply Ascii.eqb_eq in Hc.
Qed.

Lemma strip_suffix_app suffix pre :
  NodePath.strip_suffix suffix (pre +:+ suffix) = Some pre.
Proof.
  induction pre as [|c pre IH].
  - rewrite app_empty_l. destruct suffix; [done|].
    unfold NodePath.strip_suffix. by rewrite decide_True.
  - rewrite app_String. simpl. rewrite decide_False.
    + by rewrite IH.
    + intros H. apply (f_equal String.length) in H.
      simpl in H. rewrite length_app_string in H. lia.
Qed.

(** What [convertImage] takes for the file name: the component without
    the extension [extname] finds, and then the two put together give the
    component back. *)
Lemma fileName_extname segs name :
  name ≠ EmptyString → no_slash name →
  let filePath := absolute (segs ++ [name]) in
  NodePath.extname filePath = NodePath.extname name
  ∧ fileName_of filePath +:+ NodePath.extname filePath = name
  ∧ NodePath.basename filePath None = name.
Proof.
  intros Hne Hns filePath.
  assert (Hcomp : NodePath.last_component filePath = name)
    by by apply last_component_absolute.
  assert (Hext : NodePath.extname filePath = NodePath.extname name).
  { unfold NodePath.extname. by rewrite Hcomp, last_component_name. }
  split_and!; [done| |done].
  unfold fileName_of. rewrite Hext. unfold NodePath.extname.
  rewrite last_component_name by done.
  unfold NodePath.basename.
  destruct (NodePath.split_last_dot name) as [[pre ext]|] eqn:Hsplit;
    [|rewrite decide_True by done; by rewrite Hcomp, app_empty_r].
  destruct (decide (pre = EmptyString));
    [rewrite decide_True by done; by rewrite Hcomp, app_empty_r|].
  destruct (decide (name = ".."));
    [rewrite decide_True by done; by rewrite Hcomp, app_empty_r|].
  apply split_last_dot_app in Hsplit as [Hname [rest ->]].
  rewrite decide_False by done.
  assert (Hlen : (String.length (String "." rest) ≤ String.length filePath)%nat).
  { unfold filePath. rewrite absolute_snoc, Hname, !length_app_string. simpl.
    rewrite length_app_string. simpl. lia. }
  rewrite decide_False by lia.
  rewrite decide_False by done.
  rewrite Hcomp, Hname, strip_suffix_app.
  by destruct pre.
Qed.

(** ** Relative paths *)

Lemma resolved_segments_absolute segs :
  Forall proper_segment segs →
  NodePath.resolved_segments (absolute segs) = segs.
Proof.
  intros Hs. unfold absolute. change ("/" +:+ ?s) with (String "/" s). simpl.
  destruct segs as [|x segs]; [done|].
  pose proof (join_slash_nonempty (x :: segs) ltac:(done) (proper_nonempty _ Hs)).
  destruct (join_slash (x :: segs)) eqn:Hj; [done|].
  rewrite <- Hj. apply split_join; [done|by apply proper_no_slash].
Qed.

Lemma absolute_inj a b :
  Forall proper_segment a → Forall proper_segment b →
  absolute a = absolute b → a = b.
Proof.
  intros Ha Hb H. apply (f_equal NodePath.resolved_segments) in H.
  by rewrite !resolved_segments_absolute in H.
Qed.

Lemma strip_common_prefix root rest :
  (rest = [] ∨ ∃ x rest', rest = x :: rest') →
  NodePath.strip_common root (root ++ rest) = ([], rest).
Proof.
  intros _. induction root as [|x root IH]; simpl.
  - by destruct rest.
  - by rewrite decide_True.
Qed.

Lemma relative_resolved_below root rest :
  Forall proper_segment root → Forall proper_segment rest → rest ≠ [] →
  NodePath.relative_resolved (absolute root) (absolute (root ++ rest))
  = join_slash rest.
Proof.
  intros Hroot Hrest Hne. unfold NodePath.relative_resolved.
  assert (Hall : Forall proper_segment (root ++ rest)) by by apply Forall_app.
  rewrite decide_False.
  - rewrite !resolved_segments_absolute by done.
    rewrite strip_common_prefix; [done|]. destruct rest; eauto.
  - intros H%absolute_inj; [|done..].
    apply (f_equal length) in H. rewrite length_app in H.
    destruct rest; [done|]. simpl in H. lia.
Qed.

Section PathsOfAJob.
Context {W : Type} `{!Platform W}.

Lemma path_relative_below root rest (w : W) :
  Forall proper_segment root → Forall proper_segment rest → rest ≠ [] →
  path_relative (absolute root) (absolute (root ++ rest)) w
  = (Returned (join_slash rest), w).
Proof.
  intros Hroot Hrest Hne.
  assert (Hall : Forall proper_segment (root ++ rest)) by by apply Forall_app.
  unfold path_relative. rewrite decide_False.
  - unfold path_resolve1. rewrite !isAbsolute_absolute.
    unfold io_bind, io_ret. rewrite !resolve_absolute by done.
    by rewrite relative_resolved_below.
  - intros H%absolute_inj; [|done..].
    apply (f_equal length) in H. rewrite length_app in H.
    destruct rest; [done|]. simpl in H. lia.
Qed.

End PathsOfAJob.

(** The stem with the target extension is again a well-formed segment. *)
Lemma proper_avif_name stem ext :
  no_slash (stem +:+ ext) → proper_segment (stem +:+ ".avif").
Proof.
  intros [Hstem _]%no_slash_app. split_and!.
  - by intros [_ ?]%app_empty_inv.
  - intros H%(f_equal String.length). rewrite length_app_string in H.
    simpl in H. lia.
  - intros H%(f_equal String.length). rewrite length_app_string in H.
    simpl in H. lia.
  - apply no_slash_app. split; [done|].
    intros c Hc. unfold chars in Hc. simpl in Hc.
    repeat (apply elem_of_cons in Hc as [->|Hc]; [done|]).
    by apply elem_of_nil in Hc.
Qed.

(** The output paths [convertImage] computes for a file below the input
    root. *)
Lemma output_paths root out dirs name :
  Forall proper_segment out → Forall proper_segment dirs →
  proper_segment name →
  let filePath := absolute (root ++ dirs ++ [name]) in
  let outputDir := outputDir_of (absolute out) (join_slash (dirs ++ [name])) in
  let stem := fileName_of filePath in
  name = stem +:+ NodePath.extname name
  ∧ NodePath.join outputDir (stem +:+ ".avif")
    = absolute (out ++ dirs ++ [stem +:+ ".avif"])
  ∧ NodePath.join outputDir (NodePath.basename filePath None)
    = absolute (out ++ dirs ++ [name]).
Proof.
  intros Hout Hdirs Hname filePath outputDir stem.
  pose proof Hname as (Hne & _ & _ & Hns).
  assert (Hdir : outputDir = absolute (out ++ dirs)).
  { unfold outputDir, outputDir_of.
    rewrite join_absolute;
      [|done|apply Forall_app; split; [done|by apply Forall_singleton]
       |by destruct dirs].
    rewrite app_assoc. by apply dirname_absolute; [apply Forall_app|..]. }
  destruct (fileName_extname (root ++ dirs) name Hne Hns) as (Hext & Hstem & Hbase).
  rewrite <- app_assoc in Hext, Hstem, Hbase.
  fold filePath in Hext, Hstem, Hbase. fold stem in Hstem.
  rewrite Hext in Hstem.
  assert (Hall : Forall proper_segment (out ++ dirs)) by by apply Forall_app.
  split_and!.
  - done.
  - rewrite Hdir.
    change (stem +:+ ".avif") with (join_slash [stem +:+ ".avif"]) at 1.
    rewrite join_absolute, <- app_assoc; [done..| |done].
    apply Forall_singleton, (proper_avif_name _ (NodePath.extname name)).
    by rewrite Hstem.
  - rewrite Hdir, Hbase. change name with (join_slash [name]) at 1.
    rewrite join_absolute, <- app_assoc; [done..| |done].
    by apply Forall_singleton.
Qed.

(** ** Rounding and the reduction percentage *)

(** *** Powers of two *)

Lemma pow2_pos e : (0 < pow2 e)%Q.
Proof. by apply Qpower_0_lt. Qed.

Lemma pow2_add a b : (pow2 (a + b) == pow2 a * pow2 b)%Q.
Proof. by apply Qpower_plus. Qed.

Lemma pow2_le a b : a ≤ b → (pow2 a <= pow2 b)%Q.
Proof. intros H. by apply Qpower_le_compat_l. Qed.

Lemma pow2_lt a b : a < b → (pow2 a < pow2 b)%Q.
Proof. intros H. by apply Qpower_lt_compat_l. Qed.

Lemma pow2_Z e : 0 ≤ e → (pow2 e == inject_Z (2 ^ e))%Q.
Proof. intros H. unfold pow2. by rewrite Zpower_Qpower. Qed.

Lemma pow2_succ e : (pow2 (e + 1) == 2 * pow2 e)%Q.
Proof. rewrite pow2_add. change (pow2 1) with (2 # 1)%Q. lra. Qed.

(** *** The binary exponent *)

Lemma log2_bounds (n : Z) :
  0 < n → (pow2 (Z.log2 n) <= inject_Z n < pow2 (Z.log2 n + 1))%Q.
Proof.
  intros H. destruct (Z.log2_spec n H) as [Hlo Hhi].
  pose proof (Z.log2_nonneg n).
  rewrite !pow2_Z by lia. rewrite <- Zle_Qle, <- Zlt_Qlt.
  by rewrite Z.add_1_r.
Qed.

Lemma ilog2_spec (x : Q) :
  (0 < x)%Q → (pow2 (ilog2 x) <= x < pow2 (ilog2 x + 1))%Q.
Proof.
  intros Hx. unfold ilog2.
  set (n := Qnum x). set (d := Z.pos (Qden x)).
  set (e := Z.log2 n - Z.log2 d).
  assert (Hn : 0 < n) by (unfold Qlt in Hx; simpl in Hx; lia).
  destruct (log2_bounds n Hn) as [Hn1 Hn2].
  destruct (log2_bounds d eq_refl) as [Hd1 Hd2].
  assert (Hdpos : (0 < inject_Z d)%Q)
    by (change 0%Q with (inject_Z 0); by rewrite <- Zlt_Qlt).
  assert (Hmul : (x * inject_Z d == inject_Z n)%Q).
  { transitivity (inject_Z n / inject_Z d * inject_Z d)%Q; [|field; lra].
    apply Qmult_comp; [|done]. destruct x. apply Qmake_Qdiv. }
  assert (He1 : (pow2 (e + 1) * pow2 (Z.log2 d) == pow2 (Z.log2 n + 1))%Q).
  { rewrite <- pow2_add.
    by replace (e + 1 + Z.log2 d) with (Z.log2 n + 1) by (unfold e; lia). }
  assert (He0 : (pow2 (e - 1) * pow2 (Z.log2 d + 1) == pow2 (Z.log2 n))%Q).
  { rewrite <- pow2_add.
    by replace (e - 1 + (Z.log2 d + 1)) with (Z.log2 n) by (unfold e; lia). }
  pose proof (pow2_pos (e + 1)). pose proof (pow2_pos (e - 1)).
  pose proof (pow2_pos (Z.log2 d)).
  assert (Hup : (x < pow2 (e + 1))%Q) by (apply Qnot_le_lt; intros Hc; qnra).
  assert (Hlow : (pow2 (e - 1) <= x)%Q) by (apply Qnot_lt_le; intros Hc; qnra).
  destruct (Qle_bool (pow2 e) x) eqn:Hb.
  - apply Qle_bool_iff in Hb. by split.
  - split; [done|]. replace (e - 1 + 1) with e by lia.
    apply Qnot_le_lt. intros Hc. apply Qle_bool_iff in Hc. congruence.
Qed.

Lemma ilog2_unique (x : Q) e :
  (pow2 e <= x < pow2 (e + 1))%Q → ilog2 x = e.
Proof.
  intros [H1 H2].
  assert (Hx : (0 < x)%Q) by (pose proof (pow2_pos e); lra).
  destruct (ilog2_spec x Hx) as [H3 H4].
  destruct (Z.lt_trichotomy (ilog2 x) e) as [Hlt|[?|Hlt]]; [|done|].
  - pose proof (pow2_le (ilog2 x + 1) e ltac:(lia)). lra.
  - pose proof (pow2_le (e + 1) (ilog2 x) ltac:(lia)). lra.
Qed.

Lemma ilog2_comp (x y : Q) : (0 < x)%Q → (x == y)%Q → ilog2 x = ilog2 y.
Proof.
  intros Hx Hxy. symmetry. apply ilog2_unique.
  rewrite <- Hxy. by apply ilog2_spec.
Qed.

Lemma ilog2_mono (x y : Q) : (0 < x)%Q → (x <= y)%Q → ilog2 x ≤ ilog2 y.
Proof.
  intros Hx Hxy.
  destruct (ilog2_spec x Hx) as [H1 H2].
  destruct (ilog2_spec y ltac:(lra)) as [H3 H4].
  destruct (Z.le_gt_cases (ilog2 x) (ilog2 y)) as [|Hlt]; [done|].
  pose proof (pow2_le (ilog2 y + 1) (ilog2 x) ltac:(lia)). lra.
Qed.

(** *** Rounding to an integer, ties to even *)

Lemma round_even_cases (x : Q) :
  (round_even x = Qfloor x ∧ (x - inject_Z (Qfloor x) <= 1 # 2)%Q)
  ∨ (round_even x = Qfloor x + 1 ∧ (1 # 2 <= x - inject_Z (Qfloor x))%Q).
Proof.
  unfold round_even.
  destruct (Qcompare_spec (x - inject_Z (Qfloor x)) (1 # 2)) as [H|H|H].
  - destruct (Z.even (Qfloor x)); [left|right]; (split; [done|lra]).
  - left. split; [done|lra].
  - right. split; [done|lra].
Qed.

Lemma floor_bounds (x : Q) :
  (inject_Z (Qfloor x) <= x < inject_Z (Qfloor x) + 1)%Q.
Proof.
  split; [apply Qfloor_le|].
  pose proof (Qlt_floor x) as H. by rewrite inject_Z_plus in H.
Qed.

Lemma round_even_error (x : Q) :
  (x - (1 # 2) <= inject_Z (round_even x) <= x + (1 # 2))%Q.
Proof.
  pose proof (floor_bounds x).
  destruct (round_even_cases x) as [[-> ?]|[-> ?]];
    rewrite ?inject_Z_plus; qlra.
Qed.

Lemma round_even_comp (x y : Q) : (x == y)%Q → round_even x = round_even y.
Proof.
  intros H. unfold round_even.
  rewrite (Qfloor_comp _ _ H).
  assert (E : (x - inject_Z (Qfloor y) ?= 1 # 2)%Q
              = (y - inject_Z (Qfloor y) ?= 1 # 2)%Q); [|by rewrite E].
  apply Qcompare_comp; [by rewrite H|done].
Qed.

Lemma round_even_mono (x y : Q) :
  (x <= y)%Q → round_even x ≤ round_even y.
Proof.
  intros H. pose proof (Qfloor_resp_le _ _ H) as Hf.
  destruct (Z.eq_dec (Qfloor x) (Qfloor y)) as [E|E].
  - unfold round_even. rewrite E.
    destruct (Qcompare_spec (x - inject_Z (Qfloor y)) (1 # 2));
      destruct (Qcompare_spec (y - inject_Z (Qfloor y)) (1 # 2));
      try destruct (Z.even (Qfloor y)); try lia; qlra.
  - destruct (round_even_cases x) as [[-> _]|[-> _]];
      destruct (round_even_cases y) as [[-> _]|[-> _]]; lia.
Qed.

Lemma round_even_Z (n : Z) : round_even (inject_Z n) = n.
Proof.
  unfold round_even. rewrite Qfloor_Z.
  destruct (Qcompare_spec (inject_Z n - inject_Z n) (1 # 2)); [qlra|done|qlra].
Qed.

(** *** The nearest double of a positive rational *)

Section Nearest.
Variable x : Q.
Hypothesis Hx : (0 < x)%Q.

Lemma scaled_bounds :
  (inject_Z (2 ^ 52) <= x / pow2 (ilog2 x - 52) < inject_Z (2 ^ 53))%Q.
Proof.
  destruct (ilog2_spec x Hx) as [H1 H2].
  set (e := ilog2 x) in *. set (ulp := pow2 (e - 52)).
  pose proof (pow2_pos (e - 52)) as Hu. fold ulp in Hu.
  assert (E1 : (pow2 e == inject_Z (2 ^ 52) * ulp)%Q).
  { rewrite <- pow2_Z by lia. unfold ulp. rewrite <- pow2_add.
    by replace (52 + (e - 52)) with e by lia. }
  assert (E2 : (pow2 (e + 1) == inject_Z (2 ^ 53) * ulp)%Q).
  { rewrite <- pow2_Z by lia. unfold ulp. rewrite <- pow2_add.
    by replace (53 + (e - 52)) with (e + 1) by lia. }
  assert (E : (x == x / ulp * ulp)%Q) by (field; lra).
  clearbody ulp e.
  split.
  - apply Qnot_lt_le. intros Hc. qnra.
  - apply Qnot_le_lt. intros Hc. qnra.
Qed.

Lemma mantissa_bounds :
  2 ^ 52 ≤ round_even (x / pow2 (ilog2 x - 52)) ≤ 2 ^ 53.
Proof.
  destruct scaled_bounds as [H1 H2].
  split.
  - rewrite <- (round_even_Z (2 ^ 52)). by apply round_even_mono.
  - rewrite <- (round_even_Z (2 ^ 53)). apply round_even_mono. lra.
Qed.

Lemma nearest_bounds :
  (pow2 (ilog2 x) <= nearest x <= pow2 (ilog2 x + 1))%Q.
Proof.
  destruct mantissa_bounds as [H1 H2]. unfold nearest.
  set (e := ilog2 x) in *. set (ulp := pow2 (e - 52)) in *.
  pose proof (pow2_pos (e - 52)) as Hu. fold ulp in Hu.
  assert (E1 : (pow2 e == inject_Z (2 ^ 52) * ulp)%Q).
  { rewrite <- pow2_Z by lia. unfold ulp. rewrite <- pow2_add.
    by replace (52 + (e - 52)) with e by lia. }
  assert (E2 : (pow2 (e + 1) == inject_Z (2 ^ 53) * ulp)%Q).
  { rewrite <- pow2_Z by lia. unfold ulp. rewrite <- pow2_add.
    by replace (53 + (e - 52)) with (e + 1) by lia. }
  rewrite E1, E2.
  rewrite Zle_Qle in H1, H2. clearbody ulp e. split; qnra.
Qed.

Lemma nearest_pos : (0 < nearest x)%Q.
Proof.
  destruct nearest_bounds as [H _]. pose proof (pow2_pos (ilog2 x)). lra.
Qed.

(** The relative error of the rounding is at most [2^-53]. *)
Lemma nearest_error :
  (x - x * (1 # 9007199254740992) <= nearest x
   <= x + x * (1 # 9007199254740992))%Q.
Proof.
  destruct (ilog2_spec x Hx) as [H1 _]. unfold nearest.
  set (e := ilog2 x) in *. set (ulp := pow2 (e - 52)) in *.
  pose proof (round_even_error (x / ulp)) as [H3 H4].
  pose proof (pow2_pos (e - 52)) as Hu. fold ulp in Hu.
  assert (E1 : (pow2 e == inject_Z (2 ^ 52) * ulp)%Q).
  { rewrite <- pow2_Z by lia. unfold ulp. rewrite <- pow2_add.
    by replace (52 + (e - 52)) with e by lia. }
  assert (E : (x == x / ulp * ulp)%Q) by (field; lra).
  set (m := inject_Z (round_even (x / ulp))) in *.
  set (s := (x / ulp)%Q) in *.
  change (inject_Z (2 ^ 52)) with (4503599627370496 # 1)%Q in E1.
  clearbody m s ulp e. split; qnra.
Qed.

End Nearest.

Lemma nearest_comp (x y : Q) :
  (0 < x)%Q → (x == y)%Q → (nearest x == nearest y)%Q.
Proof.
  intros Hx Hxy. unfold nearest.
  rewrite <- (ilog2_comp x y Hx Hxy).
  assert (E : round_even (x / pow2 (ilog2 x - 52))
              = round_even (y / pow2 (ilog2 x - 52))); [|by rewrite E].
  apply round_even_comp. by apply Qmult_comp.
Qed.

Lemma nearest_mono (x y : Q) :
  (0 < x)%Q → (x <= y)%Q → (nearest x <= nearest y)%Q.
Proof.
  intros Hx Hxy.
  assert (Hy : (0 < y)%Q) by lra.
  pose proof (ilog2_mono x y Hx Hxy) as He.
  destruct (Z.eq_dec (ilog2 x) (ilog2 y)) as [E|E].
  - unfold nearest. rewrite <- E.
    pose proof (pow2_pos (ilog2 x - 52)) as Hu.
    assert (Hm : round_even (x / pow2 (ilog2 x - 52))
                 ≤ round_even (y / pow2 (ilog2 x - 52))).
    { apply round_even_mono. apply Qmult_le_compat_r; [done|].
      apply Qlt_le_weak, Qinv_lt_0_compat, Hu. }
    rewrite Zle_Qle in Hm. qnra.
  - destruct (nearest_bounds x Hx) as [_ H1].
    destruct (nearest_bounds y Hy) as [H2 _].
    pose proof (pow2_le (ilog2 x + 1) (ilog2 y) ltac:(lia)). qlra.
Qed.

(** A significand of 53 bits is kept as it is. *)
Lemma nearest_fixed (m j : Z) :
  2 ^ 52 ≤ m < 2 ^ 53 →
  (nearest (inject_Z m * pow2 j) == inject_Z m * pow2 j)%Q.
Proof.
  intros [H1 H2]. pose proof (pow2_pos j) as Hj.
  rewrite Zle_Qle in H1. rewrite Zlt_Qlt in H2.
  assert (He : ilog2 (inject_Z m * pow2 j) = 52 + j).
  { apply ilog2_unique.
    replace (52 + j + 1) with (53 + j) by lia.
    rewrite !pow2_add, (pow2_Z 52), (pow2_Z 53) by lia. split; qnra. }
  unfold nearest. rewrite He. replace (52 + j - 52) with j by lia.
  assert (E : round_even (inject_Z m * pow2 j / pow2 j) = m); [|by rewrite E].
  rewrite <- (round_even_Z m) at 2. apply round_even_comp. field. lra.
Qed.

Lemma nearest_Z (n : Z) :
  0 < n < 2 ^ 53 → (nearest (inject_Z n) == inject_Z n)%Q.
Proof.
  intros [H1 H2].
  destruct (Z.log2_spec n H1) as [Hlo Hhi].
  pose proof (Z.log2_nonneg n) as H0.
  assert (Hl : Z.log2 n < 53) by (apply Z.log2_lt_pow2; lia).
  set (s := 52 - Z.log2 n).
  assert (Hm : 2 ^ 52 ≤ n * 2 ^ s < 2 ^ 53).
  { replace (2 ^ 52) with (2 ^ Z.log2 n * 2 ^ s)
      by (rewrite <- Z.pow_add_r by lia; f_equal; lia).
    replace (2 ^ 53) with (2 ^ Z.succ (Z.log2 n) * 2 ^ s)
      by (rewrite <- Z.pow_add_r by lia; f_equal; lia).
    assert (0 < 2 ^ s) by (apply Z.pow_pos_nonneg; lia). nia. }
  assert (E : (inject_Z n == inject_Z (n * 2 ^ s) * pow2 (- s))%Q).
  { rewrite inject_Z_mult, <- pow2_Z by lia.
    rewrite <- Qmult_assoc, <- pow2_add. replace (s + - s) with 0 by lia.
    change (pow2 0) with 1%Q. ring. }
  assert (Hn : (0 < inject_Z n)%Q).
  { change 0%Q with (inject_Z 0). by rewrite <- Zlt_Qlt. }
  rewrite (nearest_comp _ _ Hn E), nearest_fixed by done. by rewrite <- E.
Qed.

(** *** The nearest double of any rational *)

Lemma to_double_pos (x : Q) : (0 < x)%Q → to_double x = nearest x.
Proof.
  intros H. unfold to_double. destruct x as [[|p|p] d]; [|done|];
    by unfold Qlt in H.
Qed.

Lemma to_double_neg (x : Q) : (x < 0)%Q → to_double x = (- nearest (- x))%Q.
Proof.
  intros H. unfold to_double. destruct x as [[|p|p] d]; [|by unfold Qlt in H|done].
  by unfold Qlt in H.
Qed.

Lemma to_double_zero (x : Q) : (x == 0)%Q → to_double x = 0%Q.
Proof.
  intros H. unfold to_double. destruct x as [[|p|p] d]; [done|..];
    unfold Qeq in H; simpl in H; lia.
Qed.

Lemma to_double_comp (x y : Q) : (x == y)%Q → (to_double x == to_double y)%Q.
Proof.
  intros H. destruct (Q_dec x 0) as [[Hlt|Hgt]|Hz].
  - rewrite !to_double_neg by lra.
    apply Qopp_comp, nearest_comp; [lra|by rewrite H].
  - rewrite !to_double_pos by lra. by apply nearest_comp.
  - rewrite !to_double_zero; [done|lra|done].
Qed.

Lemma to_double_mono (x y : Q) :
  (x <= y)%Q → (to_double x <= to_double y)%Q.
Proof.
  intros H.
  destruct (Q_dec x 0) as [[Hx|Hx]|Hx], (Q_dec y 0) as [[Hy|Hy]|Hy];
    try lra.
  - rewrite !to_double_neg by done.
    pose proof (nearest_mono (- y) (- x) ltac:(lra) ltac:(lra)). lra.
  - rewrite to_double_neg, to_double_pos by done.
    pose proof (nearest_pos (- x) ltac:(lra)).
    pose proof (nearest_pos y Hy). lra.
  - rewrite to_double_neg, to_double_zero by done.
    pose proof (nearest_pos (- x) ltac:(lra)). lra.
  - rewrite !to_double_pos by done. by apply nearest_mono.
  - rewrite to_double_zero, to_double_pos by done.
    pose proof (nearest_pos y Hy). lra.
  - rewrite !to_double_zero by done. lra.
Qed.

Lemma to_double_Z (n : Z) :
  0 ≤ n < 2 ^ 53 → (to_double (inject_Z n) == inject_Z n)%Q.
Proof.
  intros [H1 H2]. destruct (Z.eq_dec n 0) as [->|Hn]; [done|].
  rewrite to_double_pos.
  - apply nearest_Z. lia.
  - change 0%Q with (inject_Z 0). rewrite <- Zlt_Qlt. lia.
Qed.

(** The relative error of a rounding is at most [2^-53]. *)
Lemma to_double_error_nonneg (x : Q) :
  (0 <= x)%Q →
  (x - x * (1 # 9007199254740992) <= to_double x <= x + x * (1 # 9007199254740992))%Q.
Proof.
  intros H. destruct (Q_dec x 0) as [[Hx|Hx]|Hx]; [lra| |].
  - rewrite to_double_pos by done. by apply nearest_error.
  - rewrite to_double_zero by done. rewrite Hx. lra.
Qed.

Lemma to_double_error_nonpos (x : Q) :
  (x <= 0)%Q →
  (x + x * (1 # 9007199254740992) <= to_double x <= x - x * (1 # 9007199254740992))%Q.
Proof.
  intros H. destruct (Q_dec x 0) as [[Hx|Hx]|Hx]; [|lra|].
  - rewrite to_double_neg by done.
    pose proof (nearest_error (- x) ltac:(lra)). lra.
  - rewrite to_double_zero by done. rewrite Hx. lra.
Qed.

(** *** The percentage of the summary *)

Lemma Math_round_mono (x y : Q) : (x <= y)%Q → Math_round x ≤ Math_round y.
Proof. intros H. apply Qfloor_resp_le. lra. Qed.

Lemma Math_round_comp (x y : Q) : (x == y)%Q → Math_round x = Math_round y.
Proof. intros H. apply Qfloor_comp. by rewrite H. Qed.

Lemma Q_of_N_nonneg (n : N) : (0 <= Q_of_N n)%Q.
Proof.
  unfold Q_of_N. change 0%Q with (inject_Z 0). rewrite <- Zle_Qle. lia.
Qed.

Lemma Q_of_N_le (m n : N) : (m ≤ n)%N → (Q_of_N m <= Q_of_N n)%Q.
Proof. intros H. unfold Q_of_N. rewrite <- Zle_Qle. lia. Qed.

Lemma Number_of_N_mono (m n : N) :
  (m ≤ n)%N → (Number_of_N m <= Number_of_N n)%Q.
Proof. intros H. by apply to_double_mono, Q_of_N_le. Qed.

Lemma Number_of_N_pos (n : N) : (0 < n)%N → (1 <= Number_of_N n)%Q.
Proof.
  intros H. assert (E : (Number_of_N 1 == 1)%Q) by reflexivity.
  rewrite <- E. apply Number_of_N_mono. lia.
Qed.

Lemma Number_of_N_nonneg (n : N) : (0 <= Number_of_N n)%Q.
Proof. change 0%Q with (Number_of_N 0). apply Number_of_N_mono. lia. Qed.

Lemma Number_of_N_exact (n : N) :
  (n < 2 ^ 53)%N → (Number_of_N n == Q_of_N n)%Q.
Proof.
  intros H. apply to_double_Z. split; [lia|].
  change (2 ^ 53) with (Z.of_N (2 ^ 53)). lia.
Qed.

Lemma Number_div_mono (x x' y : Q) :
  (0 < y)%Q → (x <= x')%Q → (Number_div x y <= Number_div x' y)%Q.
Proof.
  intros Hy H. apply to_double_mono, Qmult_le_compat_r; [done|].
  by apply Qlt_le_weak, Qinv_lt_0_compat.
Qed.

Lemma to_double_one : (to_double 1 == 1)%Q.
Proof. reflexivity. Qed.

Lemma to_double_hundred : (to_double 100 == 100)%Q.
Proof. reflexivity. Qed.

Lemma to_double_nonneg (x : Q) : (0 <= x)%Q → (0 <= to_double x)%Q.
Proof. intros H. change 0%Q with (to_double 0). by apply to_double_mono. Qed.

Lemma to_double_nonpos (x : Q) : (x <= 0)%Q → (to_double x <= 0)%Q.
Proof. intros H. change 0%Q with (to_double 0). by apply to_double_mono. Qed.

Lemma to_double_le_one (x : Q) : (x <= 1)%Q → (to_double x <= 1)%Q.
Proof. intros H. rewrite <- to_double_one. by apply to_double_mono. Qed.

Lemma to_double_ge_one (x : Q) : (1 <= x)%Q → (1 <= to_double x)%Q.
Proof. intros H. rewrite <- to_double_one. by apply to_double_mono. Qed.

Lemma saved_percent_mono (part part' total : N) :
  (0 < total)%N → (part ≤ part')%N →
  (saved_percent part' total <= saved_percent part total)%Q.
Proof.
  intros Ht H. unfold saved_percent, Number_mul, Number_sub.
  pose proof (Number_of_N_pos total Ht) as Hpos.
  pose proof (Number_div_mono _ _ (Number_of_N total) ltac:(lra)
                (Number_of_N_mono _ _ H)) as Hq.
  apply to_double_mono.
  apply Qmult_le_compat_r; [|lra].
  apply to_double_mono. lra.
Qed.

Lemma quotient_nonneg (part total : N) :
  (0 <= Number_div (Number_of_N part) (Number_of_N total))%Q.
Proof.
  apply to_double_nonneg.
  pose proof (Number_of_N_nonneg part). pose proof (Number_of_N_nonneg total).
  destruct (Q_dec (Number_of_N total) 0) as [[Hlt|Hgt]|Hz]; [lra| |].
  - apply Qle_shift_div_l; [done|lra].
  - unfold Qdiv. rewrite Hz. change (/ 0)%Q with 0%Q. lra.
Qed.

Lemma saved_percent_le_100 (part total : N) :
  (saved_percent part total <= 100)%Q.
Proof.
  unfold saved_percent, Number_mul, Number_sub.
  pose proof (quotient_nonneg part total) as Hq.
  rewrite <- to_double_hundred at 2. apply to_double_mono.
  set (q := Number_div _ _) in *.
  pose proof (to_double_le_one (1 - q) ltac:(lra)). lra.
Qed.

Lemma saved_percent_nonneg (part total : N) :
  (0 < total)%N → (part ≤ total)%N → (0 <= saved_percent part total)%Q.
Proof.
  intros Ht H. unfold saved_percent, Number_mul, Number_sub.
  pose proof (Number_of_N_pos total Ht) as Hpos.
  pose proof (Number_of_N_mono _ _ H) as Hle.
  assert (Hq : (Number_div (Number_of_N part) (Number_of_N total) <= 1)%Q).
  { apply to_double_le_one, Qle_shift_div_r; lra. }
  set (q := Number_div _ _) in *.
  pose proof (to_double_nonneg (1 - q) ltac:(lra)).
  apply to_double_nonneg. lra.
Qed.

Lemma saved_percent_nonpos (part total : N) :
  (0 < total)%N → (total ≤ part)%N → (saved_percent part total <= 0)%Q.
Proof.
  intros Ht H. unfold saved_percent, Number_mul, Number_sub.
  pose proof (Number_of_N_pos total Ht) as Hpos.
  pose proof (Number_of_N_mono _ _ H) as Hle.
  assert (Hq : (1 <= Number_div (Number_of_N part) (Number_of_N total))%Q).
  { apply to_double_ge_one, Qle_shift_div_l; lra. }
  set (q := Number_div _ _) in *.
  pose proof (to_double_nonpos (1 - q) ltac:(lra)).
  apply to_double_nonpos. lra.
Qed.

Lemma saved_percent_nothing (total : N) :
  (0 < total)%N → (saved_percent 0 total == 100)%Q.
Proof.
  intros Ht. unfold saved_percent, Number_mul, Number_sub, Number_div.
  change (Number_of_N 0) with 0%Q.
  assert (E : (to_double (1 - to_double (0 / Number_of_N total)) == 1)%Q).
  { transitivity (to_double 1); [|apply to_double_one].
    apply to_double_comp.
    rewrite (to_double_zero (0 / Number_of_N total)); [lra|].
    unfold Qdiv. lra. }
  transitivity (to_double 100); [|apply to_double_hundred].
  apply to_double_comp. rewrite E. lra.
Qed.

Lemma saved_percent_everything (total : N) :
  (0 < total)%N → (saved_percent total total == 0)%Q.
Proof.
  intros Ht. unfold saved_percent, Number_mul, Number_sub, Number_div.
  pose proof (Number_of_N_pos total Ht) as Hpos.
  assert (E1 : (to_double (Number_of_N total / Number_of_N total) == 1)%Q).
  { transitivity (to_double 1); [|apply to_double_one].
    apply to_double_comp. field. lra. }
  assert (E2 : (to_double (1 - to_double (Number_of_N total / Number_of_N total))
                == 0)%Q).
  { transitivity (to_double 0); [|reflexivity].
    apply to_double_comp. rewrite E1. lra. }
  transitivity (to_double 0); [|reflexivity].
  apply to_double_comp. rewrite E2. lra.
Qed.

(** Three roundings, each with a relative error of at most [2^-53], keep
    the result within [301 * 2^-53] of the exact value, times
    [part / total] when that is more than 1: for totals of up to [2^43] bytes
    that is less than the distance [1 / (2 * total)] between the exact value
    and a half-way point. *)
Lemma saved_percent_error (part total : N) :
  (0 < total ≤ 2 ^ 43)%N → (part ≤ 2 ^ 43)%N →
  let x := exact_percent part total in
  let y := saved_percent part total in
  (inject_Z (2 * Z.of_N total) * (y - x) < 1
   ∧ inject_Z (2 * Z.of_N total) * (x - y) < 1)%Q.
Proof.
  intros [Ht Htb] Hp x y.
  assert (E2 : (inject_Z (2 * Z.of_N total) == 2 * Q_of_N total)%Q)
    by (by rewrite inject_Z_mult).
  rewrite !E2. clear E2.
  assert (HT : (1 <= Q_of_N total <= 8796093022208)%Q).
  { unfold Q_of_N. change 1%Q with (inject_Z 1).
    change 8796093022208%Q with (inject_Z (Z.of_N (2 ^ 43))).
    rewrite <- !Zle_Qle. lia. }
  assert (HA : (0 <= Q_of_N part <= 8796093022208)%Q).
  { unfold Q_of_N. change 0%Q with (inject_Z 0).
    change 8796093022208%Q with (inject_Z (Z.of_N (2 ^ 43))).
    rewrite <- !Zle_Qle. lia. }
  set (rho := (Q_of_N part / Q_of_N total)%Q).
  assert (Hrho : (0 <= rho)%Q).
  { unfold rho. apply Qle_shift_div_l; lra. }
  assert (Hmul : (rho * Q_of_N total == Q_of_N part)%Q).
  { unfold rho. field. lra. }
  set (q := Number_div (Number_of_N part) (Number_of_N total)).
  assert (Eq : (q == to_double rho)%Q).
  { unfold q, Number_div. apply to_double_comp.
    rewrite !Number_of_N_exact; [done|..];
      (eapply N.le_lt_trans; [eassumption|done]). }
  pose proof (to_double_error_nonneg rho Hrho) as Hq. rewrite <- Eq in Hq.
  assert (Hle : (rho <= 1 → q <= 1)%Q).
  { intros H. rewrite Eq. by apply to_double_le_one. }
  assert (Hge : (1 <= rho → 1 <= q)%Q).
  { intros H. rewrite Eq. by apply to_double_ge_one. }
  set (d := Number_sub 1 q).
  assert (Ey : y = to_double (d * 100)) by reflexivity.
  assert (Ex : (x == 100 * (1 - rho))%Q) by reflexivity.
  clearbody x y. subst y.
  destruct (Qlt_le_dec 1 rho) as [Hr|Hr].
  - specialize (Hge ltac:(lra)).
    pose proof (to_double_error_nonpos (1 - q) ltac:(lra)) as Hd.
    fold (Number_sub 1 q) in Hd. fold d in Hd.
    pose proof (to_double_error_nonpos (d * 100) ltac:(lra)) as Hy.
    set (y := to_double (d * 100)) in *.
    assert (Hb : (y - x <= (301 # 9007199254740992) * rho
                  ∧ x - y <= (301 # 9007199254740992) * rho)%Q)
      by (clearbody y d q rho; split; lra).
    set (T := Q_of_N total) in *. set (A := Q_of_N part) in *.
    clearbody y d q rho T A. destruct Hb. split; nra.
  - specialize (Hle Hr).
    pose proof (to_double_error_nonneg (1 - q) ltac:(lra)) as Hd.
    fold (Number_sub 1 q) in Hd. fold d in Hd.
    pose proof (to_double_error_nonneg (d * 100) ltac:(lra)) as Hy.
    set (y := to_double (d * 100)) in *.
    assert (Hb : (y - x <= 301 # 9007199254740992
                  ∧ x - y <= 301 # 9007199254740992)%Q)
      by (clearbody y d q rho; split; lra).
    set (T := Q_of_N total) in *. set (A := Q_of_N part) in *.
    clearbody y d q rho T A. destruct Hb. split; nra.
Qed.

Lemma nearest_from_error (r M t : Z) (y x : Q) :
  0 < t →
  (x + (1 # 2) == inject_Z M / inject_Z (2 * t))%Q →
  (inject_Z (2 * t) * (y - x) < 1)%Q →
  (inject_Z (2 * t) * (x - y) < 1)%Q →
  r = Math_round y → nearest_integer r x.
Proof.
  intros Ht Hx H1 H2 ->. unfold nearest_integer, Math_round.
  destruct (floor_bounds (y + (1 # 2))) as [Hlo Hhi].
  set (r := Qfloor (y + (1 # 2))) in *.
  assert (Hd : (0 < inject_Z (2 * t))%Q).
  { change 0%Q with (inject_Z 0). rewrite <- Zlt_Qlt. lia. }
  assert (HM : ((x + (1 # 2)) * inject_Z (2 * t) == inject_Z M)%Q).
  { rewrite Hx. field. lra. }
  assert (Hup : r * (2 * t) ≤ M).
  { apply Z.lt_succ_r. unfold Z.succ. rewrite Zlt_Qlt, inject_Z_plus, inject_Z_mult.
    clearbody r. qnra. }
  assert (Hdown : M ≤ (r + 1) * (2 * t)).
  { apply Z.lt_pred_le. unfold Z.pred. rewrite Zlt_Qlt, inject_Z_plus, inject_Z_mult, inject_Z_plus.
    clearbody r. qnra. }
  rewrite Zle_Qle, inject_Z_mult in Hup.
  rewrite Zle_Qle, inject_Z_mult, inject_Z_plus in Hdown.
  clearbody r. split.
  - apply Qnot_lt_le. intros Hc. qnra.
  - apply Qnot_lt_le. intros Hc. qnra.
Qed.

Lemma exact_percent_fraction (part total : N) :
  (0 < total)%N →
  (exact_percent part total + (1 # 2)
   == inject_Z (200 * (Z.of_N total - Z.of_N part) + Z.of_N total)
      / inject_Z (2 * Z.of_N total))%Q.
Proof.
  intros Ht. unfold exact_percent, Q_of_N.
  unfold Z.sub. rewrite inject_Z_plus, !inject_Z_mult, inject_Z_plus, inject_Z_opp.
  assert (0 < inject_Z (Z.of_N total))%Q.
  { change 0%Q with (inject_Z 0). rewrite <- Zlt_Qlt. lia. }
  change (inject_Z 200) with 200%Q. change (inject_Z 2) with 2%Q.
  field. lra.
Qed.

Lemma reduction_nearest (part total : N) :
  (0 < total ≤ 2 ^ 43)%N → (part ≤ 2 ^ 43)%N →
  nearest_integer (reduction part total) (exact_percent part total).
Proof.
  intros Ht Hp. destruct (saved_percent_error part total Ht Hp) as [H1 H2].
  eapply (nearest_from_error _ _ (Z.of_N total));
    [lia|by apply exact_percent_fraction; lia|done|done|].
  unfold reduction. destruct (N.ltb_spec 0 total); [done|lia].
Qed.

Lemma reduction_zero_total part : reduction part 0 = 0.
Proof. reflexivity. Qed.

Lemma reduction_round (part total : N) :
  (0 < total)%N → reduction part total = Math_round (saved_percent part total).
Proof. intros H. unfold reduction. by destruct (N.ltb_spec 0 total); [|lia]. Qed.

Lemma reduction_nonpos (part total : N) :
  (total < part)%N → reduction part total ≤ 0.
Proof.
  intros H. destruct (decide (total = 0%N)) as [->|Hz]; [done|].
  rewrite reduction_round by lia.
  change 0 with (Math_round 0). apply Math_round_mono.
  apply saved_percent_nonpos; lia.
Qed.

(** At sample sizes, from a few bytes to some 39 terabytes, [saved_percent]
    is the value that the binary64 operations of the Standard Library
    return. *)
Example saved_percent_is_binary64 :
  forallb same_as_binary64
    [(17, 40); (42500, 100000); (47, 40); (3, 8); (1, 200); (201, 200);
     (1001, 1000); (1006, 1000); (0, 5); (5, 5); (1, 3); (2, 3); (7, 3);
     (25000, 100000); (37500, 150000); (123456789, 987654321);
     (999999999999, 1000000000000); (4398046511105, 8796093022208);
     (7984353842674, 38948067525239);
     (1499358703716085, 2254674742430203)]%N
  = true.
Proof. vm_compute. reflexivity. Qed.

(** ** Counts and sums of the summary *)

Section SummaryFacts.
Implicit Types (rs : list ConversionResult) (field : ConversionResult → option N).

Lemma sum_field_from field rs (acc : N) :
  fold_left (λ a r, a + default 0 (field r))%N rs acc
  = (acc + sum_field field rs)%N.
Proof.
  unfold sum_field. revert acc.
  induction rs as [|r rs IH]; intros acc; simpl; [lia|].
  rewrite (IH (acc + _)%N), (IH (0 + _)%N). lia.
Qed.

Lemma sum_field_cons field r rs :
  sum_field field (r :: rs) = (default 0 (field r) + sum_field field rs)%N.
Proof. unfold sum_field at 1. simpl. apply sum_field_from. Qed.

Lemma sum_field_nil field : sum_field field [] = 0%N.
Proof. reflexivity. Qed.

Lemma sum_field_perm field rs rs' :
  rs ≡ₚ rs' → sum_field field rs = sum_field field rs'.
Proof.
  induction 1 as [|r l l' _ IH|r r' l|l l' l'' _ IH1 _ IH2].
  - done.
  - by rewrite !sum_field_cons, IH.
  - rewrite !sum_field_cons. lia.
  - congruence.
Qed.

Lemma count_success_perm (b : bool) rs rs' :
  rs ≡ₚ rs' →
  length (filter (λ r, success r = b) rs)
  = length (filter (λ r, success r = b) rs').
Proof. intros H. by rewrite H. Qed.

Lemma count_success_fail rs :
  (length (filter (λ r, success r = true) rs)
   + length (filter (λ r, success r = false) rs) = length rs)%nat.
Proof.
  induction rs as [|r rs IH]; [done|].
  rewrite !filter_cons. destruct (success r); simpl; lia.
Qed.

End SummaryFacts.

(** ** Binds, throws and catches *)

Section MonadFacts.
Context {W : Type}.

Lemma bind_returned {A B} (m : io W A) (k : A → io W B) w b w' :
  io_bind m k w = (Returned b, w') ↔
  ∃ a w1, m w = (Returned a, w1) ∧ k a w1 = (Returned b, w').
Proof.
  unfold io_bind. destruct (m w) as [[a|e] w1]; split.
  - eauto.
  - by intros (? & ? & [= <- <-] & ?).
  - done.
  - by intros (? & ? & ? & ?).
Qed.

Lemma bind_thrown {A B} (m : io W A) (k : A → io W B) w e w' :
  io_bind m k w = (Thrown e, w') ↔
  m w = (Thrown e, w')
  ∨ ∃ a w1, m w = (Returned a, w1) ∧ k a w1 = (Thrown e, w').
Proof.
  unfold io_bind. destruct (m w) as [[a|e0] w1]; split.
  - intros H. right. by exists a, w1.
  - intros [?|(? & ? & [= <- <-] & ?)]; done.
  - intros [= -> ->]. by left.
  - intros [[= -> ->]|(? & ? & ? & ?)]; done.
Qed.

Lemma try_catch_returned {A} (m : io W A) h w a w' :
  m w = (Returned a, w') → try_catch m h w = (Returned a, w').
Proof. unfold try_catch. by intros ->. Qed.


End MonadFacts.

(** ** The result of [convertImage] *)

Section ConverterFacts.
Context {W : Type} `{!Platform W}.
Implicit Types (filePath inputRoot outputRoot : string) (options : Config).

Lemma convertImage_try_success filePath inputRoot outputRoot options w r w' :
  convertImage_try filePath inputRoot outputRoot options w = (Returned r, w') →
  success r = true ∧ inputPath r = filePath ∧ error r = None
  ∧ is_Some (avif_path r) ∧ is_Some (avif_size r)
  ∧ is_Some (fallback_path r) ∧ is_Some (fallback_size r)
  ∧ is_Some (originalSize r).
Proof.
  unfold convertImage_try. intros H. invert_binds @bind_returned H.
  unfold io_ret in H. injection H as <- _. simpl. eauto 10.
Qed.

Lemma convertImage_cases filePath inputRoot outputRoot options w :
  (∃ r w', convertImage_try filePath inputRoot outputRoot options w
             = (Returned r, w')
           ∧ convertImage filePath inputRoot outputRoot options w
             = (Returned r, w'))
  ∨ (∃ e w', convertImage_try filePath inputRoot outputRoot options w
               = (Thrown e, w')
             ∧ convertImage filePath inputRoot outputRoot options w
               = (Returned (failure_result filePath (message e)), w')).
Proof.
  unfold convertImage, try_catch.
  destruct (convertImage_try _ _ _ _ w) as [[r|e] w']; [left|right]; eauto.
Qed.

Lemma convertImage_inputPath filePath inputRoot outputRoot options w r w' :
  convertImage filePath inputRoot outputRoot options w = (Returned r, w') →
  inputPath r = filePath.
Proof.
  destruct (convertImage_cases filePath inputRoot outputRoot options w)
    as [(r0 & w0 & Htry & ->)|(e & w0 & _ & ->)]; intros [= <- <-].
  - by apply convertImage_try_success in Htry as (_ & ? & _).
  - done.
Qed.

Lemma convertImage_total filePath inputRoot outputRoot options w :
  ∃ r w', convertImage filePath inputRoot outputRoot options w
          = (Returned r, w').
Proof.
  destruct (convertImage_cases filePath inputRoot outputRoot options w)
    as [(r & w' & _ & ->)|(e & w' & _ & ->)]; eauto.
Qed.

End ConverterFacts.

Lemma job_outcome_inputPath file inputRoot outputRoot config r :
  job_outcome file inputRoot outputRoot config r → inputPath r = file.
Proof.
  intros (W & P & w & w' & H). by eapply convertImage_inputPath.
Qed.

Lemma job_outcome_exists file inputRoot outputRoot config :
  ∃ r, job_outcome file inputRoot outputRoot config r.
Proof.
  destruct (convertImage_total (W := Sim.world) file inputRoot outputRoot config
              Sim.blank) as (r & w' & H).
  exists r. unfold job_outcome. eauto 10.
Qed.

(** ** The checks decide well-formedness *)

Lemma proper_segmentb_spec s : proper_segmentb s = true → proper_segment s.
Proof.
  unfold proper_segmentb, proper_segment.
  rewrite !andb_true_iff, !negb_true_iff, !String.eqb_neq.
  intros [[[? ?] ?] Hns]. split_and!; [done..|].
  unfold no_slashb in Hns. rewrite forallb_forall in Hns.
  intros c Hc%list_elem_of_In. specialize (Hns c Hc).
  by apply negb_true_iff in Hns.
Qed.

Lemma proper_path_spec segs : proper_path segs = true → Forall proper_segment segs.
Proof.
  unfold proper_path. rewrite forallb_forall, Forall_forall.
  intros H s Hs%list_elem_of_In. by apply proper_segmentb_spec, H.
Qed.

(** ** The log of a recorded run *)

Section Recorded.
Context {W : Type} (P : Platform W).

Lemma keep_log_log {A} (m : io W A) w log o w' log' :
  keep_log m (w, log) = (o, (w', log')) → log' = log.
Proof. unfold keep_log. destruct (m w). by intros [= _ _ <-]. Qed.

Lemma log_write_log (m : io W unit) entry w log o w' log' :
  log_write m entry (w, log) = (o, (w', log')) → log' = log ++ [entry].
Proof. unfold log_write. destruct (m w). by intros [= _ _ <-]. Qed.

Lemma ensureDirectory_log dirPath create w log o w' log' :
  @ensureDirectory _ (recording P) dirPath create (w, log) = (o, (w', log')) →
  log' = log.
Proof.
  unfold ensureDirectory, try_catch. simpl.
  destruct (fs_access dirPath w) as [[?|e] w1]; [by intros [= _ _ <-]|].
  destruct create.
  - apply keep_log_log.
  - unfold throw. by intros [= _ _ <-].
Qed.

End Recorded.

(** ** The paths and the writes of one job *)

Section Mirror.
Context {W : Type}.
Variables (root out dirs : list string) (name : string).
Hypothesis Hroot : proper_path root = true.
Hypothesis Hout : proper_path out = true.
Hypothesis Hdirs : proper_path dirs = true.
Hypothesis Hname : proper_segmentb name = true.

Lemma rest_proper : Forall proper_segment (dirs ++ [name]).
Proof.
  apply Forall_app. split; [by apply proper_path_spec|].
  by apply Forall_singleton, proper_segmentb_spec.
Qed.

Lemma mirror_try (P : Platform W) options w r w' :
  convertImage_try (job_path root dirs name) (absolute root) (absolute out) options w
    = (Returned r, w') →
  avif_path r
  = Some (primary_path out dirs (fileName_of (job_path root dirs name)))
  ∧ fallback_path r = Some (secondary_path out dirs name).
Proof.
  unfold convertImage_try. intros H.
  apply bind_returned in H as (rel & w0 & Hrel & H).
  unfold job_path in Hrel.
  rewrite path_relative_below in Hrel;
    [|by apply proper_path_spec|apply rest_proper|by destruct dirs].
  injection Hrel as <- <-.
  destruct (output_paths root out dirs name (proper_path_spec _ Hout)
              (proper_path_spec _ Hdirs) (proper_segmentb_spec _ Hname))
    as (_ & Hp & Hs).
  fold (job_path root dirs name) in Hp, Hs. rewrite Hp, Hs in H.
  invert_binds @bind_returned H. unfold io_ret in H.
  by injection H as <- _.
Qed.

Lemma mirror_log (P : Platform W) options w log0 r w' log :
  @convertImage_try _ (recording P) (job_path root dirs name) (absolute root)
    (absolute out) options (w, log0) = (Returned r, (w', log)) →
  ∃ format,
    fallback_format r = Some format
    ∧ log = log0 ++
        [ {| write_source := job_path root dirs name;
             write_encoder := EncAvif (cfg_quality options)
                                (cfg_effort options) "4:4:4";
             write_dest :=
               primary_path out dirs (fileName_of (job_path root dirs name)) |};
          {| write_source := job_path root dirs name;
             write_encoder := fallback_encoder format (cfg_quality options);
             write_dest := secondary_path out dirs name |} ].
Proof.
  unfold convertImage_try. intros H.
  apply bind_returned in H as (rel & w0 & Hrel & H).
  unfold job_path in Hrel.
  rewrite path_relative_below in Hrel;
    [|by apply proper_path_spec|apply rest_proper|by destruct dirs].
  injection Hrel as <- <-.
  destruct (output_paths root out dirs name (proper_path_spec _ Hout)
              (proper_path_spec _ Hdirs) (proper_segmentb_spec _ Hname))
    as (_ & Hp & Hs).
  fold (job_path root dirs name) in Hp, Hs. rewrite Hp, Hs in H.
  apply bind_returned in H as (? & [w1 l1] & H1 & H).
  apply ensureDirectory_log in H1 as ->.
  apply bind_returned in H as (original & [w2 l2] & H2 & H).
  apply keep_log_log in H2 as ->.
  apply bind_returned in H as (start & [w3 l3] & H3 & H).
  apply keep_log_log in H3 as ->.
  apply bind_returned in H as (format & [w4 l4] & H4 & H).
  apply keep_log_log in H4 as ->.
  apply bind_returned in H as (? & [w5 l5] & H5 & H).
  apply log_write_log in H5 as ->.
  apply bind_returned in H as (avifSize & [w6 l6] & H6 & H).
  apply keep_log_log in H6 as ->.
  apply bind_returned in H as (? & [w7 l7] & H7 & H).
  apply log_write_log in H7 as ->.
  apply bind_returned in H as (fallbackSize & [w8 l8] & H8 & H).
  apply keep_log_log in H8 as ->.
  apply bind_returned in H as (finish & [w9 l9] & H9 & H).
  apply keep_log_log in H9 as ->.
  injection H as <- _ <-. exists format. split; [done|].
  by rewrite <- app_assoc.
Qed.

End Mirror.

(** ** Arrays: [indexOf] and [splice] *)

Lemma indexOf_middle p l1 l2 :
  p ∉ l1 → indexOf p (l1 ++ p :: l2) = Z.of_nat (length l1).
Proof.
  induction l1 as [|x l1 IH]; intros Hp; simpl.
  - by rewrite decide_True.
  - rewrite not_elem_of_cons in Hp. destruct Hp as [Hne Hp].
    rewrite decide_False by done. rewrite (IH Hp).
    destruct (Z.ltb_spec (Z.of_nat (length l1)) 0); lia.
Qed.

Lemma indexOf_absent p l : p ∉ l → indexOf p l = -1.
Proof.
  induction l as [|x l IH]; intros Hp; simpl; [done|].
  rewrite not_elem_of_cons in Hp. destruct Hp as [Hne Hp].
  rewrite decide_False by done. by rewrite (IH Hp).
Qed.

Lemma splice1_middle l1 p l2 :
  splice1 (Z.of_nat (length l1)) (l1 ++ p :: l2) = l1 ++ l2.
Proof.
  unfold splice1.
  destruct (Z.ltb_spec (Z.of_nat (length l1)) 0) as [?|_]; [lia|].
  rewrite Z.min_l by (rewrite length_app; simpl; lia).
  rewrite Nat2Z.id. apply delete_middle.
Qed.

Lemma splice1_indexOf p l :
  p ∈ l → ∃ l1 l2, l = l1 ++ p :: l2 ∧ (p ∉ l1)
                   ∧ splice1 (indexOf p l) l = l1 ++ l2.
Proof.
  intros (l1 & l2 & -> & Hp)%list_elem_of_split_l.
  exists l1, l2. split_and!; [done..|].
  rewrite indexOf_middle by done. apply splice1_middle.
Qed.

(** A callback whose promise were not in the array would remove the last
    element instead. *)
Example splice1_absent : splice1 (indexOf 7 [1; 2; 3]%nat) [1; 2; 3]%nat = [1; 2]%nat.
Proof. reflexivity. Qed.

Lemma size_tasks_executing (m : gmap nat string) (l : list nat) :
  NoDup l → (∀ p, p ∈ l ↔ is_Some (m !! p)) → size m = length l.
Proof.
  intros Hnd Hdom. rewrite <- size_dom, <- (size_list_to_set (C := gset nat)) by done.
  f_equal. apply set_eq. intros p.
  by rewrite elem_of_dom, elem_of_list_to_set, Hdom.
Qed.

(** ** The invariant of the sliding window *)

Section SchedulerFacts.
Variables (inputRoot outputRoot : string) (config : Config).
Variable concurrency : nat.
Variables (files : list string) (silent : bool).

Lemma sched_inv_init : sched_inv concurrency files silent (sched_init files silent).
Proof.
  split; simpl.
  - apply NoDup_nil_2.
  - intros p. rewrite lookup_empty, elem_of_nil. split; [done|].
    by intros [? ?].
  - intros p. by rewrite elem_of_nil.
  - intros p. by rewrite elem_of_empty.
  - unfold window. lia.
  - done.
  - intros p f. by rewrite lookup_empty.
  - by rewrite map_to_list_empty.
  - by destruct silent.
  - unfold control_inv, window. simpl. lia.
Qed.

Lemma sched_inv_start s file rest :
  sched_inv concurrency files silent s →
  control s = AtLoop → remaining s = file :: rest →
  sched_inv concurrency files silent (start_job concurrency s file rest).
Proof.
  intros [Hnd Hdom Hfresh Hful Hwin Hord Htf Hjobs Hbar Hctl] Hc Hrem.
  unfold control_inv in Hctl. rewrite Hc in Hctl.
  assert (Hnew : created s ∉ executing s).
  { intros Hin%Hfresh. lia. }
  assert (Hnone : tasks s !! created s = None).
  { apply eq_None_not_Some. by rewrite <- Hdom. }
  assert (Hfile : files !! created s = Some file).
  { rewrite <- (Nat.add_0_r (created s)), <- lookup_drop, <- Hord, Hrem.
    done. }
  assert (Hnd' : NoDup (executing s ++ [created s])).
  { apply NoDup_app. split_and!; [done| |apply NoDup_singleton].
    intros p Hp ->%list_elem_of_singleton. done. }
  assert (Hlen : length (executing s ++ [created s])
                 = S (length (executing s))).
  { rewrite length_app. simpl. lia. }
  split; simpl.
  - done.
  - intros p. rewrite elem_of_app, list_elem_of_singleton, lookup_insert.
    case_decide; subst.
    + split; [by eauto|]. auto.
    + rewrite <- Hdom. split; [intros [?|?]; [done|congruence]|]. auto.
  - intros p [Hp%Hfresh| ->%list_elem_of_singleton]%elem_of_app; lia.
  - intros p Hp. destruct (Hful p Hp) as [Hnot Hlt]. split; [|lia].
    rewrite elem_of_app, list_elem_of_singleton. intros [?|?]; [done|lia].
  - rewrite Hlen. lia.
  - rewrite Hrem, (drop_S _ _ _ Hfile) in Hord. by injection Hord.
  - intros p f. rewrite lookup_insert. case_decide; subst.
    + by intros [= <-].
    + apply Htf.
  - rewrite map_to_list_insert by done. simpl. rewrite <- Hjobs, Hrem.
    by rewrite (Permutation_middle _ rest).
  - done.
  - unfold control_inv. simpl. rewrite Hlen. case_decide as Hge; simpl.
    + split_and!; [by destruct (executing s)|done|unfold window in *; lia
                  |done|auto].
    + unfold window. lia.
Qed.


Lemma sched_inv_settle s p file r :
  sched_inv concurrency files silent s → tasks s !! p = Some file →
  job_outcome file inputRoot outputRoot config r →
  sched_inv concurrency files silent (settle_job s p r).
Proof.
  intros [Hnd Hdom Hfresh Hful Hwin Hord Htf Hjobs Hbar Hctl] Hp Hr.
  assert (Hin : p ∈ executing s) by (rewrite Hdom; eauto).
  destruct (splice1_indexOf p (executing s) Hin) as (l1 & l2 & Hl & Hp1 & Hs).
  assert (Hp2 : p ∉ l2).
  { rewrite Hl in Hnd. apply NoDup_app in Hnd as (_ & _ & Hnd).
    by apply NoDup_cons in Hnd as [? _]. }
  assert (Hmem : ∀ q, q ∈ l1 ++ l2 ↔ q ∈ executing s ∧ q ≠ p).
  { intros q. rewrite Hl, !elem_of_app, elem_of_cons. split.
    - intros [?|?]; (split; [auto|congruence]).
    - intros [[?|[?|?]] ?]; auto. done. }
  split; simpl; rewrite ?Hs.
  - rewrite Hl in Hnd. apply NoDup_app in Hnd as (Hn1 & Hn12 & Hn2).
    apply NoDup_cons in Hn2 as [_ Hn2]. apply NoDup_app. split_and!; [done| |done].
    intros q Hq1 Hq2. apply (Hn12 q Hq1). by right.
  - intros q. rewrite Hmem, lookup_delete, Hdom. case_decide; subst.
    + split; [by intros [_ ?]|]. by intros [? ?].
    + split; [by intros [? _]|done].
  - intros q [Hq _]%Hmem. by apply Hfresh.
  - intros q [->%elem_of_singleton|Hq]%elem_of_union.
    + split; [|by apply Hfresh]. rewrite Hmem. by intros [_ ?].
    + destruct (Hful q Hq) as [Hnot Hlt]. split; [|done].
      rewrite Hmem. by intros [? _].
  - rewrite Hl in Hwin. rewrite length_app in *. simpl in Hwin. lia.
  - done.
  - intros q f. rewrite lookup_delete. case_decide; [done|apply Htf].
  - rewrite <- Hjobs, fmap_app. simpl.
    rewrite (job_outcome_inputPath _ _ _ _ _ Hr).
    rewrite <- (map_to_list_delete (tasks s) p file Hp). simpl.
    rewrite <- !app_assoc. done.
  - rewrite Hbar. destruct silent; simpl; [done|].
    rewrite length_app. simpl. f_equal. lia.
  - unfold control_inv in *. simpl. rewrite Hs.
    destruct (control s) as [|raced|awaited|].
    + rewrite Hl in Hctl. rewrite length_app in *. simpl in Hctl. lia.
    + destruct Hctl as (Hne & Hndr & Hlen & Hsub & Hcase).
      split_and!; [done..| |].
      * intros q [Hq _]%Hmem. auto.
      * intros q Hq. destruct (decide (q = p)) as [->|Hqp].
        -- left. apply elem_of_union. left. by apply elem_of_singleton.
        -- destruct (Hcase q Hq) as [?|?]; [left; apply elem_of_union; by right|].
           right. by apply Hmem.
    + destruct Hctl as (Hrem & Hsub & Hcase). split_and!; [done| |].
      * intros q [Hq _]%Hmem. auto.
      * intros q Hq. destruct (decide (q = p)) as [->|Hqp].
        -- left. apply elem_of_union. left. by apply elem_of_singleton.
        -- destruct (Hcase q Hq) as [?|?]; [left; apply elem_of_union; by right|].
           right. by apply Hmem.
    + destruct Hctl as [_ Hnil]. rewrite Hnil in Hin. by apply elem_of_nil in Hin.
Qed.

Lemma sched_inv_race s raced p :
  sched_inv concurrency files silent s →
  control s = AwaitRace raced → p ∈ raced → p ∈ fulfilled s →
  sched_inv concurrency files silent (set_control s AtLoop).
Proof.
  intros [Hnd Hdom Hfresh Hful Hwin Hord Htf Hjobs Hbar Hctl] Hc Hp Hf.
  split; simpl; try done.
  unfold control_inv in *. simpl. rewrite Hc in Hctl.
  destruct Hctl as (_ & Hndr & Hlen & Hsub & _).
  destruct (list_elem_of_split _ _ Hp) as (r1 & r2 & ->).
  assert (Hle : (length (executing s) ≤ length (r1 ++ r2))%nat).
  { apply submseteq_length, NoDup_submseteq; [done|].
    intros q Hq. specialize (Hsub q Hq).
    rewrite elem_of_app, elem_of_cons in Hsub. rewrite elem_of_app.
    destruct Hsub as [?|[->|?]]; auto.
    by destruct (Hful p Hf). }
  rewrite !length_app in *. simpl in Hlen. lia.
Qed.

Lemma sched_inv_loop_end s :
  sched_inv concurrency files silent s → control s = AtLoop → remaining s = [] →
  sched_inv concurrency files silent (set_control s (AwaitAll (executing s))).
Proof.
  intros [Hnd Hdom Hfresh Hful Hwin Hord Htf Hjobs Hbar Hctl] Hc Hrem.
  split; simpl; try done.
  unfold control_inv. simpl. auto.
Qed.

Lemma sched_inv_all s awaited :
  sched_inv concurrency files silent s → control s = AwaitAll awaited →
  (∀ p, p ∈ awaited → p ∈ fulfilled s) →
  sched_inv concurrency files silent (set_control s AfterAll).
Proof.
  intros [Hnd Hdom Hfresh Hful Hwin Hord Htf Hjobs Hbar Hctl] Hc Hall.
  split; simpl; try done.
  unfold control_inv in *. simpl. rewrite Hc in Hctl.
  destruct Hctl as (Hrem & Hsub & _). split; [done|].
  destruct (executing s) as [|q l] eqn:He; [done|].
  assert (Hq : q ∈ executing s) by (rewrite He; left).
  rewrite <- He in Hsub.
  destruct (Hful q (Hall q (Hsub q Hq))) as [Hnot _].
  exfalso. apply Hnot. left.
Qed.

Lemma sched_inv_step s s' :
  sched_inv concurrency files silent s →
  step inputRoot outputRoot config concurrency s s' →
  sched_inv concurrency files silent s'.
Proof.
  intros Hinv Hstep. destruct Hstep.
  - by apply sched_inv_start.
  - by eapply sched_inv_settle.
  - by eapply sched_inv_race.
  - by apply sched_inv_loop_end.
  - by eapply sched_inv_all.
Qed.

Lemma sched_inv_steps s s' :
  sched_inv concurrency files silent s →
  rtc (step inputRoot outputRoot config concurrency) s s' →
  sched_inv concurrency files silent s'.
Proof. induction 2; eauto using sched_inv_step. Qed.

Lemma sched_inv_reachable s :
  reachable inputRoot outputRoot config concurrency files silent s →
  sched_inv concurrency files silent s.
Proof. apply sched_inv_steps, sched_inv_init. Qed.

End SchedulerFacts.

Section SchedulerRuns.
Variables (inputRoot outputRoot : string) (config : Config).
Variable concurrency : nat.
Variables (files : list string) (silent : bool).

Lemma in_flight_executing s :
  sched_inv concurrency files silent s → in_flight s = length (executing s).
Proof. intros [Hnd Hdom]. by apply size_tasks_executing. Qed.

(** *** No deadlock *)

Lemma step_progress s :
  sched_inv concurrency files silent s → control s ≠ AfterAll →
  ∃ s', step inputRoot outputRoot config concurrency s s'.
Proof.
  intros Hinv Hc. pose proof Hinv as [Hnd Hdom _ _ _ _ _ _ _ Hctl].
  unfold control_inv in Hctl.
  assert (Hsettle : ∀ p, p ∈ executing s →
            ∃ s', step inputRoot outputRoot config concurrency s s').
  { intros p [file Hp]%Hdom.
    destruct (job_outcome_exists file inputRoot outputRoot config) as [r Hr].
    eexists. by eapply step_settle. }
  destruct (control s) as [|raced|awaited|] eqn:Hcs; [| | |done].
  - destruct (remaining s) as [|file rest] eqn:Hrem.
    + eexists. by apply step_loop_end.
    + eexists. by eapply step_start.
  - destruct Hctl as (Hne & _ & _ & _ & Hcase).
    destruct raced as [|p raced]; [done|].
    destruct (Hcase p) as [Hp|Hp]; [by left| |by eapply Hsettle].
    eexists. eapply step_race; [done| |done]. by left.
  - destruct Hctl as (_ & _ & Hcase).
    destruct (decide (Forall (λ p, p ∈ fulfilled s) awaited)) as [Hall|Hnot].
    + eexists. eapply step_all; [done|]. by apply Forall_forall.
    + apply not_Forall_Exists in Hnot; [|apply _].
      apply Exists_exists in Hnot as (p & Hp & Hpf).
      destruct (Hcase p Hp) as [?|?]; [done|by eapply Hsettle].
Qed.

(** *** Termination *)

Lemma step_measure s s' :
  sched_inv concurrency files silent s →
  step inputRoot outputRoot config concurrency s s' →
  (measure s' < measure s)%nat.
Proof.
  intros [Hnd Hdom Hfresh _ _ _ _ _ _ _] Hstep. unfold measure.
  destruct Hstep as [s file rest Hc Hrem|s p file r Hp _|s raced p Hc _ _
                    |s Hc _|s awaited Hc _]; simpl.
  - assert (Hsize : size (<[created s:=file]> (tasks s)) = S (size (tasks s))).
    { apply map_size_insert_None, eq_None_not_Some.
      rewrite <- Hdom. intros Hin%Hfresh. lia. }
    rewrite Hc, Hrem, Hsize. simpl. case_decide; simpl; lia.
  - assert (Hsize : size (delete p (tasks s)) = pred (size (tasks s))).
    { apply map_size_delete_Some. eauto. }
    assert (size (tasks s) ≠ 0%nat).
    { intros Hz%map_size_empty_inv. by rewrite Hz, lookup_empty in Hp. }
    lia.
  - rewrite Hc. simpl. lia.
  - rewrite Hc. simpl. lia.
  - rewrite Hc. simpl. lia.
Qed.

Lemma run_to_end s :
  sched_inv concurrency files silent s →
  ∃ s', rtc (step inputRoot outputRoot config concurrency) s s'
        ∧ control s' = AfterAll.
Proof.
  remember (measure s) as n eqn:Hn. revert s Hn.
  induction (lt_wf n) as [n _ IH]. intros s -> Hinv.
  assert (Hcase : control s = AfterAll ∨ control s ≠ AfterAll).
  { destruct (control s); auto. }
  destruct Hcase as [Hc|Hc].
  - exists s. by split.
  - destruct (step_progress s Hinv Hc) as [s1 Hstep].
    destruct (IH (measure s1) (step_measure _ _ Hinv Hstep) s1 eq_refl)
      as (s' & Hrun & Hend).
    { by eapply sched_inv_step. }
    exists s'. split; [by eapply rtc_l|done].
Qed.

(** Every run is at most [4 * M + 2] steps long. *)
Lemma steps_bounded s s' n :
  sched_inv concurrency files silent s →
  nsteps (step inputRoot outputRoot config concurrency) n s s' →
  (n + measure s' ≤ measure s)%nat.
Proof.
  intros Hinv Hrun. induction Hrun as [|n s s1 s' Hstep Hrun IH]; [lia|].
  pose proof (step_measure _ _ Hinv Hstep).
  specialize (IH (sched_inv_step _ _ _ _ _ _ _ _ Hinv Hstep)). lia.
Qed.

(** *** The end of the loop *)

Lemma end_tasks_empty s :
  sched_inv concurrency files silent s → control s = AfterAll → tasks s = ∅.
Proof.
  intros [_ Hdom _ _ _ _ _ _ _ Hctl] Hc.
  unfold control_inv in Hctl. rewrite Hc in Hctl. destruct Hctl as [_ Hnil].
  apply map_empty. intros p. apply eq_None_not_Some.
  rewrite <- Hdom, Hnil. apply not_elem_of_nil.
Qed.

Lemma end_results s :
  sched_inv concurrency files silent s → control s = AfterAll →
  inputPath <$> results s ≡ₚ files.
Proof.
  intros Hinv Hc. pose proof (end_tasks_empty s Hinv Hc) as Hempty.
  destruct Hinv as [_ _ _ _ _ _ _ Hjobs _ Hctl].
  unfold control_inv in Hctl. rewrite Hc in Hctl. destruct Hctl as [Hrem _].
  by rewrite Hempty, map_to_list_empty, Hrem, !app_nil_r in Hjobs.
Qed.

Lemma end_results_length s :
  sched_inv concurrency files silent s → control s = AfterAll →
  length (results s) = length files.
Proof.
  intros Hinv Hc. rewrite <- (end_results s Hinv Hc). by rewrite length_fmap.
Qed.

End SchedulerRuns.

(** ** The console *)

Section Console.
Context {W : Type}.

Lemma appends_ret {A} (a : A) : appends (W := W) (io_ret a).
Proof.
  intros w c o w' c' [= _ _ <-]. exists []. by rewrite app_nil_r.
Qed.

Lemma appends_throw {A} e : appends (W := W) (@throw _ A e).
Proof.
  intros w c o w' c' [= _ _ <-]. exists []. by rewrite app_nil_r.
Qed.

Lemma appends_lift {A} (m : io W A) : appends (lift m).
Proof.
  intros w c o w' c'. unfold lift. destruct (m w).
  intros [= _ _ <-]. exists []. by rewrite app_nil_r.
Qed.

Lemma appends_log line : is_summary line = false → appends (W := W) (console_log line).
Proof.
  intros Hl w c o w' c' [= _ _ <-]. exists [line]. split; [done|].
  by apply Forall_singleton.
Qed.

Lemma appends_unless_silent config line :
  is_summary line = false → appends (W := W) (unless_silent config line).
Proof.
  intros Hl. unfold unless_silent.
  destruct (cfg_silent config); [apply appends_ret|by apply appends_log].
Qed.

Lemma appends_bind {A B} (m : io (World W) A) (k : A → io (World W) B) :
  appends m → (∀ a, appends (k a)) → appends (io_bind m k).
Proof.
  intros Hm Hk w c o w' c'. unfold io_bind.
  destruct (m (w, c)) as [[a|e] [w1 c1]] eqn:Hmw.
  - intros Hka. destruct (Hm _ _ _ _ _ Hmw) as (x1 & -> & H1).
    destruct (Hk a _ _ _ _ _ Hka) as (x2 & -> & H2).
    exists (x1 ++ x2). split; [by rewrite app_assoc|by apply Forall_app].
  - intros [= _ <- <-]. by apply (Hm _ _ _ _ _ Hmw).
Qed.

Lemma appends_try_catch {A} (m : io (World W) A) h :
  appends m → (∀ e, appends (h e)) → appends (try_catch m h).
Proof.
  intros Hm Hh w c o w' c'. unfold try_catch.
  destruct (m (w, c)) as [[a|e] [w1 c1]] eqn:Hmw.
  - intros [= _ <- <-]. by apply (Hm _ _ _ _ _ Hmw).
  - intros Hhe. destruct (Hm _ _ _ _ _ Hmw) as (x1 & -> & H1).
    destruct (Hh e _ _ _ _ _ Hhe) as (x2 & -> & H2).
    exists (x1 ++ x2). split; [by rewrite app_assoc|by apply Forall_app].
Qed.

End Console.

#[global] Hint Resolve appends_ret appends_throw appends_lift appends_log
  appends_unless_silent appends_bind appends_try_catch : appends.
#[global] Hint Extern 2 (appends (if ?b then _ else _)) => destruct b : appends.
#[global] Hint Extern 2 (appends (match ?x with _ => _ end)) =>
  destruct x : appends.
#[global] Hint Extern 1 (is_summary _ = false) => reflexivity : appends.

(** ** [main] before the loop *)

Section MainFacts.
Context {W : Type} `{!Platform W}.

Lemma main_config_appends options : appends (main_config options).
Proof. unfold main_config. eauto 10 with appends. Qed.

Lemma main_discover_appends config : appends (main_discover config).
Proof. unfold main_discover. eauto 20 with appends. Qed.

Lemma main_reset_output_appends config outputPath :
  appends (main_reset_output config outputPath).
Proof. unfold main_reset_output. eauto 10 with appends. Qed.

Lemma main_prepare_appends interactive config outputPath files :
  appends (main_prepare interactive config outputPath files).
Proof.
  unfold main_prepare. pose proof (main_reset_output_appends config outputPath).
  eauto 20 with appends.
Qed.

Lemma main_before_loop_appends options : appends (main_before_loop options).
Proof.
  unfold main_before_loop.
  apply appends_bind; [apply main_config_appends|intros config].
  apply appends_bind; [apply main_discover_appends|intros [c|[[ip op] fs]]].
  - apply appends_ret.
  - apply appends_bind; [apply main_prepare_appends|intros [c|[]]].
    + apply appends_ret.
    + eauto 10 with appends.
Qed.

(** With no file found, [main] prints the notice and exits with status 0
    before anything else happens. *)
Lemma main_prepare_empty interactive config outputPath (w : W) c :
  main_prepare interactive config outputPath [] (w, c)
  = (Returned (Exit 0), (w, c ++ [NoImagesFound])).
Proof. reflexivity. Qed.

Lemma main_before_loop_empty options w config w1 c1 inputPath outputPath w2 c2 :
  main_config options (w, []) = (Returned config, (w1, c1)) →
  main_discover config (w1, c1)
    = (Returned (Continue (inputPath, outputPath, [])), (w2, c2)) →
  main_before_loop options (w, [])
  = (Returned (Exit 0), (w2, c2 ++ [NoImagesFound])).
Proof.
  intros Hc Hd. unfold main_before_loop, io_bind at 1. rewrite Hc.
  unfold io_bind at 1. rewrite Hd.
  unfold io_bind. by rewrite main_prepare_empty.
Qed.

End MainFacts.

(** ** The reset of the output folder *)

Section ResetFacts.
Context {W : Type} `{P : !Platform W}.

Lemma cleanDirectory_returned dirPath (w w' : W) :
  cleanDirectory dirPath w = (Returned tt, w') ↔
  ∃ w1, fs_rm dirPath w = (Returned tt, w1)
        ∧ fs_mkdir dirPath w1 = (Returned tt, w').
Proof.
  unfold cleanDirectory, try_catch, io_bind, throw.
  destruct (fs_rm dirPath w) as [[[]|e] w1].
  - destruct (fs_mkdir dirPath w1) as [[[]|e] w2] eqn:Hm; split.
    + intros [= <-]. eauto.
    + intros (? & [= <-] & Hm'). rewrite Hm in Hm'. by injection Hm' as <-.
    + done.
    + intros (? & [= <-] & Hm'). by rewrite Hm in Hm'.
  - split; [done|]. by intros (? & ? & ?).
Qed.

(** A failure to clean is rethrown as a fresh [Error]: it carries the
    original message and no [code]. *)
Lemma cleanDirectory_thrown dirPath (w w' : W) e :
  cleanDirectory dirPath w = (Thrown e, w') →
  code e = None
  ∧ ∃ cause,
      message e = "Failed to clean directory: " +:+ dirPath +:+ ". "
                  +:+ message cause
      ∧ (fs_rm dirPath w = (Thrown cause, w')
         ∨ ∃ w1, fs_rm dirPath w = (Returned tt, w1)
                 ∧ fs_mkdir dirPath w1 = (Thrown cause, w')).
Proof.
  unfold cleanDirectory, try_catch, io_bind, throw.
  destruct (fs_rm dirPath w) as [[[]|cause] w1].
  - destruct (fs_mkdir dirPath w1) as [[[]|cause] w2] eqn:Hm; [done|].
    intros [= <- <-]. split; [done|]. exists cause. split; [done|].
    right. eauto.
  - intros [= <- <-]. split; [done|]. exists cause. split; [done|]. by left.
Qed.

(** The two ways through the reset of the output folder. *)
Lemma main_reset_output_returned config outputPath (w : W) c w' c' :
  main_reset_output config outputPath (w, c) = (Returned tt, (w', c')) →
  (∃ w1, cleanDirectory outputPath w = (Returned tt, w1)
         ∧ ensureDirectory outputPath true w1 = (Returned tt, w')
         ∧ c' = c ++ resetting_lines config outputPath)
  ∨ (∃ e w1, cleanDirectory outputPath w = (Thrown e, w1)
             ∧ ensureDirectory outputPath true w1 = (Returned tt, w')
             ∧ c' = c ++ resetting_lines config outputPath
                      ++ [ResetFailed (message e)]).
Proof.
  unfold main_reset_output, resetting_lines, unless_silent.
  intros H. apply bind_returned in H as ([] & [w0 c0] & H0 & H).
  assert (w0 = w ∧ c0 = c ++ (if cfg_silent config then []
                               else [Resetting outputPath])) as [-> ->].
  { destruct (cfg_silent config).
    - injection H0 as <- <-. by rewrite app_nil_r.
    - by injection H0 as <- <-. }
  clear H0. apply bind_returned in H as ([] & [w1 c1] & H1 & H).
  unfold try_catch, lift in H1.
  destruct (cleanDirectory outputPath w) as [[[]|e] w2] eqn:Hclean.
  - injection H1 as <- <-. left. exists w2.
    unfold lift in H. destruct (ensureDirectory outputPath true w2) as [o w3].
    by injection H as -> -> ->.
  - assert (Hcode : code e ≠ Some "ENOENT").
    { apply cleanDirectory_thrown in Hclean as [-> _]. done. }
    rewrite decide_True in H1 by done. injection H1 as <- <-.
    right. exists e, w2.
    unfold lift in H. destruct (ensureDirectory outputPath true w2) as [o w3].
    injection H as -> -> <-. by rewrite app_assoc.
Qed.

(** Every run that gets to the loop has been through the reset; unless the
    user was asked to confirm, the reset started from the world [main] was
    in after discovery. *)
Lemma main_prepare_continue interactive config outputPath files (w : W) c w' c' :
  main_prepare interactive config outputPath files (w, c)
    = (Returned (Continue tt), (w', c')) →
  ∃ w0 c0 c1,
    main_reset_output config outputPath (w0, c0) = (Returned tt, (w', c1))
    ∧ (negb (cfg_yes config) && interactive = false → w0 = w).
Proof.
  unfold main_prepare. case_decide as Hlen; [done|]. intros H.
  apply bind_returned in H as (? & [w1 c1] & Hdet & H).
  apply bind_returned in H as (confirmed & [w2 c2] & Hconf & H).
  destruct confirmed; simpl in H; [|done].
  apply bind_returned in H as ([] & [w3 c3] & Hreset & H).
  apply bind_returned in H as ([] & [w4 c4] & Hconv & H).
  injection H as <- <-. exists w2, c2, c3.
  assert (w4 = w3) as <-.
  { unfold unless_silent in Hconv. destruct (cfg_silent config);
      by injection Hconv. }
  split; [done|]. intros Hask. rewrite Hask in Hconf.
  injection Hconf as <- _.
  unfold unless_silent in Hdet. destruct (cfg_silent config);
    by injection Hdet.
Qed.

Section Contract.
Variable file_at : W → string → Prop.
Hypothesis contract : fs_contract P file_at.

Lemma ensureDirectory_keeps dirPath create (w : W) o w' :
  ensureDirectory dirPath create w = (o, w') →
  ∀ p, file_at w' p ↔ file_at w p.
Proof.
  unfold ensureDirectory, try_catch.
  destruct (fs_access dirPath w) as [[[]|e] w1] eqn:Ha.
  - intros [= _ <-]. by eapply access_keeps.
  - destruct create.
    + intros Hm p. rewrite (mkdir_keeps _ _ contract _ _ _ _ Hm).
      by eapply access_keeps.
    + intros [= _ <-]. by eapply access_keeps.
Qed.

Lemma cleanDirectory_removes dirPath (w w' : W) :
  cleanDirectory dirPath w = (Returned tt, w') →
  ∀ p, below dirPath p → ¬ file_at w' p.
Proof.
  intros (w1 & Hrm & Hmk)%cleanDirectory_returned p Hp.
  rewrite (mkdir_keeps _ _ contract _ _ _ _ Hmk).
  by eapply rm_removes.
Qed.

End Contract.

End ResetFacts.

(** The concrete platform keeps the promises. *)
Lemma Sim_contract : fs_contract Sim.platform Sim.file_at.
Proof.
  split.
  - intros d w w'. simpl. unfold Sim.rm. case_bool_decide; [done|].
    intros [= <-] p Hp. unfold Sim.file_at. simpl.
    rewrite map_lookup_filter. intros [f Hf].
    destruct (Sim.files w !! p) as [f'|]; [|done]. simpl in Hf.
    rewrite option_guard_False in Hf; [done|].
    simpl. unfold Sim.within, below in *. rewrite Hp.
    by rewrite orb_true_r.
  - intros d w o w'. simpl. unfold Sim.mkdir.
    case_bool_decide; by intros [= _ <-].
  - intros d w o w'. simpl. unfold Sim.access.
    destruct (_ || _); by intros [= _ <-].
Qed.

(** * The claims of the design document *)

Lemma window_limit (N : nat) : (1 ≤ N)%nat → window N = N.
Proof. unfold window. lia. Qed.

Lemma jobs_accounted inputRoot outputRoot config N files silent s :
  reachable inputRoot outputRoot config N files silent s →
  (length (results s) + in_flight s + length (remaining s) = length files)%nat.
Proof.
  intros Hinv%sched_inv_reachable. pose proof (inv_jobs _ _ _ _ Hinv) as Hjobs.
  apply Permutation_length in Hjobs.
  rewrite !length_app, !length_fmap, length_map_to_list in Hjobs.
  unfold in_flight. lia.
Qed.

(** C1.  With a concurrency limit [N ≥ 1], in every state the sliding
    window can reach from any job list, at most [N] jobs are in flight.
    The jobs are started in input order (the promises created so far are
    those of the first [created] files, the [p]-th for the [p]-th file); a
    job is started only while fewer than [N] are in flight; and once [N]
    are, [main] is suspended in [Promise.race] on exactly those [N]: no step
    starts a job, and [main] resumes only after one of them has
    completed. *)
Theorem sliding_window_bound inputRoot outputRoot config (N : nat) files silent s :
  (1 ≤ N)%nat →
  reachable inputRoot outputRoot config N files silent s →
  (in_flight s ≤ N)%nat
  ∧ in_flight s = length (executing s)
  ∧ remaining s = drop (created s) files
  ∧ (∀ p file, tasks s !! p = Some file → files !! p = Some file)
  ∧ (control s = AtLoop → (in_flight s < N)%nat)
  ∧ (∀ raced, control s = AwaitRace raced →
       length raced = N
       ∧ ∀ s', step inputRoot outputRoot config N s s' →
           remaining s' = remaining s ∧ created s' = created s
           ∧ (control s' = AtLoop → ∃ p, p ∈ raced ∧ p ∈ fulfilled s)).
Proof.
  intros HN Hreach. pose proof (sched_inv_reachable _ _ _ _ _ _ _ Hreach) as Hinv.
  pose proof (in_flight_executing _ _ _ _ Hinv) as Hfl.
  pose proof Hinv as [_ _ _ _ Hwin Hord Htf _ _ Hctl].
  rewrite window_limit in Hwin by done.
  split_and!; [lia|done|done|done| |].
  - intros Hc. unfold control_inv in Hctl. rewrite Hc in Hctl.
    rewrite window_limit in Hctl by done. lia.
  - intros raced Hc. unfold control_inv in Hctl. rewrite Hc in Hctl.
    destruct Hctl as (_ & _ & Hlen & _). rewrite window_limit in Hlen by done.
    split; [done|]. intros s' Hstep.
    destruct Hstep as [s file rest Hc'|s p file r|s raced' p Hc' Hp Hf
                      |s Hc'|s awaited Hc']; simpl; try congruence.
    + split_and!; [done..|]. by rewrite Hc.
    + split_and!; [done..|]. intros _. exists p. split; [congruence|done].
Qed.


(** C3.  For every job list of length [M]: at any moment each job is
    either still to be started, in flight or has its result, so the three
    counts add up to [M]; every run can be continued to the end of the
    loop; and at the end the result collection has exactly [M] entries, one
    for each job, and the summary's [successCount + failCount] is [M]. *)
Theorem every_job_yields_one_result
    inputRoot outputRoot config N files silent s :
  reachable inputRoot outputRoot config N files silent s →
  (length (results s) + in_flight s + length (remaining s) = length files)%nat
  ∧ (∃ s', rtc (step inputRoot outputRoot config N) s s'
           ∧ control s' = AfterAll)
  ∧ (control s = AfterAll →
       length (results s) = length files
       ∧ inputPath <$> results s ≡ₚ files
       ∧ ∀ duration,
           (successCount (printSummary (results s) duration)
            + failCount (printSummary (results s) duration)
            = length files)%nat).
Proof.
  intros Hreach. pose proof (sched_inv_reachable _ _ _ _ _ _ _ Hreach) as Hinv.
  split_and!.
  - by eapply jobs_accounted.
  - by eapply run_to_end.
  - intros Hend. pose proof (end_results_length _ _ _ _ Hinv Hend) as Hlen.
    split_and!; [done|by eapply end_results|].
    intros d. simpl. by rewrite count_success_fail.
Qed.

(** C4.  For an input file [inputRoot/dirs/name] (all segments
    well-formed), write [stem] for [name] without the extension [extname]
    finds.  On every platform, a successful job reports the primary
    artifact at [outputRoot/dirs/stem.avif] and the fallback at
    [outputRoot/dirs/name], and these are exactly the two destinations it
    asked [toFile] to write, in this order.  The fallback's path relative
    to the output root is the input's path relative to the input root; the
    primary's differs from it in the extension only. *)
Theorem output_paths_mirror_input {W} (P : Platform W)
    (root out dirs : list string) (name : string) options :
  proper_path root = true → proper_path out = true →
  proper_path dirs = true → proper_segmentb name = true →
  let filePath := absolute (root ++ dirs ++ [name]) in
  ∃ stem,
    let primary := absolute (out ++ dirs ++ [stem +:+ ".avif"]) in
    let secondary := absolute (out ++ dirs ++ [name]) in
    name = stem +:+ NodePath.extname name
    ∧ NodePath.relative_resolved (absolute root) filePath
      = join_slash (dirs ++ [name])
    ∧ NodePath.relative_resolved (absolute out) secondary
      = join_slash (dirs ++ [name])
    ∧ NodePath.relative_resolved (absolute out) primary
      = join_slash (dirs ++ [stem +:+ ".avif"])
    ∧ (∀ w r w',
         convertImage filePath (absolute root) (absolute out) options w
         = (Returned r, w') →
         success r = true →
         avif_path r = Some primary ∧ fallback_path r = Some secondary)
    ∧ (∀ w r w' log,
         @convertImage _ (recording P) filePath (absolute root)
           (absolute out) options (w, []) = (Returned r, (w', log)) →
         success r = true →
         write_dest <$> log = [primary; secondary]
         ∧ ∀ entry, entry ∈ log → write_source entry = filePath).
Proof.
  intros Hroot Hout Hdirs Hname filePath.
  pose proof (proper_path_spec _ Hroot) as Hr.
  pose proof (proper_path_spec _ Hout) as Ho.
  pose proof (proper_path_spec _ Hdirs) as Hd.
  pose proof (proper_segmentb_spec _ Hname) as Hn.
  destruct (output_paths root out dirs name Ho Hd Hn) as (Hstem & _ & _).
  fold filePath in Hstem.
  exists (fileName_of filePath). intros primary secondary.
  assert (Hrest : Forall proper_segment (dirs ++ [name])).
  { apply Forall_app. split; [done|by apply Forall_singleton]. }
  assert (Havif : proper_segment (fileName_of filePath +:+ ".avif")).
  { apply (proper_avif_name _ (NodePath.extname name)). rewrite <- Hstem.
    by destruct Hn as (_ & _ & _ & ?). }
  split_and!.
  - done.
  - apply relative_resolved_below; [done..|by destruct dirs].
  - unfold secondary. apply relative_resolved_below; [done..|by destruct dirs].
  - unfold primary. apply relative_resolved_below; [done| |by destruct dirs].
    apply Forall_app. split; [done|by apply Forall_singleton].
  - intros w r w' Hrun Hok.
    destruct (convertImage_cases filePath (absolute root) (absolute out)
                options w) as [(r0 & w0 & Htry & Hrun')|(e & w0 & _ & Hrun')];
      rewrite Hrun in Hrun'; injection Hrun' as -> ->; [|done].
    by eapply mirror_try.
  - intros w r w' log Hrun Hok.
    destruct (@convertImage_cases _ (recording P) filePath (absolute root)
                (absolute out) options (w, []))
      as [(r0 & [w0 l0] & Htry & Hrun')|(e & [w0 l0] & _ & Hrun')];
      rewrite Hrun in Hrun'; injection Hrun' as -> -> ->; [|done].
    apply mirror_log in Htry as (format & _ & ->); [|done..].
    split; [done|].
    intros entry [->|[->|[]%elem_of_nil]%elem_of_cons]%elem_of_cons; done.
Qed.

Lemma output_paths_mirror_input_sample :
  ∃ stem,
    "c.png" = stem +:+ NodePath.extname "c.png"
    ∧ ∀ w r w',
        convertImage "/home/u/input/a/b/c.png" "/home/u/input"
          "/home/u/output" Demo.config w = (Returned r, w') →
        success r = true →
        avif_path r
        = Some (absolute (["home"; "u"; "output"] ++ ["a"; "b"]
                          ++ [stem +:+ ".avif"]))
        ∧ fallback_path r = Some "/home/u/output/a/b/c.png".
Proof.
  destruct (output_paths_mirror_input Sim.platform ["home"; "u"; "input"]
              ["home"; "u"; "output"] ["a"; "b"] "c.png" Demo.config
              eq_refl eq_refl eq_refl eq_refl)
    as (stem & Hstem & _ & _ & _ & Hrun & _).
  exists stem. split; [exact Hstem|exact Hrun].
Defined.

(** On the sample home directory the job succeeds and both artifacts are
    where the theorem says. *)
Example picture_converted :
  (convertImage Demo.picture "/home/u/input" "/home/u/output" Demo.config
     Demo.home).1
  = Returned (success_result Demo.picture "/home/u/output/a/b/c.avif" 25000
                "/home/u/output/a/b/c.png" 50000 "png" 100000 1).
Proof. vm_compute. reflexivity. Qed.

(** C5.  The summary does not depend on the order of the results: for a
    permutation of the result collection, [printSummary] computes the same
    [successCount], [failCount], [totalOriginalSize], [totalAvifSize],
    [totalFallbackSize] and the same two reduction percentages. *)
Theorem summary_permutation_invariant rs rs' duration :
  rs ≡ₚ rs' →
  let s := printSummary rs duration in
  let s' := printSummary rs' duration in
  successCount s = successCount s'
  ∧ failCount s = failCount s'
  ∧ totalOriginalSize s = totalOriginalSize s'
  ∧ totalAvifSize s = totalAvifSize s'
  ∧ totalFallbackSize s = totalFallbackSize s'
  ∧ avifReduction s = avifReduction s'
  ∧ fallbackReduction s = fallbackReduction s'.
Proof.
  intros Hperm. simpl.
  rewrite !(sum_field_perm _ _ _ Hperm).
  rewrite !(count_success_perm _ _ _ Hperm). done.
Qed.

Lemma summary_permutation_invariant_sample :
  let s := printSummary [Demo.grown; Demo.shrunk; Demo.failed] 19 in
  let s' := printSummary [Demo.failed; Demo.grown; Demo.shrunk] 19 in
  successCount s = successCount s'
  ∧ failCount s = failCount s'
  ∧ totalOriginalSize s = totalOriginalSize s'
  ∧ totalAvifSize s = totalAvifSize s'
  ∧ totalFallbackSize s = totalFallbackSize s'
  ∧ avifReduction s = avifReduction s'
  ∧ fallbackReduction s = fallbackReduction s'.
Proof.
  apply (summary_permutation_invariant
           [Demo.grown; Demo.shrunk; Demo.failed]
           [Demo.failed; Demo.grown; Demo.shrunk] 19).
  apply Permutation_sym.
  apply (Permutation_cons_append [Demo.grown; Demo.shrunk] Demo.failed).
Defined.

(** An integer nearest to the exact percentage is negative for an excess
    of more than half a percent and is not for a smaller one. *)
Lemma nearest_integer_sign (r : Z) (part total : N) :
  (0 < total)%N →
  nearest_integer r (exact_percent part total) →
  (201 * Z.of_N total < 200 * Z.of_N part → r < 0)
  ∧ (200 * Z.of_N part < 201 * Z.of_N total → 0 ≤ r).
Proof.
  intros Ht [Hlo Hhi].
  pose proof (exact_percent_fraction part total Ht) as Hx.
  set (x := exact_percent part total) in *.
  set (t := Z.of_N total) in *. set (a := Z.of_N part) in *.
  assert (Ht' : 0 < t) by (unfold t; lia).
  assert (Hd : (0 < inject_Z (2 * t))%Q).
  { change 0%Q with (inject_Z 0). rewrite <- Zlt_Qlt. lia. }
  assert (HM : ((x + (1 # 2)) * inject_Z (2 * t)
                == inject_Z (200 * (t - a) + t))%Q).
  { rewrite Hx. field. lra. }
  clearbody x t a. split; intros H.
  - assert (Hm : 200 * (t - a) + t < 0) by lia.
    rewrite Zlt_Qlt in Hm. rewrite Zlt_Qlt.
    apply Qnot_le_lt. intros Hc. qnra.
  - assert (Hm : 0 < 200 * (t - a) + t) by lia.
    rewrite Zlt_Qlt in Hm.
    assert (Hr : -1 < r); [|lia]. rewrite Zlt_Qlt.
    apply Qnot_le_lt. intros Hc. qnra.
Qed.

(** C6, as the code has it.  Both percentages of the summary are
    [reduction] of the artifact total and the original total.  [reduction]
    is 0 when the original total is 0, and otherwise [Math.round] of
    [(1 − part / total) × 100] as double-precision arithmetic evaluates it.
    For totals of at most [2^43] bytes (8 TiB) that is an integer nearest
    to [100 × (1 − part / total)], either neighbour when the value lies
    exactly half-way.  The percentage is not clamped: when the artifact
    total exceeds the original it is never positive, and within that size
    it is negative when the excess is more than half a percent of the
    original and 0 when the excess is less than half a percent. *)
Theorem reduction_percent_rounds rs duration :
  let s := printSummary rs duration in
  avifReduction s = reduction (totalAvifSize s) (totalOriginalSize s)
  ∧ fallbackReduction s
    = reduction (totalFallbackSize s) (totalOriginalSize s)
  ∧ ∀ part total : N,
      (total = 0%N → reduction part total = 0)
      ∧ ((0 < total)%N →
           reduction part total = Math_round (saved_percent part total))
      ∧ ((0 < total ≤ 2 ^ 43)%N → (part ≤ 2 ^ 43)%N →
           nearest_integer (reduction part total) (exact_percent part total)
           ∧ (201 * Z.of_N total < 200 * Z.of_N part →
                reduction part total < 0)
           ∧ ((total < part)%N → 200 * Z.of_N part < 201 * Z.of_N total →
                reduction part total = 0))
      ∧ ((total < part)%N → reduction part total ≤ 0).
Proof.
  simpl. split_and!; [done..|]. intros part total. split_and!.
  - by intros ->.
  - apply reduction_round.
  - intros Ht Hp. pose proof (reduction_nearest part total Ht Hp) as Hnear.
    destruct (nearest_integer_sign _ part total (proj1 Ht) Hnear)
      as [Hneg Hpos].
    split_and!; [done|done|].
    intros Hex Hsmall. pose proof (reduction_nonpos part total Hex).
    specialize (Hpos Hsmall). lia.
  - apply reduction_nonpos.
Qed.

(** C6 as stated fails in three ways.  A primary artifact of 1001 bytes
    for an original of 1000 bytes exceeds the original, and the percentage
    is 0, not negative.  A value exactly half-way between two integers goes
    either way: 17 bytes of 40 save 57.5 percent and the percentage is 57,
    3 bytes of 8 save 62.5 percent and the percentage is 63, so no rule for
    rounding a half gives both.  And for totals of some 39 terabytes the
    roundings of the double arithmetic add up: the saving is below 79.5
    percent and the percentage is 80. *)
Lemma reduction_is_not_the_rounded_formula :
  (let s := printSummary [Demo.grown] 12 in
   (totalOriginalSize s < totalAvifSize s)%N
   ∧ avifReduction s = 0
   ∧ ¬ avifReduction s < 0)
  ∧ ((exact_percent 17 40 == 115 # 2)%Q ∧ reduction 17 40 = 57)
  ∧ ((exact_percent 3 8 == 125 # 2)%Q ∧ reduction 3 8 = 63)
  ∧ ((exact_percent 7984353842674 38948067525239 < 159 # 2)%Q
     ∧ reduction 7984353842674 38948067525239 = 80).
Proof.
  vm_compute. split_and!; try reflexivity. intros H. discriminate H.
Qed.

Lemma no_summary_appended (c extra : list Line) :
  Forall (λ l, is_summary l = false) extra →
  (∀ summary, SummaryLines summary ∉ c) →
  ∀ summary, SummaryLines summary ∉ c ++ extra.
Proof.
  intros Hextra Hc summary [Hin|Hin]%elem_of_app; [by eapply Hc|].
  rewrite Forall_forall in Hextra. by apply Hextra in Hin.
Qed.

Lemma empty_list_results inputRoot outputRoot config N silent s :
  reachable inputRoot outputRoot config N [] silent s → results s = [].
Proof.
  intros Hinv%sched_inv_reachable. pose proof (inv_jobs _ _ _ _ Hinv) as Hjobs.
  apply Permutation_nil_r in Hjobs. apply app_eq_nil in Hjobs as [Hres _].
  by apply fmap_nil_inv in Hres.
Qed.

Lemma empty_list_run inputRoot outputRoot config N silent :
  ∃ s, reachable inputRoot outputRoot config N [] silent s
       ∧ control s = AfterAll ∧ results s = [].
Proof.
  eexists. split_and!.
  - eapply rtc_l; [by apply step_loop_end|].
    eapply rtc_l; [|apply rtc_refl].
    eapply step_all; [done|]. simpl. by intros p ?%elem_of_nil.
  - done.
  - done.
Qed.

(** ** The summary of a run *)

Lemma no_summary_before_loop {W} `{!Platform W} options (w : W) o w' console :
  main_before_loop options (w, []) = (o, (w', console)) →
  ∀ summary, SummaryLines summary ∉ console.
Proof.
  intros (extra & -> & Hextra)%main_before_loop_appends.
  by apply no_summary_appended; [|intros ?; apply not_elem_of_nil].
Qed.

(** A summary is printed only at the end of a run that went through the
    loop, and its two counts add up to the number of files found. *)
Lemma main_summary_counts {W} `{!Platform W} options (w : W) ending summary :
  main_run options w ending →
  SummaryLines summary ∈ printed ending →
  ∃ config inputPath outputPath files startTime N w' console,
    main_before_loop options (w, [])
    = (Returned (Continue (config, inputPath, outputPath, files, startTime, N)),
       (w', console))
    ∧ printed ending = console ++ [SummaryLines summary]
    ∧ (successCount summary + failCount summary = length files)%nat.
Proof.
  intros Hrun Hin.
  destruct Hrun as [c w' console H|e w' console H
                   |config inputPath outputPath files startTime N
                      w' console s endTime H Hreach Hend]; simpl in Hin.
  - by apply no_summary_before_loop with (summary := summary) in H.
  - apply elem_of_app in Hin as [Hin|Hin].
    + by apply no_summary_before_loop with (summary := summary) in H.
    + by apply list_elem_of_singleton in Hin.
  - exists config, inputPath, outputPath, files, startTime, N, w', console.
    apply elem_of_app in Hin as [Hin|Hin].
    + by apply no_summary_before_loop with (summary := summary) in H.
    + apply list_elem_of_singleton in Hin. injection Hin as ->.
      split_and!; [done..|]. simpl. rewrite count_success_fail.
      eapply end_results_length; [|done]. by eapply sched_inv_reachable.
Qed.

(** C7, as the code has it.  When discovery finds no file, [main] prints
    the notice that no image was found and exits with status 0, in the
    world discovery left: nothing else is printed after discovery, in
    particular no summary, the output folder is not reset and the loop is
    not entered.  Taken by themselves, the loop on an empty list
    finishes within two steps with an empty result collection and can
    reach no state with a result, and [printSummary] on an empty collection
    computes 0 successes, 0 failures, totals of 0 and 0% for both
    reductions. *)
Theorem empty_input_exits_before_the_loop {W} (P : Platform W)
    options (w : W) config w1 c1 inputPath outputPath w2 c2 ending :
  main_config options (w, []) = (Returned config, (w1, c1)) →
  main_discover config (w1, c1)
    = (Returned (Continue (inputPath, outputPath, [])), (w2, c2)) →
  main_run options w ending →
  main_before_loop options (w, [])
  = (Returned (Exit 0), (w2, c2 ++ [NoImagesFound]))
  ∧ ending = {| exit_status := 0; printed := c2 ++ [NoImagesFound] |}
  ∧ (∀ summary, SummaryLines summary ∉ printed ending)
  ∧ (∀ inputRoot outputRoot N silent,
       (∀ s, reachable inputRoot outputRoot config N [] silent s →
             results s = [])
       ∧ ∃ s, reachable inputRoot outputRoot config N [] silent s
              ∧ control s = AfterAll ∧ results s = [])
  ∧ ∀ duration, printSummary [] duration = Samples.nothing_summary duration.
Proof.
  intros Hc Hd Hrun.
  pose proof (main_before_loop_empty _ _ _ _ _ _ _ _ _ Hc Hd) as Hbefore.
  assert (Hending : ending = {| exit_status := 0;
                                printed := c2 ++ [NoImagesFound] |}).
  { destruct Hrun as [c w' console H|e w' console H
                     |? ? ? ? ? ? w' console s endTime H];
      rewrite Hbefore in H;
      first [discriminate H|by injection H as <- <- <-]. }
  split_and!; [done|done| | |done].
  - subst ending. simpl.
    destruct (main_config_appends options _ _ _ _ _ Hc) as (x1 & Hx1 & H1).
    destruct (main_discover_appends config _ _ _ _ _ Hd) as (x2 & -> & H2).
    simpl in Hx1. subst c1.
    apply (no_summary_appended [] ((x1 ++ x2) ++ [NoImagesFound]));
      [|intros ?; apply not_elem_of_nil].
    repeat apply Forall_app_2; [done..|]. by apply Forall_singleton.
  - intros inputRoot outputRoot N silent. split.
    + apply empty_list_results.
    + apply empty_list_run.
Qed.

(** C7 as stated fails: on an empty input folder the run ends with status
    0 having printed the search line and the notice, and no run of it
    prints a summary. *)
Lemma empty_input_prints_no_summary :
  main_run Demo.flags Demo.home_empty Samples.empty_ending
  ∧ ∀ ending, main_run Demo.flags Demo.home_empty ending →
      ending = Samples.empty_ending
      ∧ ∀ summary, SummaryLines summary ∉ printed ending.
Proof.
  assert (Hbefore : main_before_loop Demo.flags (Demo.home_empty, [])
                    = (Returned (Exit 0), (Demo.home_empty,
                         [Searching "/home/u/input"; NoImagesFound])))
    by (vm_compute; reflexivity).
  split.
  - by apply (run_exit Demo.flags Demo.home_empty 0 Demo.home_empty
                [Searching "/home/u/input"; NoImagesFound]).
  - intros ending Hrun.
    assert (Hending : ending = Samples.empty_ending).
    { destruct Hrun as [c w' console H|e w' console H
                       |? ? ? ? ? ? w' console s endTime H];
        rewrite Hbefore in H;
      first [discriminate H|by injection H as <- <- <-]. }
    split; [done|]. subst ending. simpl. intros summary Hin.
    repeat (apply elem_of_cons in Hin as [Hin|Hin]; [discriminate Hin|]).
    by apply elem_of_nil in Hin.
Qed.

Lemma empty_input_exits_before_the_loop_sample :
  Samples.empty_ending
  = {| exit_status := 0;
       printed := [Searching "/home/u/input"] ++ [NoImagesFound] |}.
Proof.
  refine (proj1 (proj2 (empty_input_exits_before_the_loop Sim.platform Demo.flags
                   Demo.home_empty (config_of_options Demo.flags)
                   Demo.home_empty [] "/home/u/input" "/home/u/output"
                   Demo.home_empty [Searching "/home/u/input"]
                   Samples.empty_ending _ _ _))).
  - reflexivity.
  - vm_compute. reflexivity.
  - apply (run_exit Demo.flags Demo.home_empty 0 Demo.home_empty
             [Searching "/home/u/input"; NoImagesFound]).
    vm_compute. reflexivity.
Defined.

(** C8.  [convertImage] does not look at [resize]: for two configurations
    that differ in that field only, it returns the same result and leaves
    the same world, on every platform and from every world; so the jobs of
    the sliding window have the same possible outcomes. *)
Theorem resize_is_never_applied {W} (P : Platform W)
    filePath inputRoot outputRoot (c1 c2 : Config) (w : W) :
  same_but_resize c1 c2 →
  convertImage filePath inputRoot outputRoot c1 w
  = convertImage filePath inputRoot outputRoot c2 w
  ∧ ∀ r, job_outcome filePath inputRoot outputRoot c1 r
         ↔ job_outcome filePath inputRoot outputRoot c2 r.
Proof.
  intros (_ & _ & Hq & He & _).
  assert (Hsame : ∀ V (Q : Platform V),
            @convertImage V Q filePath inputRoot outputRoot c1
            = @convertImage V Q filePath inputRoot outputRoot c2).
  { intros V Q. unfold convertImage, convertImage_try. by rewrite Hq, He. }
  split; [by rewrite Hsame|].
  intros r. unfold job_outcome. split.
  - intros (V & Q & v & v' & Hrun). exists V, Q, v, v'. by rewrite <- Hsame.
  - intros (V & Q & v & v' & Hrun). exists V, Q, v, v'. by rewrite Hsame.
Qed.

Lemma resize_is_never_applied_sample :
  convertImage Demo.picture "/home/u/input" "/home/u/output" Demo.config
    Demo.home
  = convertImage Demo.picture "/home/u/input" "/home/u/output"
      Demo.config_resized Demo.home.
Proof.
  apply (resize_is_never_applied Sim.platform Demo.picture "/home/u/input"
           "/home/u/output" Demo.config Demo.config_resized Demo.home).
  repeat split; reflexivity.
Defined.

(** C9, as the code has it.  Every run that gets to the loop has first
    gone through the reset of the output folder: a recursive removal and
    re-creation is attempted.  When the attempt succeeds, no file that was
    below the output root is left when the loop starts.  When it fails, the
    failure is caught, a warning with its message is printed, and the run
    goes on with the files the failed attempt left in place. *)
Theorem output_root_reset_is_attempted {W} (P : Platform W)
    (file_at : W → string → Prop) config outputPath :
  fs_contract P file_at →
  (∀ interactive files (w : W) c w' c',
     main_prepare interactive config outputPath files (w, c)
       = (Returned (Continue tt), (w', c')) →
     ∃ w0 c0 c1,
       main_reset_output config outputPath (w0, c0) = (Returned tt, (w', c1))
       ∧ (negb (cfg_yes config) && interactive = false → w0 = w))
  ∧ (∀ (w : W) c w' c',
       main_reset_output config outputPath (w, c) = (Returned tt, (w', c')) →
       (∃ w1, cleanDirectory outputPath w = (Returned tt, w1)
              ∧ ∀ p, below outputPath p → ¬ file_at w' p)
       ∨ (∃ e w1, cleanDirectory outputPath w = (Thrown e, w1)
                  ∧ ResetFailed (message e) ∈ c'
                  ∧ ∀ p, file_at w' p ↔ file_at w1 p)).
Proof.
  intros Hfs. split.
  - intros interactive files w c w' c'. apply main_prepare_continue.
  - intros w c w' c' Hreset.
    apply main_reset_output_returned in Hreset
      as [(w1 & Hclean & Hensure & _)|(e & w1 & Hclean & Hensure & ->)].
    + left. exists w1. split; [done|]. intros p Hp.
      rewrite (ensureDirectory_keeps _ Hfs _ _ _ _ _ Hensure).
      by eapply cleanDirectory_removes.
    + right. exists e, w1. split_and!; [done| |].
      * rewrite !elem_of_app, list_elem_of_singleton. auto.
      * by eapply ensureDirectory_keeps.
Qed.

(** C9 as stated fails: with the output folder protected against removal
    the run still gets to the loop, and the file that was below the output
    root before the run is there when the loop starts. *)
Lemma protected_output_root_is_kept :
  ∃ ready w' console,
    main_before_loop Demo.flags (Demo.home_locked, [])
    = (Returned (Continue ready), (w', console))
    ∧ below "/home/u/output" Samples.old_file
    ∧ Sim.files Demo.home_locked !! Samples.old_file = Some (Demo.other 5)
    ∧ Sim.files w' !! Samples.old_file = Some (Demo.other 5)
    ∧ ResetFailed
        "Failed to clean directory: /home/u/output. EACCES: permission denied, rmdir /home/u/output"
      ∈ console.
Proof.
  eexists _, _, _. split_and!.
  - vm_compute. reflexivity.
  - reflexivity.
  - vm_compute. reflexivity.
  - vm_compute. reflexivity.
  - do 3 right. left.
Qed.

Lemma output_root_reset_is_attempted_sample :
  Sim.files Samples.home_reset !! Samples.old_file = None.
Proof.
  apply eq_None_not_Some.
  destruct (proj2 (output_root_reset_is_attempted Sim.platform Sim.file_at
                     Demo.config "/home/u/output" Sim_contract)
              Demo.home [] Samples.home_reset Samples.home_reset_console)
    as [(w1 & _ & Hgone)|(e & w1 & Hclean & _)].
  - vm_compute. reflexivity.
  - apply Hgone. reflexivity.
  - vm_compute in Hclean. discriminate Hclean.
Defined.




Example zero_flags_config :
  cfg_quality (config_of_options Demo.zero_flags) = 80
  ∧ cfg_effort (config_of_options Demo.zero_flags) = 4.
Proof. split; reflexivity. Qed.

(** ** The scenario of the design document *)

Lemma scenario_x :
  job_outcome "/in/x.png" "/in" "/out" Demo.config Demo.result_x.
Proof.
  exists Sim.world, Sim.platform, Demo.inbox. eexists. vm_compute. reflexivity.
Qed.

Lemma scenario_y :
  job_outcome "/in/y.jpg" "/in" "/out" Demo.config Demo.result_y.
Proof.
  exists Sim.world, Sim.platform, Demo.inbox. eexists. vm_compute. reflexivity.
Qed.

Lemma scenario_z :
  job_outcome "/in/z.gif" "/in" "/out" Demo.config Demo.result_z.
Proof.
  exists Sim.world, Sim.platform, Demo.inbox. eexists. vm_compute. reflexivity.
Qed.

Lemma scenario_reachable :
  reachable "/in" "/out" Demo.config 2 Samples.three false Samples.scenario_end.
Proof.
  eapply rtc_l; [by apply step_start|].
  eapply rtc_l; [by apply step_start|].
  eapply rtc_l;
    [by apply (step_settle _ _ _ _ _ 0%nat "/in/x.png" Demo.result_x);
       [|apply scenario_x]|].
  eapply rtc_l;
    [apply (step_race _ _ _ _ _ [0; 1]%nat 0%nat); [done|by left|compute_done]|].
  eapply rtc_l; [by apply step_start|].
  eapply rtc_l;
    [by apply (step_settle _ _ _ _ _ 2%nat "/in/z.gif" Demo.result_z);
       [|apply scenario_z]|].
  eapply rtc_l;
    [by apply (step_settle _ _ _ _ _ 1%nat "/in/y.jpg" Demo.result_y);
       [|apply scenario_y]|].
  eapply rtc_l;
    [apply (step_race _ _ _ _ _ [1; 2]%nat 2%nat);
       [done|by right; left|compute_done]|].
  eapply rtc_l; [by apply step_loop_end|].
  eapply rtc_l; [|apply rtc_refl].
  eapply step_all; [done|]. intros p Hp. by apply elem_of_nil in Hp.
Defined.

(** Two successes and one failure, and the summary lists [z.gif]. *)
Example scenario_summary :
  results Samples.scenario_end
  = [Demo.result_x; Demo.result_z; Demo.result_y]
  ∧ printSummary (results Samples.scenario_end) 2500
    = {| successCount := 2; failCount := 1;
         totalOriginalSize := 150000; totalAvifSize := 37500;
         totalFallbackSize := 75000;
         avifReduction := 75; fallbackReduction := 50;
         elapsed := 2500;
         errorList :=
           [("/in/z.gif",
             Some "Input file contains unsupported image format")] |}.
Proof. split; vm_compute; reflexivity. Qed.

(** A job that fails half way: the primary artifact is written, the
    fallback cannot be; the result is a failure and the primary artifact
    stays on disk. *)
Example picture_half_converted :
  (convertImage Demo.picture "/home/u/input" "/home/u/output" Demo.config
     Demo.home_half).1
  = Returned (failure_result Demo.picture
      "EACCES: permission denied, open /home/u/output/a/b/c.png")
  ∧ Sim.files (convertImage Demo.picture "/home/u/input" "/home/u/output"
                 Demo.config Demo.home_half).2
      !! "/home/u/output/a/b/c.avif"
    = Some {| Sim.size_of := 25000; Sim.format_of := "heif" |}.
Proof. split; vm_compute; reflexivity. Qed.

(** ** The statements at sample inputs *)

Lemma two_started_reachable :
  reachable "/in" "/out" Demo.config 2 Samples.three false Samples.two_started.
Proof.
  eapply rtc_l; [by apply step_start|].
  eapply rtc_l; [by apply step_start|].
  apply rtc_refl.
Defined.

Lemma sliding_window_bound_sample : (in_flight Samples.two_started ≤ 2)%nat.
Proof.
  refine (proj1 (sliding_window_bound "/in" "/out" Demo.config 2 Samples.three
                   false Samples.two_started _ two_started_reachable)).
  lia.
Defined.


Lemma every_job_yields_one_result_sample :
  length (results Samples.scenario_end) = length Samples.three.
Proof.
  destruct (every_job_yields_one_result "/in" "/out" Demo.config 2
              Samples.three false Samples.scenario_end scenario_reachable)
    as (_ & _ & Hend).
  exact (proj1 (Hend eq_refl)).
Defined.

Lemma reduction_percent_rounds_sample : reduction 1006 1000 < 0.
Proof.
  destruct (reduction_percent_rounds Samples.mixed 19) as (_ & _ & Hall).
  destruct (Hall 1006%N 1000%N) as (_ & _ & Hnear & _).
  destruct Hnear as (_ & Hneg & _).
  - vm_compute. split; [reflexivity|discriminate].
  - vm_compute. discriminate.
  - apply Hneg. reflexivity.
Defined.


(** * Further properties of the code *)

(** ** The loop: limits, order and the progress bar *)

(** *** A limit of 0 *)

Lemma start_job_zero s file rest : start_job 0 s file rest = start_job 1 s file rest.
Proof.
  unfold start_job. rewrite !decide_True; [done|..]; rewrite length_app; simpl; lia.
Qed.

Lemma step_zero_one inputRoot outputRoot config s s' :
  step inputRoot outputRoot config 0 s s' ↔ step inputRoot outputRoot config 1 s s'.
Proof.
  split; intros Hstep; destruct Hstep.
  - rewrite start_job_zero. by apply step_start.
  - by eapply step_settle.
  - by eapply step_race.
  - by apply step_loop_end.
  - by eapply step_all.
  - rewrite <- start_job_zero. by apply step_start.
  - by eapply step_settle.
  - by eapply step_race.
  - by apply step_loop_end.
  - by eapply step_all.
Qed.

Lemma steps_zero_one inputRoot outputRoot config s s' :
  rtc (step inputRoot outputRoot config 0) s s'
  ↔ rtc (step inputRoot outputRoot config 1) s s'.
Proof.
  split; induction 1 as [|s s1 s' Hstep _ IH]; try apply rtc_refl;
    (eapply rtc_l; [|exact IH]); by apply step_zero_one.
Qed.

(** X1.  A limit of 0, which [os.cpus().length] can be, behaves exactly
    as a limit of 1: the test [executing.length >= concurrency] comes after
    the push, so the same states are reachable.  At most one job is in
    flight, none when [main] is at the head of the loop, and the run still
    ends with one result for each file. *)
Theorem zero_limit_is_a_limit_of_one inputRoot outputRoot config files silent s :
  (reachable inputRoot outputRoot config 0 files silent s
   ↔ reachable inputRoot outputRoot config 1 files silent s)
  ∧ (reachable inputRoot outputRoot config 0 files silent s →
       (in_flight s ≤ 1)%nat
       ∧ (control s = AtLoop → in_flight s = 0%nat)
       ∧ ∃ s', rtc (step inputRoot outputRoot config 0) s s'
               ∧ control s' = AfterAll
               ∧ length (results s') = length files).
Proof.
  split; [apply steps_zero_one|]. intros Hreach.
  pose proof (sched_inv_reachable _ _ _ _ _ _ _ Hreach) as Hinv.
  pose proof (in_flight_executing _ _ _ _ Hinv) as Hfl.
  pose proof Hinv as [_ _ _ _ Hwin _ _ _ _ Hctl].
  unfold window in *. simpl in Hwin. split_and!.
  - lia.
  - intros Hc. unfold control_inv in Hctl. rewrite Hc in Hctl.
    unfold window in Hctl. simpl in Hctl. lia.
  - destruct (run_to_end inputRoot outputRoot config 0 files silent s Hinv)
      as (s' & Hrun & Hend).
    exists s'. split_and!; [done..|].
    eapply end_results_length; [|done]. by eapply sched_inv_steps.
Qed.

Lemma zero_limit_is_a_limit_of_one_sample :
  (in_flight Runs.one_started ≤ 1)%nat
  ∧ reachable "/in" "/out" Demo.config 1 Samples.three false Runs.one_started.
Proof.
  assert (Hreach : reachable "/in" "/out" Demo.config 0 Samples.three false
                     Runs.one_started).
  { eapply rtc_l; [by apply step_start|]. apply rtc_refl. }
  destruct (zero_limit_is_a_limit_of_one "/in" "/out" Demo.config Samples.three
              false Runs.one_started) as [Hsame Hone].
  split; [exact (proj1 (Hone Hreach))|exact (proj1 Hsame Hreach)].
Defined.

(** *** One job at a time *)

Lemma one_task (m : gmap nat string) p f :
  (size m ≤ 1)%nat → m !! p = Some f → m = {[p := f]}.
Proof.
  intros Hsize Hp.
  assert (Hdel : delete p m = ∅).
  { apply map_size_empty_inv.
    assert (Hs : size (delete p m) = pred (size m)).
    { apply map_size_delete_Some. eauto. }
    lia. }
  by rewrite <- (insert_delete_id m p f Hp), Hdel, insert_empty.
Qed.

Lemma no_task_at_loop N files silent s :
  (N ≤ 1)%nat → sched_inv N files silent s → control s = AtLoop → tasks s = ∅.
Proof.
  intros HN Hinv Hc. pose proof (in_flight_executing _ _ _ _ Hinv) as Hfl.
  destruct Hinv as [_ _ _ _ _ _ _ _ _ Hctl].
  unfold control_inv in Hctl. rewrite Hc in Hctl. unfold window in Hctl.
  apply map_size_empty_inv. unfold in_flight in Hfl. lia.
Qed.

Lemma in_order_step inputRoot outputRoot config N files silent s s' :
  (N ≤ 1)%nat → sched_inv N files silent s →
  (inputPath <$> results s) ++ (map_to_list (tasks s)).*2 ++ remaining s = files →
  step inputRoot outputRoot config N s s' →
  (inputPath <$> results s') ++ (map_to_list (tasks s')).*2 ++ remaining s'
  = files.
Proof.
  intros HN Hinv Hord Hstep.
  destruct Hstep as [s file rest Hc Hrem|s p file r Hp Hr|s raced p Hc _ _
                    |s Hc _|s awaited Hc _]; simpl; try done.
  - rewrite (no_task_at_loop _ _ _ _ HN Hinv Hc) in Hord |- *.
    rewrite insert_empty, map_to_list_singleton.
    by rewrite map_to_list_empty, Hrem in Hord.
  - assert (Hone : tasks s = {[p := file]}).
    { apply one_task; [|done].
      pose proof (in_flight_executing _ _ _ _ Hinv) as Hfl.
      pose proof (inv_window _ _ _ _ Hinv) as Hwin.
      unfold in_flight, window in *. lia. }
    rewrite Hone in Hord |- *.
    rewrite delete_singleton_eq, map_to_list_empty.
    rewrite map_to_list_singleton in Hord. simpl in *.
    rewrite fmap_app, <- app_assoc. simpl.
    by rewrite (job_outcome_inputPath _ _ _ _ _ Hr).
Qed.

Lemma in_order_steps inputRoot outputRoot config N files silent s s' :
  (N ≤ 1)%nat → sched_inv N files silent s →
  (inputPath <$> results s) ++ (map_to_list (tasks s)).*2 ++ remaining s = files →
  rtc (step inputRoot outputRoot config N) s s' →
  (inputPath <$> results s') ++ (map_to_list (tasks s')).*2 ++ remaining s'
  = files.
Proof.
  intros HN Hinv Hord Hrun. induction Hrun as [|s s1 s' Hstep _ IH]; [done|].
  apply IH.
  - by eapply sched_inv_step.
  - by eapply in_order_step.
Qed.

(** X2.  With a limit of at most 1 the jobs run one after the other: the
    input paths of the results, then the file of the job in flight, then the
    files not yet reached are the file list in its order, and at the end
    the results are in the order of the files. *)
Theorem one_at_a_time_keeps_input_order
    inputRoot outputRoot config (N : nat) files silent s :
  (N ≤ 1)%nat →
  reachable inputRoot outputRoot config N files silent s →
  (inputPath <$> results s) ++ (map_to_list (tasks s)).*2 ++ remaining s = files
  ∧ (control s = AfterAll → inputPath <$> results s = files).
Proof.
  intros HN Hreach.
  assert (Hord : (inputPath <$> results s) ++ (map_to_list (tasks s)).*2
                 ++ remaining s = files).
  { eapply in_order_steps; [done|apply sched_inv_init| |done].
    simpl. by rewrite map_to_list_empty. }
  split; [done|]. intros Hend.
  pose proof (sched_inv_reachable _ _ _ _ _ _ _ Hreach) as Hinv.
  rewrite (end_tasks_empty _ _ _ _ Hinv Hend), map_to_list_empty in Hord.
  destruct Hinv as [_ _ _ _ _ _ _ _ _ Hctl].
  unfold control_inv in Hctl. rewrite Hend in Hctl. destruct Hctl as [Hrem _].
  by rewrite Hrem, !app_nil_r in Hord.
Qed.

Lemma one_by_one_reachable :
  reachable "/in" "/out" Demo.config 1 Samples.three true Runs.one_by_one.
Proof.
  eapply rtc_l; [by apply step_start|].
  eapply rtc_l;
    [by apply (step_settle _ _ _ _ _ 0%nat "/in/x.png" Demo.result_x);
       [|apply scenario_x]|].
  eapply rtc_l;
    [apply (step_race _ _ _ _ _ [0]%nat 0%nat); [done|by left|compute_done]|].
  eapply rtc_l; [by apply step_start|].
  eapply rtc_l;
    [by apply (step_settle _ _ _ _ _ 1%nat "/in/y.jpg" Demo.result_y);
       [|apply scenario_y]|].
  eapply rtc_l;
    [apply (step_race _ _ _ _ _ [1]%nat 1%nat); [done|by left|compute_done]|].
  eapply rtc_l; [by apply step_start|].
  eapply rtc_l;
    [by apply (step_settle _ _ _ _ _ 2%nat "/in/z.gif" Demo.result_z);
       [|apply scenario_z]|].
  eapply rtc_l;
    [apply (step_race _ _ _ _ _ [2]%nat 2%nat); [done|by left|compute_done]|].
  eapply rtc_l; [by apply step_loop_end|].
  eapply rtc_l; [|apply rtc_refl].
  eapply step_all; [done|]. intros p Hp. by apply elem_of_nil in Hp.
Defined.

Lemma one_at_a_time_keeps_input_order_sample :
  inputPath <$> results Runs.one_by_one = Samples.three.
Proof.
  refine (proj2 (one_at_a_time_keeps_input_order "/in" "/out" Demo.config 1
                   Samples.three true Runs.one_by_one _ one_by_one_reachable)
            eq_refl).
  lia.
Defined.

(** *** The callback's splice *)

Lemma filter_ne_absent (p : nat) (l : list nat) :
  p ∉ l → filter (λ q, q ≠ p) l = l.
Proof.
  induction l as [|x l IH]; [done|].
  intros [Hx Hl]%not_elem_of_cons.
  rewrite filter_cons_True by done. by rewrite IH.
Qed.

(** X3.  When the callback of a started job runs, its promise is in
    [executing]: [indexOf] does not return -1, and the splice removes that
    promise and no other, so the array loses exactly one element. *)
Theorem settle_removes_its_own_promise
    inputRoot outputRoot config (N : nat) files silent s p file r :
  reachable inputRoot outputRoot config N files silent s →
  tasks s !! p = Some file →
  0 ≤ indexOf p (executing s)
  ∧ executing (settle_job s p r) = filter (λ q, q ≠ p) (executing s)
  ∧ (p ∉ executing (settle_job s p r))
  ∧ (∀ q, q ≠ p → q ∈ executing s → q ∈ executing (settle_job s p r))
  ∧ (length (executing s) = S (length (executing (settle_job s p r))))%nat.
Proof.
  intros Hreach Hp.
  pose proof (sched_inv_reachable _ _ _ _ _ _ _ Hreach) as Hinv.
  pose proof (inv_nodup _ _ _ _ Hinv) as Hnd.
  assert (Hin : p ∈ executing s) by (rewrite (inv_dom _ _ _ _ Hinv); eauto).
  destruct (splice1_indexOf p (executing s) Hin) as (l1 & l2 & Hl & Hp1 & Hs).
  assert (Hp2 : p ∉ l2).
  { rewrite Hl in Hnd. apply NoDup_app in Hnd as (_ & _ & Hnd).
    by apply NoDup_cons in Hnd as [? _]. }
  assert (Hfilter : filter (λ q, q ≠ p) (executing s) = l1 ++ l2).
  { rewrite Hl, filter_app, filter_cons_False by (intros ?; done).
    by rewrite !filter_ne_absent. }
  simpl. rewrite Hs, Hfilter. split_and!.
  - rewrite Hl, indexOf_middle by done. lia.
  - done.
  - rewrite elem_of_app. by intros [?|?].
  - intros q Hq. rewrite Hl, !elem_of_app, elem_of_cons.
    intros [?|[?|?]]; auto. done.
  - rewrite Hl, !length_app. simpl. lia.
Qed.

Lemma settle_removes_its_own_promise_sample :
  executing (settle_job Samples.two_started 0 Demo.result_x) = [1%nat].
Proof.
  refine (proj1 (proj2 (settle_removes_its_own_promise "/in" "/out" Demo.config
                          2 Samples.three false Samples.two_started 0%nat
                          "/in/x.png" Demo.result_x two_started_reachable _))).
  reflexivity.
Defined.

(** *** The progress bar *)

(** X4.  There is a progress bar exactly when [main] is not silent; its
    value never exceeds its total, the number of files, and is that total
    when the loop is over. *)
Theorem progress_bar_reaches_its_total
    inputRoot outputRoot config (N : nat) files silent s :
  reachable inputRoot outputRoot config N files silent s →
  (bar s = None ↔ silent = true)
  ∧ (∀ n, bar s = Some n → (n ≤ length files)%nat)
  ∧ (control s = AfterAll → silent = false → bar s = Some (length files)).
Proof.
  intros Hreach.
  pose proof (sched_inv_reachable _ _ _ _ _ _ _ Hreach) as Hinv.
  pose proof (inv_bar _ _ _ _ Hinv) as Hbar.
  pose proof (inv_jobs _ _ _ _ Hinv) as Hjobs.
  apply Permutation_length in Hjobs.
  rewrite !length_app, length_fmap in Hjobs.
  split_and!.
  - rewrite Hbar. by destruct silent.
  - intros n. rewrite Hbar. destruct silent; [done|]. intros [= <-]. lia.
  - intros Hend ->. rewrite Hbar. f_equal.
    by eapply end_results_length.
Qed.

Lemma progress_bar_reaches_its_total_sample :
  bar Samples.scenario_end = Some 3%nat.
Proof.
  refine (proj2 (proj2 (progress_bar_reaches_its_total "/in" "/out" Demo.config
                          2 Samples.three false Samples.scenario_end
                          scenario_reachable)) eq_refl eq_refl).
Defined.

(** *** Filling the window *)

Section Filling.
Variables (inputRoot outputRoot : string) (config : Config).
Variable N : nat.
Variables (files : list string) (silent : bool).

Lemma created_step s s' :
  step inputRoot outputRoot config N s s' →
  (created s + length (remaining s) = length files)%nat →
  (created s' + length (remaining s') = length files)%nat.
Proof.
  intros Hstep Hs. destruct Hstep as [s file rest _ Hrem| | | |]; simpl; try done.
  rewrite Hrem in Hs. simpl in Hs. lia.
Qed.

Lemma created_remaining s :
  reachable inputRoot outputRoot config N files silent s →
  (created s + length (remaining s) = length files)%nat.
Proof.
  unfold reachable. intros Hrun.
  assert (Hsteps : ∀ s1 s2,
            rtc (step inputRoot outputRoot config N) s1 s2 →
            (created s1 + length (remaining s1) = length files)%nat →
            (created s2 + length (remaining s2) = length files)%nat).
  { induction 1; eauto using created_step. }
  by apply (Hsteps _ _ Hrun).
Qed.

End Filling.

(** *** The order of [main] and the callbacks *)

Section TurnFacts.
Variables (inputRoot outputRoot : string) (config : Config).
Variable N : nat.
Variables (files : list string) (silent : bool).

Lemma turn_step s s' :
  turn inputRoot outputRoot config N s s' →
  step inputRoot outputRoot config N s s'.
Proof. destruct 1; econstructor; eauto. Qed.

Lemma run_reachable s :
  run inputRoot outputRoot config N files silent s →
  reachable inputRoot outputRoot config N files silent s.
Proof.
  unfold run, reachable. induction 1 as [|s1 s2 s3 H _ IH]; [apply rtc_refl|].
  eapply rtc_l; [by apply turn_step|done].
Qed.

Lemma turn_progress s :
  sched_inv N files silent s → control s ≠ AfterAll →
  ∃ s', turn inputRoot outputRoot config N s s'.
Proof.
  intros Hinv Hc. pose proof Hinv as [Hnd Hdom _ _ _ _ _ _ _ Hctl].
  unfold control_inv in Hctl.
  assert (Hsettle : ∀ p, suspended s → p ∈ executing s →
            ∃ s', turn inputRoot outputRoot config N s s').
  { intros p Hs [file Hp]%Hdom.
    destruct (job_outcome_exists file inputRoot outputRoot config) as [r Hr].
    eexists. by eapply turn_settle. }
  assert (Hsusp : control s ≠ AtLoop → suspended s).
  { unfold suspended. by destruct (control s). }
  destruct (control s) as [|raced|awaited|] eqn:Hcs; [| | |done].
  - destruct (remaining s) as [|file rest] eqn:Hrem.
    + eexists. by apply turn_loop_end.
    + eexists. by eapply turn_start.
  - destruct Hctl as (Hne & _ & _ & _ & Hcase).
    destruct raced as [|p raced]; [done|].
    destruct (Hcase p) as [Hp|Hp]; [by left| |by eapply Hsettle; auto].
    eexists. eapply turn_race; [done| |done]. by left.
  - destruct Hctl as (_ & _ & Hcase).
    destruct (decide (Forall (λ p, p ∈ fulfilled s) awaited)) as [Hall|Hnot].
    + eexists. eapply turn_all; [done|]. by apply Forall_forall.
    + apply not_Forall_Exists in Hnot; [|apply _].
      apply Exists_exists in Hnot as (p & Hp & Hpf).
      destruct (Hcase p Hp) as [?|?]; [done|by eapply Hsettle; auto].
Qed.

Lemma turns_to_end s :
  sched_inv N files silent s →
  ∃ s', rtc (turn inputRoot outputRoot config N) s s' ∧ control s' = AfterAll.
Proof.
  remember (measure s) as n eqn:Hn. revert s Hn.
  induction (lt_wf n) as [n _ IH]. intros s -> Hinv.
  assert (Hcase : control s = AfterAll ∨ control s ≠ AfterAll).
  { destruct (control s); auto. }
  destruct Hcase as [Hc|Hc].
  - exists s. by split.
  - destruct (turn_progress s Hinv Hc) as [s1 Hturn].
    pose proof (turn_step _ _ Hturn) as Hstep.
    destruct (IH (measure s1)
                (step_measure _ _ _ _ _ _ _ _ Hinv Hstep) s1 eq_refl)
      as (s' & Hrun & Hend).
    { by eapply sched_inv_step. }
    exists s'. split; [by eapply rtc_l|done].
Qed.

(** While fewer jobs are started than the window holds, no job has
    completed and [main] has not been suspended. *)
Lemma filling s :
  run inputRoot outputRoot config N files silent s →
  (created s < Nat.min (window N) (length files))%nat →
  results s = [] ∧ control s = AtLoop.
Proof.
  unfold run. revert s.
  apply (rtc_ind_r (λ s, (created s < Nat.min (window N) (length files))%nat
                         → results s = [] ∧ control s = AtLoop)); [done|].
  intros s1 s2 Hrun Hturn IH Hlt.
  pose proof (run_reachable _ Hrun) as Hreach.
  pose proof (sched_inv_reachable _ _ _ _ _ _ _ Hreach) as Hinv.
  pose proof (in_flight_executing _ _ _ _ Hinv) as Hlen.
  pose proof (jobs_accounted _ _ _ _ _ _ _ Hreach) as Hjobs.
  pose proof (created_remaining _ _ _ _ _ _ _ Hreach) as Hcr.
  assert (Hmono : (created s1 ≤ created s2)%nat).
  { destruct Hturn; simpl; lia. }
  destruct IH as [Hres Hc]; [lia|].
  rewrite Hres in Hjobs. simpl in Hjobs.
  destruct Hturn as [s file rest _ Hrem|s p file r Hs _ _|s raced p Hc' _ _
                    |s _ Hrem|s awaited Hc' _]; simpl in *.
  - split; [done|]. rewrite length_app. simpl.
    rewrite decide_False; [done|]. unfold window in Hlt. lia.
  - unfold suspended in Hs. by rewrite Hc in Hs.
  - by rewrite Hc in Hc'.
  - rewrite Hrem in Hcr. simpl in Hcr. lia.
  - by rewrite Hc in Hc'.
Qed.

Lemma full_window s :
  run inputRoot outputRoot config N files silent s →
  (Nat.min (window N) (length files) ≤ created s)%nat →
  ∃ s0, run inputRoot outputRoot config N files silent s0
        ∧ rtc (turn inputRoot outputRoot config N) s0 s
        ∧ created s0 = Nat.min (window N) (length files)
        ∧ in_flight s0 = Nat.min (window N) (length files)
        ∧ results s0 = [].
Proof.
  unfold run. revert s.
  apply (rtc_ind_r
           (λ s, (Nat.min (window N) (length files) ≤ created s)%nat →
                 ∃ s0, rtc (turn inputRoot outputRoot config N)
                         (sched_init files silent) s0
                       ∧ rtc (turn inputRoot outputRoot config N) s0 s
                       ∧ created s0 = Nat.min (window N) (length files)
                       ∧ in_flight s0 = Nat.min (window N) (length files)
                       ∧ results s0 = [])).
  - intros Hle. exists (sched_init files silent). simpl in *.
    split_and!; [apply rtc_refl|apply rtc_refl|lia| |done].
    unfold in_flight. simpl. rewrite map_size_empty. lia.
  - intros s1 s2 Hrun Hturn IH Hle.
    destruct (decide (Nat.min (window N) (length files) ≤ created s1)%nat)
      as [Hle1|Hlt1].
    + destruct (IH Hle1) as (s0 & H0 & H01 & Hfull).
      exists s0. split_and!; [done|by eapply rtc_r|apply Hfull..].
    + destruct (filling s1 Hrun) as [Hres Hc]; [lia|].
      assert (Hrun2 : run inputRoot outputRoot config N files silent s2)
        by (by eapply rtc_r).
      pose proof (run_reachable _ Hrun2) as Hreach.
      pose proof (jobs_accounted _ _ _ _ _ _ _ Hreach) as Hjobs.
      pose proof (created_remaining _ _ _ _ _ _ _ Hreach) as Hcr.
      assert (Hs2 : created s2 = S (created s1) ∧ results s2 = []).
      { destruct Hturn; simpl in *; [done|exfalso; lia..]. }
      destruct Hs2 as [Hcs Hrs]. rewrite Hrs in Hjobs. simpl in Hjobs.
      exists s2. split_and!; [done|apply rtc_refl|lia|lia|done].
Qed.

End TurnFacts.

Lemma no_race_below_the_limit inputRoot outputRoot config N files silent s raced :
  (length files < N)%nat →
  reachable inputRoot outputRoot config N files silent s →
  control s ≠ AwaitRace raced.
Proof.
  intros HM Hreach Hc.
  pose proof (sched_inv_reachable _ _ _ _ _ _ _ Hreach) as Hinv.
  pose proof (created_remaining _ _ _ _ _ _ _ Hreach) as Hcreated.
  pose proof Hinv as [_ _ Hfresh Hful _ _ _ _ _ Hctl].
  unfold control_inv in Hctl. rewrite Hc in Hctl.
  destruct Hctl as (_ & Hnd & Hlen & _ & Hcase).
  assert (Hsub : raced ⊆ seq 0 (created s)).
  { intros p Hp. apply elem_of_seq. split; [lia|]. simpl.
    destruct (Hcase p Hp) as [Hf|He].
    - by destruct (Hful p Hf).
    - by apply Hfresh. }
  apply NoDup_submseteq in Hsub; [|done].
  apply submseteq_length in Hsub. rewrite length_seq in Hsub.
  unfold window in Hlen. lia.
Qed.

(** X5.  In the order in which JavaScript runs [main] and the callbacks, the
    bound of the window is attained in every run.  While fewer jobs are
    started than the window holds ([max N 1], or all the files when they
    are fewer), no job has completed and [main] has not been suspended;
    once that many are started, the run has passed through a state with
    exactly that many jobs in flight and no result yet.  With fewer files
    than the limit [main] never waits in [Promise.race].  Every such run
    is also a run of [step], to which the bound of the window applies, and
    it can be continued to the end of the loop. *)
Theorem the_window_fills_up_to_the_limit
    inputRoot outputRoot config (N : nat) files silent s :
  run inputRoot outputRoot config N files silent s →
  reachable inputRoot outputRoot config N files silent s
  ∧ ((created s < Nat.min (window N) (length files))%nat →
       results s = [] ∧ control s = AtLoop ∧ in_flight s = created s)
  ∧ ((Nat.min (window N) (length files) ≤ created s)%nat →
       ∃ s0, run inputRoot outputRoot config N files silent s0
             ∧ rtc (turn inputRoot outputRoot config N) s0 s
             ∧ created s0 = Nat.min (window N) (length files)
             ∧ in_flight s0 = Nat.min (window N) (length files)
             ∧ results s0 = [])
  ∧ ((length files < N)%nat → ∀ raced, control s ≠ AwaitRace raced)
  ∧ ∃ s', rtc (turn inputRoot outputRoot config N) s s'
          ∧ control s' = AfterAll.
Proof.
  intros Hrun. pose proof (run_reachable _ _ _ _ _ _ _ Hrun) as Hreach.
  split_and!.
  - done.
  - intros Hlt. destruct (filling _ _ _ _ _ _ _ Hrun Hlt) as [Hres Hc].
    split_and!; [done..|].
    pose proof (jobs_accounted _ _ _ _ _ _ _ Hreach) as Hjobs.
    pose proof (created_remaining _ _ _ _ _ _ _ Hreach) as Hcr.
    rewrite Hres in Hjobs. simpl in Hjobs. lia.
  - by apply full_window.
  - intros HM raced. by eapply no_race_below_the_limit.
  - by eapply turns_to_end, sched_inv_reachable.
Qed.

Lemma scenario_run :
  run "/in" "/out" Demo.config 2 Samples.three false Samples.scenario_end.
Proof.
  eapply rtc_l; [by apply turn_start|].
  eapply rtc_l; [by apply turn_start|].
  eapply rtc_l;
    [by apply (turn_settle _ _ _ _ _ 0%nat "/in/x.png" Demo.result_x);
       [| |apply scenario_x]|].
  eapply rtc_l;
    [apply (turn_race _ _ _ _ _ [0; 1]%nat 0%nat); [done|by left|compute_done]|].
  eapply rtc_l; [by apply turn_start|].
  eapply rtc_l;
    [by apply (turn_settle _ _ _ _ _ 2%nat "/in/z.gif" Demo.result_z);
       [| |apply scenario_z]|].
  eapply rtc_l;
    [by apply (turn_settle _ _ _ _ _ 1%nat "/in/y.jpg" Demo.result_y);
       [| |apply scenario_y]|].
  eapply rtc_l;
    [apply (turn_race _ _ _ _ _ [1; 2]%nat 2%nat);
       [done|by right; left|compute_done]|].
  eapply rtc_l; [by apply turn_loop_end|].
  eapply rtc_l; [|apply rtc_refl].
  eapply turn_all; [done|]. intros p Hp. by apply elem_of_nil in Hp.
Defined.

Lemma the_window_fills_up_to_the_limit_sample :
  ∃ s0, run "/in" "/out" Demo.config 2 Samples.three false s0
        ∧ rtc (turn "/in" "/out" Demo.config 2) s0 Samples.scenario_end
        ∧ created s0 = 2%nat ∧ in_flight s0 = 2%nat ∧ results s0 = [].
Proof.
  destruct (the_window_fills_up_to_the_limit "/in" "/out" Demo.config 2
              Samples.three false Samples.scenario_end scenario_run)
    as (_ & _ & Hfull & _).
  apply Hfull. simpl. lia.
Defined.

(** ** [main]: endings, prompts and messages *)

(** *** How [main] ends *)

Section Endings.
Context {W : Type} `{P : !Platform W}.

Lemma main_run_exit options (w : W) c w' console :
  main_before_loop options (w, []) = (Returned (Exit c), (w', console)) →
  ∀ ending, main_run options w ending
            ↔ ending = {| exit_status := c; printed := console |}.
Proof.
  intros Hbefore ending. split.
  - intros Hrun.
    destruct Hrun as [c0 w0 console0 H|e w0 console0 H
                     |? ? ? ? ? ? w0 console0 s endTime H];
      rewrite Hbefore in H;
      first [discriminate H|by injection H as <- <- <-].
  - intros ->. by eapply run_exit.
Qed.

Lemma main_run_total options (w : W) : ∃ ending, main_run options w ending.
Proof.
  destruct (main_before_loop options (w, [])) as [[[c|ready]|e] [w' console]]
    eqn:Hbefore.
  - eexists. by eapply run_exit.
  - destruct ready as [[[[[config inputPath] outputPath] files] startTime] N].
    destruct (run_to_end inputPath outputPath config N files (cfg_silent config)
                (sched_init files (cfg_silent config)))
      as (s & Hrun & Hend); [apply sched_inv_init|].
    eexists. eapply (run_completed _ _ _ _ _ _ _ _ _ _ s 0); done.
  - eexists. by eapply run_rejected.
Qed.

End Endings.

Section Stretches.
Context {W : Type} `{P : !Platform W}.

Lemma lift_inv {A} (m : io W A) (w : W) c o w' c' :
  lift m (w, c) = (o, (w', c')) ↔ m w = (o, w') ∧ c' = c.
Proof.
  unfold lift. destruct (m w) as [o0 w0]. split.
  - by intros [= -> -> ->].
  - by intros [[= -> ->] ->].
Qed.

Lemma unless_silent_inv config line (w : W) c o w' c' :
  unless_silent config line (w, c) = (o, (w', c')) →
  o = Returned tt ∧ w' = w
  ∧ c' = c ++ (if cfg_silent config then [] else [line]).
Proof.
  unfold unless_silent. destruct (cfg_silent config).
  - intros [= <- <- <-]. by rewrite app_nil_r.
  - by intros [= <- <- <-].
Qed.

(** The check of the input folder: either it is accessible, or the error
    message is printed. *)
Lemma input_check_inv inputPath (w : W) c found w' c' :
  try_catch (lift (ensureDirectory inputPath false);; io_ret true)
    (λ _, console_log (InputFolderMissing inputPath);; io_ret false) (w, c)
  = (Returned found, (w', c')) →
  (found = true ∧ fs_access inputPath w = (Returned tt, w') ∧ c' = c)
  ∨ (found = false ∧ (∃ e, fs_access inputPath w = (Thrown e, w'))
     ∧ c' = c ++ [InputFolderMissing inputPath]).
Proof.
  unfold try_catch, io_bind, lift, ensureDirectory, try_catch, throw, io_ret,
    console_log.
  destruct (fs_access inputPath w) as [[[]|e] w1].
  - intros [= <- <- <-]. by left.
  - intros [= <- <- <-]. right. eauto.
Qed.

Lemma main_discover_exit config (w : W) c code w' c' :
  main_discover config (w, c) = (Returned (Exit code), (w', c')) →
  code = 1 ∧ ∃ inputPath, c' = c ++ [InputFolderMissing inputPath].
Proof.
  unfold main_discover. intros H.
  apply bind_returned in H as (cwd1 & [w1 c1] & [_ ->]%lift_inv & H).
  apply bind_returned in H as (cwd2 & [w2 c2] & [_ ->]%lift_inv & H).
  apply bind_returned in H as (found & [w3 c3] & Hcheck & H).
  apply input_check_inv in Hcheck
    as [(-> & _ & ->)|(-> & _ & ->)]; simpl in H.
  - apply bind_returned in H as (? & ? & _ & H).
    apply bind_returned in H as (? & ? & _ & H). discriminate H.
  - injection H as <- <- <-. eauto.
Qed.

Lemma main_prepare_exit interactive config outputPath files (w : W) c code w' c' :
  main_prepare interactive config outputPath files (w, c)
  = (Returned (Exit code), (w', c')) →
  code = 0 ∧ ∃ before final, c' = before ++ [final]
                             ∧ (final = NoImagesFound ∨ final = Cancelled).
Proof.
  unfold main_prepare. case_decide as Hlen.
  - intros [= <- <- <-]. split; [done|]. eexists _, _. split; [done|]. by left.
  - intros H.
    apply bind_returned in H as (? & [w1 c1] & _ & H).
    apply bind_returned in H as (confirmed & [w2 c2] & _ & H).
    destruct confirmed; simpl in H.
    + apply bind_returned in H as (? & ? & _ & H).
      apply bind_returned in H as (? & ? & _ & H). discriminate H.
    + injection H as <- <- <-. split; [done|]. eexists _, _.
      split; [done|]. by right.
Qed.

Lemma main_before_loop_exit options (w : W) c code w' c' :
  main_before_loop options (w, c) = (Returned (Exit code), (w', c')) →
  ∃ before final,
    c' = before ++ [final]
    ∧ ((code = 1 ∧ ∃ inputPath, final = InputFolderMissing inputPath)
       ∨ (code = 0 ∧ (final = NoImagesFound ∨ final = Cancelled))).
Proof.
  unfold main_before_loop. intros H.
  apply bind_returned in H as (config & [w1 c1] & _ & H).
  apply bind_returned in H as (discovered & [w2 c2] & Hd & H).
  destruct discovered as [k|[[inputPath outputPath] files]].
  - injection H as <- <- <-.
    apply main_discover_exit in Hd as (-> & inputPath & ->). eauto 10.
  - apply bind_returned in H as (ready & [w3 c3] & Hp & H).
    destruct ready as [k|[]].
    + injection H as <- <- <-.
      apply main_prepare_exit in Hp as (-> & before & final & -> & Hfinal).
      eauto 10.
    + apply bind_returned in H as (? & ? & _ & H).
      apply bind_returned in H as (? & ? & _ & H). discriminate H.
Qed.

End Stretches.

(** X6.  [main] always ends, and the last message it prints tells the exit
    status: 1 after the notice of a missing input folder or the report of an
    unexpected error, 0 after the notice that no image was found, after a
    cancellation and after the summary.  A run that prints a summary ends
    with status 0, however many of its jobs failed. *)
Theorem exit_status_ignores_failed_jobs {W} (P : Platform W) options (w : W) :
  (∃ ending, main_run options w ending)
  ∧ ∀ ending, main_run options w ending →
      (∃ before final,
         printed ending = before ++ [final]
         ∧ ((exit_status ending = 1 ∧ is_error_line final = true)
            ∨ (exit_status ending = 0
               ∧ (final = NoImagesFound ∨ final = Cancelled
                  ∨ ∃ summary, final = SummaryLines summary))))
      ∧ ∀ summary, SummaryLines summary ∈ printed ending →
          exit_status ending = 0.
Proof.
  split; [apply main_run_total|]. intros ending Hrun.
  destruct Hrun as [c w' console H|e w' console H
                   |config inputPath outputPath files startTime N
                      w' console s endTime H Hreach Hend]; simpl.
  - split.
    + apply main_before_loop_exit in H
        as (before & final & -> & [(-> & ip & ->)|(-> & Hfinal)]).
      * exists before, (InputFolderMissing ip). split; [done|]. by left.
      * exists before, final. split; [done|]. right. split; [done|].
        destruct Hfinal; auto.
    + intros summary Hin.
      by apply no_summary_before_loop with (summary := summary) in H.
  - split.
    + exists console, (UnexpectedError (message e)). split; [done|]. by left.
    + intros summary [Hin|Hin]%elem_of_app.
      * by apply no_summary_before_loop with (summary := summary) in H.
      * by apply list_elem_of_singleton in Hin.
  - split; [|done]. eexists console, _. split; [done|]. right. eauto.
Qed.

(** *** A missing input folder *)

(** X7.  When [fs.access] refuses the resolved input folder, [main] prints
    the notice with that path, in silent mode too, and exits with status 1
    in the world the refused access left: the run stops there, with no
    search, no confirmation and no reset. *)
Theorem missing_input_folder_exits_1 {W} (P : Platform W)
    options (w : W) config w1 c1 cwd1 w2 cwd2 w3 e w4 :
  main_config options (w, []) = (Returned config, (w1, c1)) →
  process_cwd w1 = (Returned cwd1, w2) →
  process_cwd w2 = (Returned cwd2, w3) →
  fs_access (NodePath.resolve cwd1 (cfg_input config)) w3 = (Thrown e, w4) →
  let notice := InputFolderMissing (NodePath.resolve cwd1 (cfg_input config)) in
  main_before_loop options (w, []) = (Returned (Exit 1), (w4, c1 ++ [notice]))
  ∧ ∀ ending, main_run options w ending
              ↔ ending = {| exit_status := 1; printed := c1 ++ [notice] |}.
Proof.
  intros Hc Hcwd1 Hcwd2 Haccess notice.
  assert (Hbefore : main_before_loop options (w, [])
                    = (Returned (Exit 1), (w4, c1 ++ [notice]))).
  { unfold main_before_loop, io_bind at 1. rewrite Hc.
    unfold io_bind at 1, main_discover.
    unfold io_bind at 1, lift at 1. rewrite Hcwd1.
    unfold io_bind at 1, lift at 1. rewrite Hcwd2.
    unfold io_bind at 1, try_catch at 1, io_bind at 1, lift at 1,
      ensureDirectory, try_catch at 1.
    rewrite Haccess. reflexivity. }
  split; [done|]. exact (main_run_exit _ _ _ _ _ Hbefore).
Qed.

Lemma missing_input_folder_exits_1_sample :
  main_run Demo.flags Runs.home_bare
    {| exit_status := 1; printed := [InputFolderMissing "/home/u/input"] |}.
Proof.
  refine (proj2 (proj2 (missing_input_folder_exits_1 Sim.platform Demo.flags
                          Runs.home_bare (config_of_options Demo.flags)
                          Runs.home_bare [] "/home/u" Runs.home_bare "/home/u"
                          Runs.home_bare
                          (Sim.system_error
                             "ENOENT: no such file or directory, access /home/u/input"
                             "ENOENT")
                          Runs.home_bare _ _ _ _) _) eq_refl);
    reflexivity.
Defined.

(** *** The user declines *)

(** X8.  In interactive mode without [--yes], when the user declines the
    confirmation, [main] prints the cancellation and exits with status 0 in
    the world the prompt left: the output folder is not reset and no job is
    started. *)
Theorem declined_confirmation_leaves_output_alone {W} (P : Platform W)
    options (w : W) config w1 c1 inputPath outputPath files w2 c2 w3 :
  main_config options (w, []) = (Returned config, (w1, c1)) →
  main_discover config (w1, c1)
    = (Returned (Continue (inputPath, outputPath, files)), (w2, c2)) →
  files ≠ [] →
  isInteractive options = true →
  cfg_yes config = false →
  inquirer_confirm (length files) w2 = (Returned false, w3) →
  let console :=
    c2 ++ (if cfg_silent config then [] else [Detected (length files)])
       ++ [Cancelled] in
  main_before_loop options (w, []) = (Returned (Exit 0), (w3, console))
  ∧ ∀ ending, main_run options w ending
              ↔ ending = {| exit_status := 0; printed := console |}.
Proof.
  intros Hc Hd Hfiles Hint Hyes Hconfirm console.
  assert (Hbefore : main_before_loop options (w, [])
                    = (Returned (Exit 0), (w3, console))).
  { unfold main_before_loop, io_bind at 1. rewrite Hc.
    unfold io_bind at 1. rewrite Hd.
    unfold io_bind at 1, main_prepare.
    rewrite decide_False by (by destruct files).
    rewrite Hint, Hyes. simpl negb. simpl andb. cbv iota.
    unfold console, unless_silent.
    destruct (cfg_silent config);
      unfold io_bind, io_ret, console_log, lift; rewrite Hconfirm; simpl.
    - done.
    - by rewrite <- app_assoc. }
  split; [done|]. exact (main_run_exit _ _ _ _ _ Hbefore).
Qed.

Lemma declined_confirmation_leaves_output_alone_sample :
  main_before_loop Runs.no_flags (Runs.home_declining, [])
  = (Returned (Exit 0),
     (Runs.home_declining,
      [InteractiveBanner; Searching "/home/u/input"] ++ [Detected 1]
        ++ [Cancelled])).
Proof.
  refine (proj1 (declined_confirmation_leaves_output_alone Sim.platform
                   Runs.no_flags Runs.home_declining
                   (merge_answers (config_of_options Runs.no_flags) Demo.prompt)
                   Runs.home_declining [InteractiveBanner]
                   "/home/u/input" "/home/u/output" ["/home/u/input/a/b/c.png"]
                   Runs.home_declining
                   [InteractiveBanner; Searching "/home/u/input"]
                   Runs.home_declining _ _ _ _ _ _)).
  - reflexivity.
  - vm_compute. reflexivity.
  - discriminate.
  - reflexivity.
  - reflexivity.
  - reflexivity.
Defined.

(** *** When the prompts are consulted *)

Section Prompts.
Context {W : Type} (P : Platform W).
Variables (ask : io W Answers) (confirm : nat → io W bool).




End Prompts.



(** *** The answers of the prompt *)

(** X10.  In interactive mode the answers of the prompt replace input,
    output and quality: the configuration is the same whatever [--quality]
    was given on the command line; effort, pattern, yes, silent and resize
    come from the options.  The banner is printed first, and a prompt that
    throws makes [main_config] throw after it. *)
Theorem interactive_answers_replace_flags {W} (P : Platform W)
    options (w : W) c :
  isInteractive options = true →
  (∀ quality,
     main_config (set_quality quality options) (w, c)
     = main_config options (w, c))
  ∧ (∀ answers w',
       inquirer_ask w = (Returned answers, w') →
       ∃ config,
         main_config options (w, c)
         = (Returned config, (w', c ++ [InteractiveBanner]))
         ∧ cfg_input config = ans_input answers
         ∧ cfg_output config = ans_output answers
         ∧ cfg_quality config = ans_quality answers
         ∧ cfg_effort config = or_number (opt_effort options) 4
         ∧ cfg_pattern config
           = or_string (opt_pattern options) "*.{png,jpg,jpeg,webp}"
         ∧ cfg_yes config = opt_yes options
         ∧ cfg_silent config = opt_silent options
         ∧ cfg_resize config = opt_resize options)
  ∧ (∀ e w',
       inquirer_ask w = (Thrown e, w') →
       main_config options (w, c) = (Thrown e, (w', c ++ [InteractiveBanner]))).
Proof.
  intros Hint. split_and!.
  - intros quality. unfold main_config.
    assert (Hsame : isInteractive (set_quality quality options)
                    = isInteractive options) by done.
    rewrite Hsame, Hint. unfold io_bind, console_log, lift.
    by destruct (inquirer_ask w) as [[answers|e] w'].
  - intros answers w' Hask. eexists. split.
    + unfold main_config. rewrite Hint.
      unfold io_bind, console_log, lift. rewrite Hask. reflexivity.
    + simpl. rewrite !orb_false_r. done.
  - intros e w' Hask. unfold main_config. rewrite Hint.
    unfold io_bind, console_log, lift. by rewrite Hask.
Qed.

Lemma interactive_answers_replace_flags_sample :
  main_config (set_quality (Some (Num 95)) Runs.no_flags) (Demo.home, [])
  = main_config Runs.no_flags (Demo.home, []).
Proof.
  apply (proj1 (interactive_answers_replace_flags Sim.platform Runs.no_flags
                  Demo.home [] eq_refl)).
Defined.

Example prompted_quality_wins :
  (main_config (set_quality (Some (Num 95)) Runs.no_flags) (Demo.home, [])).1
  = Returned (merge_answers (config_of_options Runs.no_flags) Demo.prompt)
  ∧ cfg_quality (merge_answers (config_of_options Runs.no_flags) Demo.prompt)
    = 50.
Proof. split; reflexivity. Qed.

(** ** What [main] announces *)

Section Announced.
Context {W : Type} `{P : !Platform W}.

Lemma main_config_silent options (w : W) c config w' c' :
  main_config options (w, c) = (Returned config, (w', c')) →
  cfg_silent config = opt_silent options.
Proof.
  unfold main_config. destruct (isInteractive options).
  - intros H. apply bind_returned in H as (? & ? & _ & H).
    apply bind_returned in H as (answers & ? & _ & H).
    injection H as <- _. simpl. apply orb_false_r.
  - intros [= <- _ _]. simpl. apply orb_false_r.
Qed.

Lemma main_discover_continue config (w : W) c inputPath outputPath files w' c' :
  main_discover config (w, c)
  = (Returned (Continue (inputPath, outputPath, files)), (w', c')) →
  c' = c ++ (if cfg_silent config then [] else [Searching inputPath]).
Proof.
  unfold main_discover. intros H.
  apply bind_returned in H as (cwd1 & [w1 c1] & [_ ->]%lift_inv & H).
  apply bind_returned in H as (cwd2 & [w2 c2] & [_ ->]%lift_inv & H).
  apply bind_returned in H as (found & [w3 c3] & Hcheck & H).
  apply input_check_inv in Hcheck as [(-> & _ & ->)|(-> & _ & ->)];
    simpl in H; [|discriminate H].
  apply bind_returned in H as (? & [w4 c4] & Hs & H).
  apply unless_silent_inv in Hs as (_ & _ & ->).
  apply bind_returned in H as (fs & [w5 c5] & [_ ->]%lift_inv & H).
  by injection H as <- _ _ _ <-.
Qed.

Lemma main_prepare_announces interactive config outputPath files (w : W) c w' c' :
  main_prepare interactive config outputPath files (w, c)
  = (Returned (Continue tt), (w', c')) →
  files ≠ []
  ∧ ∃ extra,
      c' = c ++ (if cfg_silent config then extra
                 else [Detected (length files); Resetting outputPath]
                      ++ extra ++ [Converting]).
Proof.
  unfold main_prepare. case_decide as Hlen; [discriminate|]. intros H.
  split; [by destruct files|].
  apply bind_returned in H as (? & [w1 c1] & Hdet & H).
  apply unless_silent_inv in Hdet as (_ & _ & ->).
  apply bind_returned in H as (confirmed & [w2 c2] & Hconf & H).
  assert (c2 = c ++ (if cfg_silent config then []
                     else [Detected (length files)])) as ->.
  { destruct (negb (cfg_yes config) && interactive).
    - by apply lift_inv in Hconf as [_ ->].
    - by injection Hconf as _ _ <-. }
  destruct confirmed; simpl in H; [|discriminate H].
  apply bind_returned in H as ([] & [w3 c3] & Hreset & H).
  apply bind_returned in H as (? & [w4 c4] & Hconv & H).
  apply unless_silent_inv in Hconv as (_ & _ & ->).
  injection H as _ <-.
  apply main_reset_output_returned in Hreset
    as [(w5 & _ & _ & ->)|(e & w5 & _ & _ & ->)];
    unfold resetting_lines; destruct (cfg_silent config) eqn:Hs.
  - exists []. by rewrite !app_nil_r.
  - exists []. by rewrite <- !app_assoc.
  - exists [ResetFailed (message e)]. by rewrite !app_nil_r.
  - exists [ResetFailed (message e)]. by rewrite <- !app_assoc.
Qed.

(** What a run that gets to the loop has printed on the way. *)
Lemma main_before_loop_continue options (w : W) config inputPath outputPath
    files startTime N w' console :
  main_before_loop options (w, [])
  = (Returned (Continue (config, inputPath, outputPath, files, startTime, N)),
     (w', console)) →
  files ≠ [] ∧ cfg_silent config = opt_silent options
  ∧ (opt_silent options = false →
       Searching inputPath ∈ console ∧ Detected (length files) ∈ console
       ∧ Resetting outputPath ∈ console ∧ Converting ∈ console).
Proof.
  unfold main_before_loop. intros H.
  apply bind_returned in H as (config0 & [w1 c1] & Hc & H).
  apply bind_returned in H as (discovered & [w2 c2] & Hd & H).
  destruct discovered as [k|[[ip op] fs]]; [discriminate H|].
  apply bind_returned in H as (ready & [w3 c3] & Hp & H).
  destruct ready as [k|[]]; [discriminate H|].
  apply bind_returned in H as (t & [w4 c4] & [_ ->]%lift_inv & H).
  apply bind_returned in H as (n & [w5 c5] & [_ ->]%lift_inv & H).
  injection H as -> -> -> -> -> -> <- <-.
  pose proof (main_config_silent _ _ _ _ _ _ Hc) as Hsilent.
  apply main_discover_continue in Hd as ->.
  apply main_prepare_announces in Hp as (Hfiles & extra & ->).
  split_and!; [done..|]. intros Hloud. rewrite Hloud in Hsilent.
  rewrite Hsilent.
  repeat (rewrite elem_of_app || rewrite elem_of_cons).
  split_and!; auto 10.
Qed.

End Announced.

(** *** The summary and the files found *)

(** X13.  A run that prints a summary exits with status 0, has been
    through the loop on a non-empty file list, and prints the summary once,
    as its last message.  The two counts of the summary add up to the
    number of files found, which is the number the detection message
    announced, and every path of the error list is one of the files
    found. *)
Theorem summary_accounts_for_the_files_found {W} (P : Platform W)
    options (w : W) ending summary :
  main_run options w ending →
  SummaryLines summary ∈ printed ending →
  exit_status ending = 0
  ∧ ∃ config inputPath outputPath files startTime N w' console,
      main_before_loop options (w, [])
      = (Returned (Continue (config, inputPath, outputPath, files, startTime, N)),
         (w', console))
      ∧ printed ending = console ++ [SummaryLines summary]
      ∧ (∀ other, SummaryLines other ∉ console)
      ∧ files ≠ []
      ∧ (successCount summary + failCount summary = length files)%nat
      ∧ (∀ entry, entry ∈ errorList summary → entry.1 ∈ files)
      ∧ (opt_silent options = false → Detected (length files) ∈ console).
Proof.
  intros Hrun Hin.
  destruct Hrun as [c w' console H|e w' console H
                   |config inputPath outputPath files startTime N
                      w' console s endTime H Hreach Hend]; simpl in Hin.
  - by apply no_summary_before_loop with (summary := summary) in H.
  - apply elem_of_app in Hin as [Hin|Hin].
    + by apply no_summary_before_loop with (summary := summary) in H.
    + by apply list_elem_of_singleton in Hin.
  - split; [done|].
    exists config, inputPath, outputPath, files, startTime, N, w', console.
    pose proof (no_summary_before_loop _ _ _ _ _ H) as Hnone.
    apply elem_of_app in Hin as [Hin|Hin]; [by apply Hnone in Hin|].
    apply list_elem_of_singleton in Hin. injection Hin as ->.
    pose proof (sched_inv_reachable _ _ _ _ _ _ _ Hreach) as Hinv.
    destruct (main_before_loop_continue _ _ _ _ _ _ _ _ _ _ H)
      as (Hfiles & _ & Hloud).
    split_and!; [done..| | |].
    + simpl. rewrite count_success_fail. by eapply end_results_length.
    + intros entry. simpl.
      intros (r & -> & [_ Hr]%list_elem_of_filter)%list_elem_of_fmap. simpl.
      rewrite <- (end_results _ _ _ _ Hinv Hend).
      apply list_elem_of_fmap. eauto.
    + intros Hs. by destruct (Hloud Hs) as (_ & ? & _).
Qed.

Lemma home_run : main_run Demo.flags Demo.home Runs.home_ending.
Proof.
  eapply (run_completed Demo.flags Demo.home _ _ _ _ _ _ _ _
            Runs.one_picture 5000).
  - vm_compute. reflexivity.
  - eapply rtc_l; [by apply step_start|].
    eapply rtc_l.
    { apply (step_settle _ _ _ _ _ 0%nat Demo.picture Runs.picture_result);
        [done|].
      exists Sim.world, Sim.platform, Demo.home. eexists.
      vm_compute. reflexivity. }
    eapply rtc_l; [by apply step_loop_end|].
    eapply rtc_l; [|apply rtc_refl].
    eapply step_all; [done|]. intros p Hp. by apply elem_of_nil in Hp.
  - done.
Qed.

Lemma summary_accounts_for_the_files_found_sample :
  ∃ files : list string,
    files ≠ []
    ∧ (successCount (printSummary [Runs.picture_result] 4000)
       + failCount (printSummary [Runs.picture_result] 4000)
       = length files)%nat
    ∧ Detected (length files) ∈ [Searching "/home/u/input"; Detected 1;
                                 Resetting "/home/u/output"; Converting].
Proof.
  destruct (summary_accounts_for_the_files_found Sim.platform Demo.flags
              Demo.home Runs.home_ending
              (printSummary [Runs.picture_result] 4000) home_run)
    as (_ & config & ip & op & files & t & N & w' & console & Hbefore & Hprinted
        & _ & Hfiles & Hcount & _ & Hdetected).
  - do 4 right. left.
  - exists files. split_and!; [done..|].
    apply app_inj_tail in Hprinted as [<- _]. by apply Hdetected.
Defined.

Lemma exit_status_ignores_failed_jobs_sample :
  ∃ before final,
    printed Runs.home_ending = before ++ [final]
    ∧ ((exit_status Runs.home_ending = 1 ∧ is_error_line final = true)
       ∨ (exit_status Runs.home_ending = 0
          ∧ (final = NoImagesFound ∨ final = Cancelled
             ∨ ∃ summary, final = SummaryLines summary))).
Proof.
  exact (proj1 (proj2 (exit_status_ignores_failed_jobs Sim.platform Demo.flags
                         Demo.home) Runs.home_ending home_run)).
Defined.

(** *** What can make [main] reject *)

Section Returns.
Context {W : Type}.

Lemma returns_ret {V A} (a : A) : always_returns (W := V) (io_ret a).
Proof. intros w. by eexists _, _. Qed.

Lemma returns_bind {V A B} (m : io V A) (k : A → io V B) :
  always_returns m → (∀ a, always_returns (k a)) → always_returns (io_bind m k).
Proof.
  intros Hm Hk w. destruct (Hm w) as (a & w1 & Hmw).
  destruct (Hk a w1) as (b & w2 & Hkw).
  exists b, w2. unfold io_bind. by rewrite Hmw.
Qed.

Lemma returns_catch {V A} (m : io V A) h :
  (∀ e, always_returns (h e)) → always_returns (try_catch m h).
Proof.
  intros Hh w. unfold try_catch. destruct (m w) as [[a|e] w1]; [by eexists _, _|].
  apply Hh.
Qed.

Lemma returns_lift {A} (m : io W A) : always_returns m → always_returns (lift m).
Proof.
  intros Hm [w c]. destruct (Hm w) as (a & w1 & Hmw).
  exists a, (w1, c). unfold lift. by rewrite Hmw.
Qed.

Lemma returns_log line : always_returns (W := World W) (console_log line).
Proof. intros [w c]. by eexists _, _. Qed.

Lemma returns_unless_silent config line :
  always_returns (W := World W) (unless_silent config line).
Proof.
  unfold unless_silent. destruct (cfg_silent config);
    [apply returns_ret|apply returns_log].
Qed.

End Returns.

Section Unguarded.
Context {W : Type} (P : Platform W).
Hypothesis calm : unguarded_calls_return P.

Lemma returns_ensureDirectory dirPath : always_returns (ensureDirectory dirPath true).
Proof. apply returns_catch. intros _. apply (mkdir_returns _ calm). Qed.

Lemma returns_main_before_loop options :
  always_returns (main_before_loop options).
Proof.
  pose proof calm as [Hask Hcwd Hglob Hconfirm Hmkdir Hnow Hcpus].
  unfold main_before_loop.
  apply returns_bind.
  { unfold main_config. destruct (isInteractive options); [|apply returns_ret].
    apply returns_bind; [apply returns_log|intros _].
    apply returns_bind; [by apply returns_lift|intros answers].
    apply returns_ret. }
  intros config. apply returns_bind.
  { unfold main_discover.
    apply returns_bind; [by apply returns_lift|intros cwd1].
    apply returns_bind; [by apply returns_lift|intros cwd2].
    apply returns_bind.
    { apply returns_catch. intros _.
      apply returns_bind; [apply returns_log|intros _; apply returns_ret]. }
    intros found. destruct found; simpl; [|apply returns_ret].
    apply returns_bind; [apply returns_unless_silent|intros _].
    apply returns_bind; [apply returns_lift, Hglob|intros files].
    apply returns_ret. }
  intros [c|[[inputPath outputPath] files]]; [apply returns_ret|].
  apply returns_bind.
  { unfold main_prepare. case_decide.
    { apply returns_bind; [apply returns_log|intros _; apply returns_ret]. }
    apply returns_bind; [apply returns_unless_silent|intros _].
    apply returns_bind.
    { destruct (_ && _); [apply returns_lift, Hconfirm|apply returns_ret]. }
    intros confirmed. destruct confirmed; simpl.
    - apply returns_bind.
      { unfold main_reset_output.
        apply returns_bind; [apply returns_unless_silent|intros _].
        apply returns_bind.
        { apply returns_catch. intros e.
          case_decide; [apply returns_log|apply returns_ret]. }
        intros _. apply returns_lift, returns_ensureDirectory. }
      intros _.
      apply returns_bind; [apply returns_unless_silent|intros _].
      apply returns_ret.
    - apply returns_bind; [apply returns_log|intros _; apply returns_ret]. }
  intros [c|[]]; [apply returns_ret|].
  apply returns_bind; [by apply returns_lift|intros startTime].
  apply returns_bind; [by apply returns_lift|intros N].
  apply returns_ret.
Qed.

End Unguarded.

Section Prints.
Context {W : Type} (kind : Line → bool).

Lemma prints_ret {A} (a : A) : prints (W := W) kind (io_ret a).
Proof.
  intros w c o w' c' [= _ _ <-]. exists []. by rewrite app_nil_r.
Qed.

Lemma prints_lift {A} (m : io W A) : prints kind (lift m).
Proof.
  intros w c o w' c'. unfold lift. destruct (m w).
  intros [= _ _ <-]. exists []. by rewrite app_nil_r.
Qed.

Lemma prints_log line : kind line = false → prints (W := W) kind (console_log line).
Proof.
  intros Hl w c o w' c' [= _ _ <-]. exists [line]. split; [done|].
  by apply Forall_singleton.
Qed.

Lemma prints_unless_silent config line :
  kind line = false → prints (W := W) kind (unless_silent config line).
Proof.
  intros Hl. unfold unless_silent.
  destruct (cfg_silent config); [apply prints_ret|by apply prints_log].
Qed.

Lemma prints_bind {A B} (m : io (World W) A) (k : A → io (World W) B) :
  prints kind m → (∀ a, prints kind (k a)) → prints kind (io_bind m k).
Proof.
  intros Hm Hk w c o w' c'. unfold io_bind.
  destruct (m (w, c)) as [[a|e] [w1 c1]] eqn:Hmw.
  - intros Hka. destruct (Hm _ _ _ _ _ Hmw) as (x1 & -> & H1).
    destruct (Hk a _ _ _ _ _ Hka) as (x2 & -> & H2).
    exists (x1 ++ x2). split; [by rewrite app_assoc|by apply Forall_app].
  - intros [= _ <- <-]. by apply (Hm _ _ _ _ _ Hmw).
Qed.

Lemma prints_try_catch {A} (m : io (World W) A) h :
  prints kind m → (∀ e, prints kind (h e)) → prints kind (try_catch m h).
Proof.
  intros Hm Hh w c o w' c'. unfold try_catch.
  destruct (m (w, c)) as [[a|e] [w1 c1]] eqn:Hmw.
  - intros [= _ <- <-]. by apply (Hm _ _ _ _ _ Hmw).
  - intros Hhe. destruct (Hm _ _ _ _ _ Hmw) as (x1 & -> & H1).
    destruct (Hh e _ _ _ _ _ Hhe) as (x2 & -> & H2).
    exists (x1 ++ x2). split; [by rewrite app_assoc|by apply Forall_app].
Qed.

End Prints.

(** Before the loop [main] itself never prints the report of an unexpected
    error: that is left to [main().catch]. *)
Lemma main_before_loop_prints {W} `{!Platform W} options :
  prints (W := W) is_unexpected (main_before_loop options).
Proof.
  assert (Hreset : ∀ config outputPath,
            prints (W := W) is_unexpected (main_reset_output config outputPath)).
  { intros config outputPath. unfold main_reset_output.
    apply prints_bind; [by apply prints_unless_silent|intros _].
    apply prints_bind; [|intros _; apply prints_lift].
    apply prints_try_catch; [apply prints_lift|intros e].
    case_decide; [by apply prints_log|apply prints_ret]. }
  unfold main_before_loop.
  apply prints_bind.
  { unfold main_config. destruct (isInteractive options); [|apply prints_ret].
    apply prints_bind; [by apply prints_log|intros _].
    apply prints_bind; [apply prints_lift|intros answers; apply prints_ret]. }
  intros config. apply prints_bind.
  { unfold main_discover.
    apply prints_bind; [apply prints_lift|intros cwd1].
    apply prints_bind; [apply prints_lift|intros cwd2].
    apply prints_bind.
    { apply prints_try_catch.
      - apply prints_bind; [apply prints_lift|intros _; apply prints_ret].
      - intros e.
        apply prints_bind; [by apply prints_log|intros _; apply prints_ret]. }
    intros found. destruct found; simpl; [|apply prints_ret].
    apply prints_bind; [by apply prints_unless_silent|intros _].
    apply prints_bind; [apply prints_lift|intros files; apply prints_ret]. }
  intros [c|[[inputPath outputPath] files]]; [apply prints_ret|].
  apply prints_bind.
  { unfold main_prepare. case_decide.
    { apply prints_bind; [by apply prints_log|intros _; apply prints_ret]. }
    apply prints_bind; [by apply prints_unless_silent|intros _].
    apply prints_bind.
    { destruct (_ && _); [apply prints_lift|apply prints_ret]. }
    intros confirmed. destruct confirmed; simpl.
    - apply prints_bind; [apply Hreset|intros _].
      apply prints_bind; [by apply prints_unless_silent|intros _].
      apply prints_ret.
    - apply prints_bind; [by apply prints_log|intros _; apply prints_ret]. }
  intros [c|[]]; [apply prints_ret|].
  apply prints_bind; [apply prints_lift|intros startTime].
  apply prints_bind; [apply prints_lift|intros N; apply prints_ret].
Qed.

(** X12.  The calls [main] makes outside any [try] block are the two
    prompts, [process.cwd], [glob], the final [mkdir] of the output folder,
    [Date.now] and [os.cpus].  When these return, [main] never rejects,
    whatever [fs.access], [fs.rm], [fs.stat] and [sharp] do: no report of an
    unexpected error is printed, and the exit status is 1 only after the
    notice of a missing input folder. *)
Theorem main_rejects_only_when_an_unguarded_call_fails {W} (P : Platform W)
    options (w : W) ending :
  unguarded_calls_return P →
  main_run options w ending →
  (∀ text, UnexpectedError text ∉ printed ending)
  ∧ (exit_status ending = 1
     ↔ ∃ before inputPath,
         printed ending = before ++ [InputFolderMissing inputPath]).
Proof.
  intros Hcalm Hrun.
  destruct (returns_main_before_loop P Hcalm options (w, []))
    as (flow & [w' console] & Hbefore).
  assert (Hnone : ∀ text, UnexpectedError text ∉ console).
  { intros text Hin.
    destruct (main_before_loop_prints options _ _ _ _ _ Hbefore)
      as (extra & -> & Hextra). simpl in Hin.
    rewrite Forall_forall in Hextra. by apply Hextra in Hin. }
  destruct Hrun as [c w0 console0 H|e w0 console0 H
                   |config inputPath outputPath files startTime N
                      w0 console0 s endTime H Hreach Hend];
    rewrite Hbefore in H; [|discriminate H|]; simpl.
  - injection H as -> <- <-. split; [done|].
    apply main_before_loop_exit in Hbefore
      as (before & final & -> & [(-> & ip & ->)|(-> & Hfinal)]).
    + split; [eauto|done].
    + split; [done|]. intros (before' & ip & [_ ->]%app_inj_tail).
      by destruct Hfinal.
  - injection H as -> <- <-. split.
    + intros text [Hin|Hin]%elem_of_app; [by apply Hnone in Hin|].
      by apply list_elem_of_singleton in Hin.
    + split; [done|]. by intros (before & ip & [_ ?]%app_inj_tail).
Qed.

Lemma lenient_calls_return : unguarded_calls_return Runs.lenient.
Proof.
  split; simpl.
  - intros w. by eexists _, _.
  - intros w. by eexists _, _.
  - intros pattern w. unfold Sim.find.
    destruct (NodePath.strip_suffix _ _); by eexists _, _.
  - intros count w. by eexists _, _.
  - intros dirPath w. by eexists _, _.
  - intros w. unfold Sim.now. by eexists _, _.
  - intros w. by eexists _, _.
Qed.

Lemma main_rejects_only_when_an_unguarded_call_fails_sample :
  exit_status {| exit_status := 1;
                 printed := [InputFolderMissing "/home/u/input"] |} = 1
  ↔ ∃ before inputPath,
      printed {| exit_status := 1;
                 printed := [InputFolderMissing "/home/u/input"] |}
      = before ++ [InputFolderMissing inputPath].
Proof.
  refine (proj2 (main_rejects_only_when_an_unguarded_call_fails Runs.lenient
                   Demo.flags Runs.home_bare _ lenient_calls_return _)).
  apply (@run_exit _ Runs.lenient Demo.flags Runs.home_bare 1
           Runs.home_bare [InputFolderMissing "/home/u/input"]).
  vm_compute. reflexivity.
Defined.

(** On the sample home directory whose output folder can neither be cleaned
    nor created, [mkdir] is the call that fails: [main] rejects, and the run
    ends with status 1. *)
Example sealed_output_folder_rejects :
  main_run Demo.flags Runs.home_sealed
    {| exit_status := 1;
       printed :=
         [Searching "/home/u/input"; Detected 1; Resetting "/home/u/output";
          ResetFailed
            "Failed to clean directory: /home/u/output. EACCES: permission denied, rmdir /home/u/output"]
         ++ [UnexpectedError "EACCES: permission denied, mkdir /home/u/output"] |}.
Proof.
  eapply (run_rejected Demo.flags Runs.home_sealed
            (Sim.system_error "EACCES: permission denied, mkdir /home/u/output"
               "EACCES")).
  vm_compute. reflexivity.
Qed.

(** ** Silent mode *)

Lemma kept_app c1 c2 : kept (c1 ++ c2) = kept c1 ++ kept c2.
Proof. apply filter_app. Qed.

Lemma kept_progress c line : is_progress line = true → kept (c ++ [line]) = kept c.
Proof.
  intros H. rewrite kept_app. unfold kept at 2.
  rewrite filter_cons_False by (by rewrite H). simpl. by rewrite app_nil_r.
Qed.

Lemma kept_other c line :
  is_progress line = false → kept (c ++ [line]) = kept c ++ [line].
Proof.
  intros H. rewrite kept_app. unfold kept at 2.
  by rewrite filter_cons_True by done.
Qed.

Section Muted.
Context {W : Type}.

Lemma muted_ret {A B} (R : A → B → Prop) a b :
  R a b → muted (W := W) R (io_ret a) (io_ret b).
Proof. intros HR w c1 c2 ->. done. Qed.

Lemma muted_lift {A} (m : io W A) : muted eq (lift m) (lift m).
Proof. intros w c1 c2 ->. unfold lift. by destruct (m w) as [[a|e] w']. Qed.

Lemma muted_log line :
  is_progress line = false →
  muted (W := W) eq (console_log line) (console_log line).
Proof. intros H w c1 c2 ->. simpl. by rewrite kept_other. Qed.

Lemma muted_unless_silent loud quiet line :
  twin loud quiet → is_progress line = true →
  muted (W := W) eq (unless_silent loud line) (unless_silent quiet line).
Proof.
  intros [Hl ->] H w c1 c2 ->. unfold unless_silent. rewrite Hl. simpl.
  by rewrite kept_progress.
Qed.

Lemma muted_bind {A B A' B'} (R : A → A' → Prop) (S : B → B' → Prop)
    (m : io (World W) A) (m' : io (World W) A') k k' :
  muted R m m' → (∀ a a', R a a' → muted S (k a) (k' a')) →
  muted S (io_bind m k) (io_bind m' k').
Proof.
  intros Hm Hk w c1 c2 Hc. specialize (Hm w c1 c2 Hc). unfold io_bind.
  destruct (m (w, c1)) as [[a|e] [w1 c1']], (m' (w, c2)) as [[a'|e'] [w2 c2']];
    try done.
  destruct Hm as (HR & -> & ->). by apply Hk.
Qed.

Lemma muted_try_catch {A A'} (R : A → A' → Prop)
    (m : io (World W) A) (m' : io (World W) A') h h' :
  muted R m m' → (∀ e, muted R (h e) (h' e)) →
  muted R (try_catch m h) (try_catch m' h').
Proof.
  intros Hm Hh w c1 c2 Hc. specialize (Hm w c1 c2 Hc). unfold try_catch.
  destruct (m (w, c1)) as [[a|e] [w1 c1']], (m' (w, c2)) as [[a'|e'] [w2 c2']];
    try done.
  destruct Hm as (-> & -> & ->). by apply Hh.
Qed.

End Muted.

Section MutedMain.
Context {W : Type} `{P : !Platform W}.

Lemma muted_main_config options :
  muted twin (main_config (set_silent false options))
    (main_config (set_silent true options)).
Proof.
  unfold main_config.
  assert (Hi : ∀ b, isInteractive (set_silent b options) = isInteractive options)
    by done.
  rewrite !Hi. destruct (isInteractive options).
  - eapply muted_bind; [by apply muted_log|intros _ _ _].
    eapply muted_bind; [apply muted_lift|intros answers ? <-].
    apply muted_ret. by split.
  - apply muted_ret. by split.
Qed.

Lemma muted_main_discover loud quiet :
  twin loud quiet →
  muted (twin_flow eq) (main_discover loud) (main_discover quiet).
Proof.
  intros Htwin. pose proof Htwin as [Hl ->]. unfold main_discover.
  eapply muted_bind; [apply muted_lift|intros cwd1 ? <-].
  eapply muted_bind; [apply muted_lift|intros cwd2 ? <-].
  eapply muted_bind with (R := eq).
  - apply muted_try_catch.
    + eapply muted_bind; [apply muted_lift|intros ? ? _]. by apply muted_ret.
    + intros e. eapply muted_bind; [by apply muted_log|intros ? ? _].
      by apply muted_ret.
  - intros found ? <-. destruct found; simpl.
    + eapply muted_bind; [by apply muted_unless_silent|intros ? ? _].
      eapply muted_bind; [apply muted_lift|intros files ? <-].
      by apply muted_ret.
    + by apply muted_ret.
Qed.

Lemma muted_main_reset_output loud quiet outputPath :
  twin loud quiet →
  muted eq (main_reset_output loud outputPath)
    (main_reset_output quiet outputPath).
Proof.
  intros Htwin. unfold main_reset_output.
  eapply muted_bind; [by apply muted_unless_silent|intros ? ? _].
  eapply muted_bind with (R := eq); [|intros ? ? _; apply muted_lift].
  apply muted_try_catch; [apply muted_lift|]. intros e.
  case_decide; [by apply muted_log|by apply muted_ret].
Qed.

Lemma muted_main_prepare interactive loud quiet outputPath files :
  twin loud quiet →
  muted (twin_flow eq)
    (main_prepare interactive loud outputPath files)
    (main_prepare interactive quiet outputPath files).
Proof.
  intros Htwin. pose proof Htwin as [Hl Hq]. unfold main_prepare.
  case_decide.
  - eapply muted_bind; [by apply muted_log|intros ? ? _]. by apply muted_ret.
  - eapply muted_bind; [by apply muted_unless_silent|intros ? ? _].
    assert (Hyes : cfg_yes quiet = cfg_yes loud) by by subst quiet.
    rewrite Hyes.
    eapply muted_bind with (R := eq).
    { destruct (negb (cfg_yes loud) && interactive);
        [apply muted_lift|by apply muted_ret]. }
    intros confirmed ? <-. destruct confirmed; simpl.
    + eapply muted_bind; [by apply muted_main_reset_output|intros ? ? _].
      eapply muted_bind; [by apply muted_unless_silent|intros ? ? _].
      by apply muted_ret.
    + eapply muted_bind; [by apply muted_log|intros ? ? _]. by apply muted_ret.
Qed.

Lemma muted_main_before_loop options :
  muted (twin_flow (λ a b : Ready,
           let '(c1, ip1, op1, fs1, t1, n1) := a in
           b = (mute c1, ip1, op1, fs1, t1, n1)))
    (main_before_loop (set_silent false options))
    (main_before_loop (set_silent true options)).
Proof.
  unfold main_before_loop.
  eapply muted_bind; [apply muted_main_config|intros loud quiet Htwin].
  eapply muted_bind; [by apply muted_main_discover|].
  intros [c1|[[ip1 op1] fs1]] [c2|[[ip2 op2] fs2]]; simpl;
    [intros ->; by apply muted_ret|done|done|].
  intros Heq. simplify_eq.
  assert (Hi : ∀ b, isInteractive (set_silent b options) = isInteractive options)
    by done.
  rewrite !Hi.
  eapply muted_bind; [by apply muted_main_prepare|].
  intros [c1|[]] [c2|[]]; simpl; [intros ->; by apply muted_ret|done|done|].
  intros _.
  eapply muted_bind; [apply muted_lift|intros startTime ? <-].
  eapply muted_bind; [apply muted_lift|intros N ? <-].
  apply muted_ret. simpl. by destruct Htwin as [_ ->].
Qed.

End MutedMain.

(** *** The loop with and without the progress bar *)

Lemma convertImage_reads_quality_and_effort {W} `{!Platform W}
    filePath inputRoot outputRoot (c1 c2 : Config) (w : W) :
  cfg_quality c1 = cfg_quality c2 → cfg_effort c1 = cfg_effort c2 →
  convertImage filePath inputRoot outputRoot c1 w
  = convertImage filePath inputRoot outputRoot c2 w.
Proof.
  intros Hq He. unfold convertImage, convertImage_try. by rewrite Hq, He.
Qed.

Lemma job_outcome_mute filePath inputRoot outputRoot config r :
  job_outcome filePath inputRoot outputRoot config r
  ↔ job_outcome filePath inputRoot outputRoot (mute config) r.
Proof.
  unfold job_outcome. split; intros (V & Q & v & v' & Hrun);
    exists V, Q, v, v'; by rewrite <- Hrun;
    apply convertImage_reads_quality_and_effort.
Qed.

Section Bars.
Variables (inputRoot outputRoot : string) (config : Config) (N : nat).

Lemma step_hide_bar s s' :
  step inputRoot outputRoot config N s s' →
  step inputRoot outputRoot (mute config) N (hide_bar s) (hide_bar s').
Proof.
  intros Hstep. destruct Hstep as [s file rest Hc Hrem|s p file r Hp Hr
                                  |s raced p Hc Hp Hf|s Hc Hrem|s awaited Hc Hall].
  - by apply (step_start _ _ _ _ (hide_bar s) file rest).
  - apply (step_settle _ _ _ _ (hide_bar s) p file r); [done|].
    by apply job_outcome_mute.
  - by apply (step_race _ _ _ _ (hide_bar s) raced p).
  - by apply (step_loop_end _ _ _ _ (hide_bar s)).
  - by apply (step_all _ _ _ _ (hide_bar s) awaited).
Qed.

Lemma step_show_bar s s' :
  step inputRoot outputRoot (mute config) N s s' →
  step inputRoot outputRoot config N (show_bar s) (show_bar s').
Proof.
  intros Hstep. destruct Hstep as [s file rest Hc Hrem|s p file r Hp Hr
                                  |s raced p Hc Hp Hf|s Hc Hrem|s awaited Hc Hall].
  - by apply (step_start _ _ _ _ (show_bar s) file rest).
  - assert (Hs : show_bar (settle_job s p r) = settle_job (show_bar s) p r).
    { unfold show_bar, settle_job. simpl. f_equal.
      rewrite length_app. simpl. f_equal. lia. }
    rewrite Hs. apply (step_settle _ _ _ _ (show_bar s) p file r); [done|].
    by apply job_outcome_mute.
  - by apply (step_race _ _ _ _ (show_bar s) raced p).
  - by apply (step_loop_end _ _ _ _ (show_bar s)).
  - by apply (step_all _ _ _ _ (show_bar s) awaited).
Qed.

Lemma reachable_hide_bar files s :
  reachable inputRoot outputRoot config N files false s →
  reachable inputRoot outputRoot (mute config) N files true (hide_bar s).
Proof.
  unfold reachable.
  change (sched_init files true) with (hide_bar (sched_init files false)).
  induction 1 as [|s1 s2 s3 Hstep _ IH]; [apply rtc_refl|].
  eapply rtc_l; [|exact IH]. by apply step_hide_bar.
Qed.

Lemma reachable_show_bar files s :
  reachable inputRoot outputRoot (mute config) N files true s →
  reachable inputRoot outputRoot config N files false (show_bar s).
Proof.
  unfold reachable.
  change (sched_init files false) with (show_bar (sched_init files true)).
  induction 1 as [|s1 s2 s3 Hstep _ IH]; [apply rtc_refl|].
  eapply rtc_l; [|exact IH]. by apply step_show_bar.
Qed.

End Bars.

(** X11.  [--silent] changes nothing but the console: before the loop [main]
    leaves the same world and returns the same values, the configuration's
    own [silent] apart, and prints the same messages short of the four
    progress messages.  Every ending of the loud run is an ending of the
    silent run with those messages removed, and the other way round: the
    same exit status and the same summary. *)
Theorem silent_drops_progress_messages_only {W} (P : Platform W)
    options (w : W) :
  (∃ o w' console,
     main_before_loop (set_silent false options) (w, []) = (o, (w', console))
     ∧ main_before_loop (set_silent true options) (w, [])
       = (mute_ready o, (w', kept console)))
  ∧ (∀ ending,
       main_run (set_silent false options) w ending →
       main_run (set_silent true options) w
         {| exit_status := exit_status ending;
            printed := kept (printed ending) |})
  ∧ (∀ ending,
       main_run (set_silent true options) w ending →
       ∃ console,
         main_run (set_silent false options) w
           {| exit_status := exit_status ending; printed := console |}
         ∧ printed ending = kept console).
Proof.
  pose proof (muted_main_before_loop options w [] [] eq_refl) as Hm.
  destruct (main_before_loop (set_silent false options) (w, []))
    as [o1 [w1 c1]] eqn:H1.
  destruct (main_before_loop (set_silent true options) (w, []))
    as [o2 [w2 c2]] eqn:H2.
  assert (Hsame : o2 = mute_ready o1 ∧ w2 = w1 ∧ c2 = kept c1).
  { destruct o1 as [[k1|ready1]|e1], o2 as [[k2|ready2]|e2]; simpl in Hm;
      try (by destruct Hm as ([] & _)); try done.
    - by destruct Hm as (-> & -> & ->).
    - destruct ready1 as [[[[[? ?] ?] ?] ?] ?].
      by destruct Hm as (-> & -> & ->).
    - by destruct Hm as (-> & -> & ->). }
  destruct Hsame as (-> & -> & ->). split_and!.
  - by exists o1, w1, c1.
  - intros ending Hrun.
    destruct Hrun as [k w' console H|e w' console H
                     |config inputPath outputPath files startTime N
                        w' console s endTime H Hreach Hend];
      rewrite H1 in H; injection H as -> -> ->; simpl in *.
    + by eapply run_exit.
    + rewrite kept_other by done. by eapply run_rejected.
    + rewrite kept_other by done.
      change (results s) with (results (hide_bar s)).
      eapply (run_completed (set_silent true options) w (mute config));
        [exact H2| |done].
      destruct (main_before_loop_continue _ _ _ _ _ _ _ _ _ _ H1)
        as (_ & Hsilent & _). simpl in Hsilent.
      rewrite Hsilent in Hreach. simpl. by apply reachable_hide_bar.
  - intros ending Hrun.
    destruct Hrun as [k w' console H|e w' console H
                     |config inputPath outputPath files startTime N
                        w' console s endTime H Hreach Hend];
      rewrite H2 in H.
    + destruct o1 as [[k1|ready1]|e1]; simpl in H;
        [|by destruct ready1 as [[[[[? ?] ?] ?] ?] ?]|done].
      injection H as <- <- <-. exists c1. split; [by eapply run_exit|done].
    + destruct o1 as [[k1|ready1]|e1]; simpl in H;
        [done|by destruct ready1 as [[[[[? ?] ?] ?] ?] ?]|].
      injection H as <- <- <-. eexists. split; [by eapply run_rejected|].
      simpl. by rewrite kept_other.
    + destruct o1 as [[k1|ready1]|e1]; simpl in H; [done| |done].
      destruct ready1 as [[[[[loud ip] op] fs] t] n].
      injection H as <- <- <- <- <- <- <- <-.
      exists (c1 ++ [SummaryLines (printSummary (results (show_bar s))
                                     (endTime - t))]).
      split.
      * eapply (run_completed (set_silent false options) w loud ip op fs t n
                  w1 c1 (show_bar s) endTime); [exact H1| |done].
        destruct (main_before_loop_continue _ _ _ _ _ _ _ _ _ _ H1)
          as (_ & Hsilent & _). simpl in Hsilent.
        rewrite Hsilent. simpl in Hreach. by apply reachable_show_bar.
      * simpl. by rewrite kept_other.
Qed.

Lemma silent_drops_progress_messages_only_sample :
  main_run (set_silent true Demo.flags) Demo.home
    {| exit_status := 0;
       printed := [SummaryLines (printSummary [Runs.picture_result] 4000)] |}.
Proof.
  exact (proj1 (proj2 (silent_drops_progress_messages_only Sim.platform
                         Demo.flags Demo.home)) Runs.home_ending home_run).
Defined.

(** ** [convertImage]: the writes of a job *)


Section Writes.
Context {W : Type} (P : Platform W).
Variables (root out dirs : list string) (name : string).
Hypothesis Hroot : proper_path root = true.
Hypothesis Hout : proper_path out = true.
Hypothesis Hdirs : proper_path dirs = true.
Hypothesis Hname : proper_segmentb name = true.


End Writes.

(** *** What a job writes, whether it succeeds or fails *)



(** The calls of the job that fails half way: both writes were asked for. *)
Example picture_half_converted_log :
  write_dest <$>
    (@convertImage _ (recording Sim.platform) Demo.picture "/home/u/input"
       "/home/u/output" Demo.config (Demo.home_half, [])).2.2
  = ["/home/u/output/a/b/c.avif"; "/home/u/output/a/b/c.png"].
Proof. vm_compute. reflexivity. Qed.

(** *** Which jobs write to the same place *)

Lemma segments_proper out dirs name :
  Forall proper_segment out → Forall proper_segment dirs →
  proper_segment name → Forall proper_segment (out ++ dirs ++ [name]).
Proof.
  intros Ho Hd Hn. apply Forall_app. split; [done|].
  apply Forall_app. split; [done|]. by apply Forall_singleton.
Qed.

Lemma artifact_path_inj out dirs1 name1 dirs2 name2 :
  Forall proper_segment out →
  Forall proper_segment dirs1 → proper_segment name1 →
  Forall proper_segment dirs2 → proper_segment name2 →
  absolute (out ++ dirs1 ++ [name1]) = absolute (out ++ dirs2 ++ [name2])
  ↔ dirs1 = dirs2 ∧ name1 = name2.
Proof.
  intros Ho Hd1 Hn1 Hd2 Hn2. split; [|by intros [-> ->]].
  intros H%absolute_inj; [|by apply segments_proper..].
  apply app_inv_head in H. by apply app_inj_tail in H.
Qed.

(** X15.  Two successful jobs under the same roots report the same fallback
    path only for the same input file, and the same AVIF path exactly when
    their files are in the same folder and have the same stem: two files
    that differ in the extension only are written to one [stem.avif].  The
    AVIF path of one is the fallback path of the other exactly when the
    other file is named [stem.avif]. *)
Theorem jobs_share_an_artifact_only_by_name {W} (P : Platform W)
    (root out dirs1 dirs2 : list string) (name1 name2 : string) options
    (w1 w2 : W) r1 r2 w1' w2' :
  proper_path root = true → proper_path out = true →
  proper_path dirs1 = true → proper_segmentb name1 = true →
  proper_path dirs2 = true → proper_segmentb name2 = true →
  convertImage (job_path root dirs1 name1) (absolute root) (absolute out)
    options w1 = (Returned r1, w1') →
  convertImage (job_path root dirs2 name2) (absolute root) (absolute out)
    options w2 = (Returned r2, w2') →
  success r1 = true → success r2 = true →
  let stem1 := fileName_of (job_path root dirs1 name1) in
  let stem2 := fileName_of (job_path root dirs2 name2) in
  name1 = stem1 +:+ NodePath.extname name1
  ∧ name2 = stem2 +:+ NodePath.extname name2
  ∧ (fallback_path r1 = fallback_path r2 ↔ dirs1 = dirs2 ∧ name1 = name2)
  ∧ (avif_path r1 = avif_path r2 ↔ dirs1 = dirs2 ∧ stem1 = stem2)
  ∧ (avif_path r1 = fallback_path r2
     ↔ dirs1 = dirs2 ∧ name2 = stem1 +:+ ".avif").
Proof.
  intros Hroot Hout Hdirs1 Hname1 Hdirs2 Hname2 Hrun1 Hrun2 Hok1 Hok2
    stem1 stem2.
  pose proof (proper_path_spec _ Hout) as Ho.
  pose proof (proper_path_spec _ Hdirs1) as Hd1.
  pose proof (proper_path_spec _ Hdirs2) as Hd2.
  pose proof (proper_segmentb_spec _ Hname1) as Hn1.
  pose proof (proper_segmentb_spec _ Hname2) as Hn2.
  destruct (output_paths root out dirs1 name1 Ho Hd1 Hn1) as (Hstem1 & _ & _).
  destruct (output_paths root out dirs2 name2 Ho Hd2 Hn2) as (Hstem2 & _ & _).
  fold (job_path root dirs1 name1) in Hstem1. fold stem1 in Hstem1.
  fold (job_path root dirs2 name2) in Hstem2. fold stem2 in Hstem2.
  assert (Ha1 : proper_segment (stem1 +:+ ".avif")).
  { apply (proper_avif_name _ (NodePath.extname name1)). rewrite <- Hstem1.
    by destruct Hn1 as (_ & _ & _ & ?). }
  assert (Ha2 : proper_segment (stem2 +:+ ".avif")).
  { apply (proper_avif_name _ (NodePath.extname name2)). rewrite <- Hstem2.
    by destruct Hn2 as (_ & _ & _ & ?). }
  assert (Hpaths : ∀ dirs name (w : W) r w',
            proper_path dirs = true → proper_segmentb name = true →
            convertImage (job_path root dirs name) (absolute root)
              (absolute out) options w = (Returned r, w') →
            success r = true →
            avif_path r
            = Some (primary_path out dirs (fileName_of (job_path root dirs name)))
            ∧ fallback_path r = Some (secondary_path out dirs name)).
  { intros dirs name w r w' Hdirs Hname Hrun Hok.
    destruct (convertImage_cases (job_path root dirs name) (absolute root)
                (absolute out) options w)
      as [(r0 & w0 & Htry & Hrun')|(e & w0 & _ & Hrun')];
      rewrite Hrun in Hrun'; injection Hrun' as -> ->; [|done].
    by eapply mirror_try. }
  destruct (Hpaths _ _ _ _ _ Hdirs1 Hname1 Hrun1 Hok1) as [Hp1 Hs1].
  destruct (Hpaths _ _ _ _ _ Hdirs2 Hname2 Hrun2 Hok2) as [Hp2 Hs2].
  fold stem1 in Hp1. fold stem2 in Hp2.
  rewrite Hp1, Hp2, Hs1, Hs2. unfold primary_path, secondary_path.
  split_and!; [done|done|..].
  - split; [|by intros [-> ->]].
    intros H%(inj Some). by apply artifact_path_inj in H.
  - split; [|by intros [-> ->]].
    intros H%(inj Some). apply artifact_path_inj in H as [-> H]; [|done..].
    split; [done|]. by apply app_inv_tail_string in H.
  - split; [|by intros [-> ->]].
    intros H%(inj Some). by apply artifact_path_inj in H as [-> <-].
Qed.

Lemma jobs_share_an_artifact_only_by_name_sample :
  avif_path Runs.photo_from_png = avif_path Runs.photo_from_jpg
  ∧ fallback_path Runs.photo_from_png ≠ fallback_path Runs.photo_from_jpg.
Proof.
  destruct (jobs_share_an_artifact_only_by_name Sim.platform ["in"] ["out"]
              [] [] "photo.png" "photo.jpg" Demo.config Runs.album Runs.album
              Runs.photo_from_png Runs.photo_from_jpg
              (convertImage "/in/photo.png" "/in" "/out" Demo.config
                 Runs.album).2
              (convertImage "/in/photo.jpg" "/in" "/out" Demo.config
                 Runs.album).2
              eq_refl eq_refl eq_refl eq_refl eq_refl eq_refl)
    as (_ & _ & Hfallback & Havif & _).
  - vm_compute. reflexivity.
  - vm_compute. reflexivity.
  - reflexivity.
  - reflexivity.
  - split.
    + apply Havif. split; reflexivity.
    + intros [_ H]%Hfallback. discriminate H.
Defined.

(** ** [printSummary]: totals and percentages *)

(** *** The summary and the failed jobs *)

Lemma job_result_failed r :
  job_result r → success r = false →
  originalSize r = None ∧ avif_size r = None ∧ fallback_size r = None
  ∧ is_Some (error r).
Proof.
  intros (filePath & inputRoot & outputRoot & config & W & P & w & w' & Hrun)
    Hfail.
  destruct (convertImage_cases filePath inputRoot outputRoot config w)
    as [(r0 & w0 & Htry & Hrun')|(e & w0 & _ & Hrun')];
    rewrite Hrun in Hrun'; injection Hrun' as -> ->.
  - apply convertImage_try_success in Htry as (Hs & _). congruence.
  - simpl. eauto.
Qed.

Lemma sum_field_successes field rs :
  Forall (λ r, success r = false → field r = None) rs →
  sum_field field rs = sum_field field (filter (λ r, success r = true) rs).
Proof.
  induction 1 as [|r rs Hr _ IH]; [done|].
  rewrite filter_cons. destruct (success r) eqn:Hs.
  - rewrite decide_True by done. by rewrite !sum_field_cons, IH.
  - rewrite decide_False by done. rewrite sum_field_cons, (Hr eq_refl). simpl.
    by rewrite IH.
Qed.

Lemma no_failure_among_successes (rs : list ConversionResult) :
  filter (λ r, success r = false) (filter (λ r, success r = true) rs) = [].
Proof.
  induction rs as [|r rs IH]; [done|].
  rewrite filter_cons. destruct (success r) eqn:Hs.
  - rewrite decide_True by done. rewrite filter_cons_False by congruence. done.
  - by rewrite decide_False by done.
Qed.

(** X16.  For results that jobs returned, the three totals and the two
    reduction percentages of the summary are those of the successful
    results alone; the error list has one entry for each failed result,
    each with an error text.  When every job failed, the totals are 0 and
    so are both percentages. *)
Theorem failed_jobs_add_nothing_to_the_totals rs duration :
  Forall job_result rs →
  let all := printSummary rs duration in
  let successes :=
    printSummary (filter (λ r, success r = true) rs) duration in
  totalOriginalSize all = totalOriginalSize successes
  ∧ totalAvifSize all = totalAvifSize successes
  ∧ totalFallbackSize all = totalFallbackSize successes
  ∧ avifReduction all = avifReduction successes
  ∧ fallbackReduction all = fallbackReduction successes
  ∧ successCount all = successCount successes
  ∧ failCount successes = 0%nat
  ∧ length (errorList all) = failCount all
  ∧ Forall (λ entry, is_Some entry.2) (errorList all)
  ∧ (Forall (λ r, success r = false) rs →
       totalOriginalSize all = 0%N ∧ totalAvifSize all = 0%N
       ∧ totalFallbackSize all = 0%N
       ∧ avifReduction all = 0 ∧ fallbackReduction all = 0).
Proof.
  intros Hrs. simpl.
  assert (Hsum : ∀ field,
            (∀ r, job_result r → success r = false → field r = None) →
            sum_field field rs
            = sum_field field (filter (λ r, success r = true) rs)).
  { intros field Hfield. apply sum_field_successes.
    eapply Forall_impl; [exact Hrs|]. intros r Hr. by apply Hfield. }
  rewrite <- (Hsum originalSize), <- (Hsum avif_size), <- (Hsum fallback_size);
    try (intros r Hr Hfail;
         by destruct (job_result_failed r Hr Hfail) as (? & ? & ? & _)).
  split_and!; try done.
  - by rewrite list_filter_filter_l.
  - by rewrite no_failure_among_successes.
  - by rewrite length_fmap.
  - apply Forall_fmap, Forall_forall. intros r [Hfail Hin]%list_elem_of_filter.
    simpl. rewrite Forall_forall in Hrs.
    by destruct (job_result_failed r (Hrs r Hin) Hfail) as (_ & _ & _ & ?).
  - intros Hall.
    assert (Hnone : filter (λ r, success r = true) rs = []).
    { clear Hrs Hsum. induction Hall as [|r rs Hr _ IH]; [done|].
      rewrite filter_cons_False by congruence. done. }
    rewrite (Hsum originalSize), (Hsum avif_size), (Hsum fallback_size), Hnone;
      try (intros r Hr Hfail;
           by destruct (job_result_failed r Hr Hfail) as (? & ? & ? & _)).
    done.
Qed.

Lemma failed_jobs_add_nothing_to_the_totals_sample :
  avifReduction
    (printSummary [Demo.result_x; Demo.result_z; Demo.result_y] 2500)
  = avifReduction (printSummary [Demo.result_x; Demo.result_y] 2500).
Proof.
  refine (proj1 (proj2 (proj2 (proj2
            (failed_jobs_add_nothing_to_the_totals
               [Demo.result_x; Demo.result_z; Demo.result_y] 2500 _))))).
  repeat apply Forall_cons_2; [| | |apply Forall_nil_2].
  - exists "/in/x.png", "/in", "/out", Demo.config. apply scenario_x.
  - exists "/in/z.gif", "/in", "/out", Demo.config. apply scenario_z.
  - exists "/in/y.jpg", "/in", "/out", Demo.config. apply scenario_y.
Defined.

(** *** The range of the reduction percentage *)

(** X17.  A reduction percentage is at most 100, is not negative when the
    artifact total does not exceed the original total, and does not
    increase with the artifact total.  For a positive original total it is
    100 for artifacts of no size at all and 0 for artifacts as large as the
    originals. *)
Theorem reduction_stays_within_bounds (part part' total : N) :
  reduction part total ≤ 100
  ∧ ((part ≤ total)%N → 0 ≤ reduction part total)
  ∧ ((part ≤ part')%N → reduction part' total ≤ reduction part total)
  ∧ ((0 < total)%N → reduction 0 total = 100 ∧ reduction total total = 0)
  ∧ ∀ rs duration,
      avifReduction (printSummary rs duration) ≤ 100
      ∧ fallbackReduction (printSummary rs duration) ≤ 100.
Proof.
  assert (Hle : ∀ p t, reduction p t ≤ 100).
  { intros p t. destruct (decide (t = 0%N)) as [->|Ht]; [done|].
    rewrite reduction_round by lia. change 100 with (Math_round 100).
    apply Math_round_mono, saved_percent_le_100. }
  split_and!.
  - apply Hle.
  - intros Hpt. destruct (decide (total = 0%N)) as [->|Ht]; [done|].
    rewrite reduction_round by lia. change 0 with (Math_round 0).
    apply Math_round_mono, saved_percent_nonneg; [lia|done].
  - intros Hpp. destruct (decide (total = 0%N)) as [->|Ht]; [done|].
    rewrite !reduction_round by lia.
    apply Math_round_mono, saved_percent_mono; [lia|done].
  - intros Ht. rewrite !reduction_round by lia. split.
    + change 100 with (Math_round 100).
      by apply Math_round_comp, saved_percent_nothing.
    + change 0 with (Math_round 0).
      by apply Math_round_comp, saved_percent_everything.
  - intros rs duration. simpl. split; apply Hle.
Qed.


Lemma reduction_stays_within_bounds_sample :
  0 ≤ reduction 25000 100000 ∧ reduction 50000 100000 ≤ reduction 25000 100000.
Proof.
  destruct (reduction_stays_within_bounds 25000 50000 100000)
    as (_ & Hpos & Hmono & _).
  split; [apply Hpos|apply Hmono]; lia.
Defined.

(** ** [findImages]: what is searched *)

(** *** The search pattern of [findImages] *)

Lemma join_split s : join_slash (split_slash s) = s.
Proof.
  induction s as [|c s IH]; [done|]. simpl.
  pose proof (split_slash_nonempty s) as Hne.
  destruct (is_slash c) eqn:Hc.
  - apply is_slash_true in Hc as ->.
    destruct (split_slash s) as [|h t]; [done|].
    rewrite join_slash_cons, IH. done.
  - destruct (split_slash s) as [|h t]; [done|].
    destruct t as [|h' t].
    + change (join_slash [h]) with h in IH. by subst.
    + rewrite join_slash_cons in *. by rewrite app_String, IH.
Qed.

(** A path below a well-formed absolute directory normalises to what its
    segments fold to, as long as the last segment is an ordinary one. *)
Lemma normalize_below dir rest name :
  Forall proper_segment dir → Forall no_slash rest → proper_segment name →
  NodePath.normalize
    (absolute dir +:+ String "/" (join_slash (rest ++ [name])))
  = absolute (fold_left (NodePath.normalize_step false) rest dir ++ [name]).
Proof.
  intros Hdir Hrest Hname. pose proof Hname as (Hne & _ & _ & Hns).
  unfold NodePath.normalize.
  destruct (decide (_ = EmptyString)) as [[? _]%app_empty_inv|_]; [done|].
  assert (Habs : NodePath.isAbsolute
                   (absolute dir +:+ String "/" (join_slash (rest ++ [name])))
                 = true) by done.
  rewrite Habs. simpl negb.
  assert (Htrail : NodePath.ends_with_slash
                     (absolute dir +:+ String "/" (join_slash (rest ++ [name])))
                   = false).
  { rewrite join_slash_last.
    change (String "/" ?s) with ("/" +:+ s). rewrite <- !app_assoc_string.
    by apply ends_with_slash_app. }
  rewrite Htrail.
  assert (Hbody : NodePath.normalizeString
                    (absolute dir +:+ String "/" (join_slash (rest ++ [name])))
                    false
                  = join_slash (fold_left (NodePath.normalize_step false) rest
                                  dir ++ [name])).
  { unfold NodePath.normalizeString. f_equal.
    rewrite split_slash_app, fold_left_app.
    destruct (split_absolute dir Hdir) as (l & -> & ->). simpl.
    rewrite split_join.
    - rewrite fold_left_app. simpl. by rewrite normalize_step_proper.
    - by destruct rest.
    - apply Forall_app. split; [done|]. by apply Forall_singleton. }
  rewrite Hbody.
  destruct (decide (_ = EmptyString)) as [Hj|_]; [|done].
  exfalso. rewrite join_slash_last in Hj.
  apply app_empty_inv in Hj as [_ ?]. done.
Qed.

Lemma proper_globstar : proper_segment "**".
Proof. by apply proper_segmentb_spec. Qed.

Section Search.
Context {W : Type} `{P : !Platform W}.

(** The separators are slashes already. *)
Lemma findImages_join3 directory pattern (w : W) :
  findImages directory pattern w
  = glob (NodePath.join3 directory "**" pattern) w.
Proof. unfold findImages. by rewrite join_split. Qed.

Lemma findImages_fold dir rest name (w : W) :
  Forall proper_segment dir → Forall no_slash rest → proper_segment name →
  findImages (absolute dir) (join_slash (rest ++ [name])) w
  = glob (absolute (fold_left (NodePath.normalize_step false)
                      ("**" :: rest) dir ++ [name])) w.
Proof.
  intros Hdir Hrest Hname. rewrite findImages_join3. f_equal.
  unfold NodePath.join3.
  assert (Hpat : join_slash (rest ++ [name]) ≠ EmptyString).
  { rewrite join_slash_last. intros [_ ?]%app_empty_inv.
    by destruct Hname as (? & _). }
  rewrite !filter_cons_True, filter_nil by done.
  change (join_slash [absolute dir; "**"; join_slash (rest ++ [name])])
    with (absolute dir
          +:+ String "/" ("**" +:+ String "/" (join_slash (rest ++ [name])))).
  assert (Hsegs : "**" +:+ String "/" (join_slash (rest ++ [name]))
                  = join_slash (("**" :: rest) ++ [name])).
  { simpl app. destruct (rest ++ [name]) eqn:Hr; [by destruct rest|done]. }
  rewrite Hsegs. apply normalize_below; [done| |done].
  apply Forall_cons. split; [|done].
  by destruct proper_globstar as (_ & _ & _ & ?).
Qed.

Lemma findImages_below dir segs (w : W) :
  Forall proper_segment dir → Forall proper_segment segs → segs ≠ [] →
  findImages (absolute dir) (join_slash segs) w
  = glob (absolute (dir ++ "**" :: segs)) w.
Proof.
  intros Hdir Hsegs Hne.
  destruct (exists_last Hne) as (rest & name & ->).
  apply Forall_app in Hsegs as [Hrest [Hname _]%Forall_cons].
  rewrite findImages_fold; [|done|by apply proper_no_slash|done].
  simpl fold_left. rewrite normalize_step_proper by apply proper_globstar.
  rewrite normalize_fold_proper by done.
  by rewrite <- !app_assoc.
Qed.

End Search.

(** X18.  [findImages] calls [glob] once, with [directory/**/pattern]
    normalised by [path.posix.join]; replacing the separators is the
    identity.  For a resolved directory and a pattern of ordinary segments
    the search pattern is those segments below [**]; a pattern that starts
    with [..] cancels the [**], and the search is no longer recursive. *)
Theorem findImages_search_pattern {W} (P : Platform W) (w : W) :
  (∀ directory pattern,
     findImages directory pattern w
     = glob (NodePath.join3 directory "**" pattern) w)
  ∧ (∀ dir segs,
       proper_path dir = true → proper_path segs = true → segs ≠ [] →
       findImages (absolute dir) (join_slash segs) w
       = glob (absolute (dir ++ "**" :: segs)) w)
  ∧ (∀ dir segs,
       proper_path dir = true → proper_path segs = true → segs ≠ [] →
       findImages (absolute dir) (join_slash (".." :: segs)) w
       = glob (absolute (dir ++ segs)) w).
Proof.
  split_and!.
  - intros directory pattern. apply findImages_join3.
  - intros dir segs Hdir Hsegs Hne.
    apply findImages_below; [by apply proper_path_spec..|done].
  - intros dir segs Hdir Hsegs Hne.
    apply proper_path_spec in Hdir, Hsegs.
    destruct (exists_last Hne) as (rest & name & ->).
    apply Forall_app in Hsegs as [Hrest [Hname _]%Forall_cons].
    change (".." :: rest ++ [name]) with ((".." :: rest) ++ [name]).
    rewrite findImages_fold; [|done| |done].
    + simpl fold_left.
      rewrite (normalize_step_proper false dir "**") by apply proper_globstar.
      assert (Hup : NodePath.normalize_step false (dir ++ ["**"]) ".." = dir).
      { unfold NodePath.normalize_step.
        rewrite !decide_False, decide_True by done.
        rewrite last_snoc, decide_False by done. apply removelast_last. }
      rewrite Hup, normalize_fold_proper by done.
      by rewrite <- app_assoc.
    + apply Forall_cons. split; [|by apply proper_no_slash].
      intros c Hc. unfold chars in Hc. simpl in Hc.
      repeat (apply elem_of_cons in Hc as [->|Hc]; [done|]).
      by apply elem_of_nil in Hc.
Qed.

Lemma findImages_search_pattern_sample :
  findImages "/home/u/input" "*.{png,jpg,jpeg,webp}" Demo.home
  = glob "/home/u/input/**/*.{png,jpg,jpeg,webp}" Demo.home.
Proof.
  apply (proj1 (proj2 (findImages_search_pattern Sim.platform Demo.home))
           ["home"; "u"; "input"] ["*.{png,jpg,jpeg,webp}"]);
    [reflexivity|reflexivity|discriminate].
Defined.

(** A pattern that climbs out of [**]: only the folder itself is searched. *)
Example findImages_parent_pattern :
  findImages "/home/u/input" "../*.png" Demo.home
  = glob "/home/u/input/*.png" Demo.home.
Proof. reflexivity. Qed.

(** *** The roots [main] resolves *)

Lemma split_slash_pieces s : Forall no_slash (split_slash s).
Proof.
  induction s as [|c s IH]; simpl.
  - apply Forall_singleton, no_slash_empty.
  - destruct (is_slash c) eqn:Hc.
    + apply Forall_cons. split; [apply no_slash_empty|done].
    + pose proof (split_slash_nonempty s) as Hne.
      destruct (split_slash s) as [|h t]; [done|].
      apply Forall_cons in IH as [Hh Ht]. apply Forall_cons. split; [|done].
      by apply no_slash_String.
Qed.

Lemma Forall_removelast {A} (Q : A → Prop) (l : list A) :
  Forall Q l → Forall Q (removelast l).
Proof.
  induction 1 as [|x l Hx Hl IH]; simpl; [done|].
  destruct l; [done|]. by apply Forall_cons.
Qed.

Lemma normalize_step_keeps_proper stack seg :
  Forall proper_segment stack → no_slash seg →
  Forall proper_segment (NodePath.normalize_step false stack seg).
Proof.
  intros Hstack Hseg. unfold NodePath.normalize_step.
  repeat case_decide; try done.
  - destruct (last stack) as [top|]; [|done].
    case_decide; [done|by apply Forall_removelast].
  - apply Forall_app. split; [done|]. by apply Forall_singleton.
Qed.

Lemma normalize_fold_keeps_proper segs stack :
  Forall proper_segment stack → Forall no_slash segs →
  Forall proper_segment (fold_left (NodePath.normalize_step false) segs stack).
Proof.
  revert stack. induction segs as [|seg segs IH]; intros stack Hstack Hsegs;
    simpl; [done|].
  apply Forall_cons in Hsegs as [Hseg Hsegs].
  apply IH; [|done]. by apply normalize_step_keeps_proper.
Qed.

(** [path.resolve] always returns a normalised absolute path. *)
Lemma resolve_well_formed cwd p :
  ∃ segs, Forall proper_segment segs ∧ NodePath.resolve cwd p = absolute segs.
Proof.
  unfold NodePath.resolve, NodePath.normalizeString, absolute.
  eexists. split; [|reflexivity].
  apply normalize_fold_keeps_proper; [done|apply split_slash_pieces].
Qed.

Lemma proper_segmentb_complete s : proper_segment s → proper_segmentb s = true.
Proof.
  intros (H1 & H2 & H3 & Hns). unfold proper_segmentb.
  rewrite !andb_true_iff, !negb_true_iff, !String.eqb_neq.
  split_and!; [done..|].
  unfold no_slashb. apply forallb_forall. intros c Hc%list_elem_of_In.
  by rewrite (Hns c Hc).
Qed.

Lemma proper_path_complete segs : Forall proper_segment segs → proper_path segs = true.
Proof.
  intros H. unfold proper_path. apply forallb_forall.
  intros s Hs%list_elem_of_In. rewrite Forall_forall in H.
  by apply proper_segmentb_complete, H.
Qed.

(** X19.  Whatever the options, the answers and the working directory,
    the two roots [main] hands to the jobs are normalised absolute paths:
    no empty segment, no [.] and no [..].  The files are what
    [findImages] returned for the input root and the configured pattern;
    for a pattern of ordinary segments, the default one among them, that is
    what [glob] found for [inputRoot/**/pattern]. *)
Theorem main_resolves_well_formed_roots {W} (P : Platform W)
    config (w : W) c inputPath outputPath files w' c' :
  main_discover config (w, c)
  = (Returned (Continue (inputPath, outputPath, files)), (w', c')) →
  ∃ root out,
    proper_path root = true ∧ proper_path out = true
    ∧ inputPath = absolute root ∧ outputPath = absolute out
    ∧ (∃ w0, findImages (absolute root) (cfg_pattern config) w0
             = (Returned files, w'))
    ∧ ∀ segs,
        proper_path segs = true → segs ≠ [] →
        cfg_pattern config = join_slash segs →
        ∃ w0, glob (absolute (root ++ "**" :: segs)) w0 = (Returned files, w').
Proof.
  unfold main_discover. intros H.
  apply bind_returned in H as (cwd1 & [w1 c1] & _ & H).
  apply bind_returned in H as (cwd2 & [w2 c2] & _ & H).
  apply bind_returned in H as (found & [w3 c3] & _ & H).
  destruct found; simpl in H; [|discriminate H].
  apply bind_returned in H as (? & [w4 c4] & Hs & H).
  apply unless_silent_inv in Hs as (_ & -> & _).
  apply bind_returned in H as (fs & [w5 c5] & [Hfind _]%lift_inv & H).
  injection H as <- <- <- <- _.
  destruct (resolve_well_formed cwd1 (cfg_input config)) as (root & Hroot & Hip).
  destruct (resolve_well_formed cwd2 (cfg_output config)) as (out & Hout & Hop).
  exists root, out. rewrite Hip in Hfind |- *. rewrite Hop.
  split_and!; [by apply proper_path_complete..|done|done|eauto|].
  intros segs Hsegs Hne Hpat. exists w3. rewrite Hpat in Hfind.
  rewrite <- Hfind. symmetry.
  apply findImages_below; [done|by apply proper_path_spec|done].
Qed.

Lemma main_resolves_well_formed_roots_sample :
  ∃ root out,
    proper_path root = true ∧ proper_path out = true
    ∧ "/home/u/input" = absolute root ∧ "/home/u/output" = absolute out.
Proof.
  destruct (main_resolves_well_formed_roots Sim.platform Demo.config Demo.home
              [] "/home/u/input" "/home/u/output" [Demo.picture] Demo.home
              [Searching "/home/u/input"])
    as (root & out & Hroot & Hout & Hip & Hop & _).
  - vm_compute. reflexivity.
  - by exists root, out.
Defined.
